(** * ScaleLLM: a shallow embedding of the serving core and its collaborators

    The first half of the file holds the definitions, module by module:
    - [CausalLM]      : models/causal_lm.cpp      (model factory)
    - [ChatHandler]   : handlers/chat_handler.cpp (gRPC chat front end)
    - [Llama2]        : models/llama.h            (token rows through the model)
    - [Llama2FeedForward], [Llama2StateDict] : models/llama.h (the
                        feed-forward width, the checkpoint prefixes)
    - [PosEmbedding]  : layers/pos_embedding.cpp  (rotary inverse frequencies)
    - [Rotary]        : layers/pos_embedding.cpp  (rotary embedding, Llama-3
                        frequency scaling)
    - [AttentionHandler] : layers/attention/handler.cpp (handler factories)
    - [ServerMain]    : server/main.cpp           (devices and default dtype)
    - [Core]          : the scheduler, batch builder, block allocator and
                        sequence state, after the design document

    The second half states and proves their properties. *)

From Stdlib Require Import ZArith QArith Reals Lia Lra List Ascii String Bool Arith.
From Stdlib Require Import Decimal DecimalNat DecimalString.
From stdpp Require Import base option list strings gmap sorting.

Close Scope Q_scope.
Close Scope R_scope.
Local Open Scope string_scope.

(* ===================================================================== *)
(** ** models/causal_lm.cpp *)
(* ===================================================================== *)

Module CausalLM.

(** [std::toupper(c, std::locale())] in the classic locale: the 26 lower
    case letters move down by 32, every other byte is left alone. *)
Definition is_lower (c : ascii) : bool :=
  ((97 <=? nat_of_ascii c) && (nat_of_ascii c <=? 122))%nat.

Definition toupper (c : ascii) : ascii :=
  if is_lower c then ascii_of_nat (nat_of_ascii c - 32) else c.

(** [boost::iequals(Input, Test)]: walk both ranges in lock step, compare
    the upper-cased characters, and accept only when both ranges end
    together. *)
Fixpoint iequals (input test : string) : bool :=
  match input, test with
  | EmptyString, EmptyString => true
  | String a input', String b test' =>
      if Ascii.eqb (toupper a) (toupper b) then iequals input' test'
      else false
  | _, _ => false
  end.

(** The six instantiations of [CausalLMImpl<Model>]. *)
Inductive ModelFamily : Type :=
| LlamaModel        (* llm::LlamaModel, the native llama2 port *)
| HfLlamaModel      (* hf::LlamaModel *)
| HfGPT2Model       (* hf::GPT2Model *)
| HfGPTNeoXModel    (* hf::GPTNeoXModel *)
| HfMistralModel    (* hf::MistralModel *)
| HfAquilaModel.    (* hf::AquilaModel *)

#[global] Instance ModelFamily_eq_dec : EqDecision ModelFamily.
Proof. solve_decision. Defined.

Section Create.
(** The argument records are declared in headers outside the translated
    sources; only [model_type()] is inspected here. *)
Context {ModelArgs QuantizationArgs ParallelArgs ScalarType Device : Type}.
Variable model_type : ModelArgs -> string.

(** A constructed [CausalLMImpl<Model>]: which model it wraps, what the
    model was built from, and whether [eval()] has been called on it. *)
Record CausalLMImpl : Type := mkCausalLM {
  family      : ModelFamily;
  model_args  : ModelArgs;
  quant_args  : QuantizationArgs;
  par_args    : ParallelArgs;
  dtype       : ScalarType;
  device      : Device;
  eval_mode   : bool
}.

(** Outcome of a call: the returned [unique_ptr] ([None] is [nullptr])
    and the lines written with [LOG(ERROR)]. *)
Record CreateResult : Type := mkCreateResult {
  returned : option CausalLMImpl;
  logged   : list string
}.

Definition make (f : ModelFamily) (args : ModelArgs)
    (q : QuantizationArgs) (p : ParallelArgs) (t : ScalarType)
    (d : Device) : CreateResult :=
  mkCreateResult (Some (mkCausalLM f args q p t d true)) [].

Definition create (args : ModelArgs) (q : QuantizationArgs)
    (p : ParallelArgs) (t : ScalarType) (d : Device) : CreateResult :=
  if iequals (model_type args) "llama2" then make LlamaModel args q p t d
  else if iequals (model_type args) "llama" then make HfLlamaModel args q p t d
  else if iequals (model_type args) "gpt2" then make HfGPT2Model args q p t d
  else if iequals (model_type args) "gpt_neox" then make HfGPTNeoXModel args q p t d
  else if iequals (model_type args) "mistral" then make HfMistralModel args q p t d
  else if iequals (model_type args) "aquila" then make HfAquilaModel args q p t d
  else mkCreateResult None
         ["Unsupported model type: " ++ model_type args].

Definition created_family (r : CreateResult) : option ModelFamily :=
  family <$> returned r.
End Create.

(** The model types the factory knows, as spelled in the source. *)
Definition supported : list string :=
  ["llama2"; "llama"; "gpt2"; "gpt_neox"; "mistral"; "aquila"].

(** Two characters that are the same up to letter case, stated on the
    character codes and without reference to [toupper]. *)
Definition is_upper (c : ascii) : bool :=
  ((65 <=? nat_of_ascii c) && (nat_of_ascii c <=? 90))%nat.

Definition same_letter (a b : ascii) : Prop :=
  a = b
  \/ (is_lower a = true /\ nat_of_ascii b + 32 = nat_of_ascii a)
  \/ (is_lower b = true /\ nat_of_ascii a + 32 = nat_of_ascii b).

(** Two strings that differ at most in the case of their letters. *)
Fixpoint differ_only_in_case (s t : string) : Prop :=
  match s, t with
  | EmptyString, EmptyString => True
  | String a s', String b t' => same_letter a b /\ differ_only_in_case s' t'
  | _, _ => False
  end.

End CausalLM.

(* ===================================================================== *)
(** ** handlers/chat_handler.cpp *)
(* ===================================================================== *)

Module ChatHandler.

(** [grpc::StatusCode]. *)
Inductive StatusCode : Type :=
| OK | CANCELLED | UNKNOWN | INVALID_ARGUMENT | DEADLINE_EXCEEDED
| NOT_FOUND | ALREADY_EXISTS | PERMISSION_DENIED | RESOURCE_EXHAUSTED
| FAILED_PRECONDITION | ABORTED | OUT_OF_RANGE | UNIMPLEMENTED
| INTERNAL | UNAVAILABLE | DATA_LOSS | UNAUTHENTICATED.

(** *** The protobuf messages written to the client.  A field that the
    code never sets stays [None]. *)
Record ChatMessage : Type := mkChatMessage {
  msg_role    : option string;
  msg_content : option string
}.

Record Choice : Type := mkChoice {
  choice_index         : nat;
  choice_delta         : option ChatMessage;
  choice_message       : option ChatMessage;
  choice_finish_reason : option string
}.

Record Usage : Type := mkUsage {
  prompt_tokens     : Z;
  completion_tokens : Z;
  total_tokens      : Z
}.

Record ChatResponse : Type := mkChatResponse {
  resp_object  : string;
  resp_id      : string;
  resp_created : Z;
  resp_model   : string;
  resp_choices : list Choice;
  resp_usage   : option Usage
}.

(** *** What the scheduler hands to the callback. *)
Record SequenceOutput : Type := mkSequenceOutput {
  index         : nat;
  text          : string;
  finish_reason : option string
}.

Record Statistics : Type := mkStatistics {
  num_prompt_tokens    : Z;
  num_generated_tokens : Z;
  num_total_tokens     : Z
}.

Section Handler.
(** Types and helpers declared in headers outside the translated
    sources: the scalar type of the penalties, the two priority enums
    with [to_priority], the engine's [Status] with its accessors and
    [to_grpc_status_code], and the handler that receives scheduled
    requests. *)
Context {float Priority ProtoPriority Status LLMHandler : Type}.
Variable to_priority : ProtoPriority -> Priority.
Variable status_ok : Status -> bool.
Variable status_message : Status -> string.
Variable status_grpc_code : Status -> StatusCode.

Record RequestOutput : Type := mkRequestOutput {
  outputs  : list SequenceOutput;
  status   : option Status;
  usage    : option Statistics;
  finished : bool
}.

Record SamplingParams : Type := mkSamplingParams {
  max_tokens          : Z;
  n                   : Z;
  frequency_penalty   : float;
  presence_penalty    : float;
  repetition_penalty  : float;
  temperature         : float;
  top_p               : float;
  top_k               : Z;
  skip_special_tokens : bool;
  ignore_eos          : bool;
  stop                : option (list string);
  stop_token_ids      : option (list Z)
}.

(** The defaults of a value-initialised [SamplingParams]. *)
Variable default_sampling_params : SamplingParams.

(** [proto::ChatRequest]; the [has_x()] fields are options. *)
Record ChatRequest : Type := mkChatRequest {
  req_model               : string;
  req_messages            : list (string * string);
  req_stream              : bool;
  req_priority            : ProtoPriority;
  req_max_tokens          : option Z;
  req_n                   : option Z;
  req_frequency_penalty   : option float;
  req_presence_penalty    : option float;
  req_repetition_penalty  : option float;
  req_temperature         : option float;
  req_top_p               : option float;
  req_top_k               : option Z;
  req_skip_special_tokens : option bool;
  req_ignore_eos          : option bool;
  req_stop                : list string;
  req_stop_token_ids      : list Z
}.

(** *** [ChatCallData], by its observable effect: the responses the
    client has received so far and the status the call was finished
    with.  Whether the transport accepts one more response is decided
    outside the handler; [write_ok] gives that verdict from the history
    and the response, and [finish_ok] the value the finishing calls
    report. *)
Record ChatCallData : Type := mkCallData {
  request   : ChatRequest;
  written   : list ChatResponse;
  finish    : option (StatusCode * string)
}.

Variable write_ok : list ChatResponse -> ChatResponse -> bool.
Variable finish_ok : list ChatResponse -> bool.

Definition write (r : ChatResponse) (cd : ChatCallData)
    : bool * ChatCallData :=
  if write_ok (written cd) r
  then (true, mkCallData (request cd) (written cd ++ [r]) (finish cd))
  else (false, cd).

Definition write_and_finish (r : ChatResponse) (cd : ChatCallData)
    : bool * ChatCallData :=
  if write_ok (written cd) r
  then (true, mkCallData (request cd) (written cd ++ [r]) (Some (OK, "")))
  else (false, mkCallData (request cd) (written cd) (Some (OK, ""))).

Definition finish_with_error (code : StatusCode) (msg : string)
    (cd : ChatCallData) : bool * ChatCallData :=
  (finish_ok (written cd),
   mkCallData (request cd) (written cd) (Some (code, msg))).

(** *** The three chunks of [send_delta_to_client]. *)
Section Chunks.
Variables (request_id : string) (created_time : Z) (model : string).

Definition chunk (c : Choice) : ChatResponse :=
  mkChatResponse "chat.completion.chunk" request_id created_time model
    [c] None.

Definition role_chunk (idx : nat) : ChatResponse :=
  chunk (mkChoice idx
           (Some (mkChatMessage (Some "assistant") (Some "")))
           None None).

Definition text_chunk (idx : nat) (t : string) : ChatResponse :=
  chunk (mkChoice idx (Some (mkChatMessage None (Some t))) None None).

Definition finish_chunk (idx : nat) (reason : string) : ChatResponse :=
  chunk (mkChoice idx None None (Some reason)).

(** The three writes of the loop body.  Each reports [false] when
    its [write] failed, which makes the function [return false]. *)

(* send role as a separate message *)
Definition send_role (idx : nat) (first_message_sent : gset nat)
    (cd : ChatCallData) : bool * gset nat * ChatCallData :=
  if decide (idx ∈ first_message_sent)
  then (true, first_message_sent, cd)
  else
    (* update first_message_sent, then write *)
    let '(ok, cd') := write (role_chunk idx) cd in
    (ok, {[ idx ]} ∪ first_message_sent, cd').

Definition send_text (idx : nat) (t : string) (cd : ChatCallData)
    : bool * ChatCallData :=
  if String.eqb t "" then (true, cd)
  else write (text_chunk idx t) cd.

(* send finish reason as a separate message *)
Definition send_finish_reason (idx : nat) (reason : option string)
    (cd : ChatCallData) : bool * ChatCallData :=
  match reason with
  | Some reason => write (finish_chunk idx reason) cd
  | None => (true, cd)
  end.

(** One iteration of the loop body for one sequence output. *)
Definition send_one (so : SequenceOutput)
    (first_message_sent : gset nat) (cd : ChatCallData)
    : bool * gset nat * ChatCallData :=
  let idx := index so in
  let '(ok1, sent1, cd1) := send_role idx first_message_sent cd in
  if negb ok1 then (false, sent1, cd1) else
  let '(ok2, cd2) := send_text idx (text so) cd1 in
  if negb ok2 then (false, sent1, cd2) else
  let '(ok3, cd3) := send_finish_reason idx (finish_reason so) cd2 in
  if negb ok3 then (false, sent1, cd3) else (true, sent1, cd3).

(** The responses one iteration writes when every write is accepted;
    [announced] tells whether the index was in [first_message_sent]. *)
Definition chunks_of (so : SequenceOutput) (announced : bool)
    : list ChatResponse :=
  (if announced then [] else [role_chunk (index so)])
  ++ (if String.eqb (text so) "" then []
      else [text_chunk (index so) (text so)])
  ++ match finish_reason so with
     | Some reason => [finish_chunk (index so) reason]
     | None => []
     end.

Fixpoint send_deltas (outs : list SequenceOutput)
    (first_message_sent : gset nat) (cd : ChatCallData)
    : bool * gset nat * ChatCallData :=
  match outs with
  | [] => (true, first_message_sent, cd)
  | so :: outs' =>
      let '(ok, sent', cd') := send_one so first_message_sent cd in
      if ok then send_deltas outs' sent' cd' else (false, sent', cd')
  end.

Definition send_delta_to_client (cd : ChatCallData)
    (first_message_sent : gset nat) (output : RequestOutput)
    : bool * gset nat * ChatCallData :=
  send_deltas (outputs output) first_message_sent cd.

Definition result_choice (o : SequenceOutput) : Choice :=
  mkChoice (index o) None
    (Some (mkChatMessage (Some "assistant") (Some (text o))))
    (finish_reason o).

Definition result_usage (u : Statistics) : Usage :=
  mkUsage (num_prompt_tokens u) (num_generated_tokens u)
          (num_total_tokens u).

Definition send_result_to_client (cd : ChatCallData)
    (req_output : RequestOutput) : bool * ChatCallData :=
  write_and_finish
    (mkChatResponse "chat.completion" request_id created_time model
       (map result_choice (outputs req_output))
       (result_usage <$> usage req_output))
    cd.
End Chunks.

Definition grpc_request_to_sampling_params (r : ChatRequest)
    : SamplingParams :=
  let d := default_sampling_params in
  mkSamplingParams
    (default (max_tokens d) (req_max_tokens r))
    (default (n d) (req_n r))
    (default (frequency_penalty d) (req_frequency_penalty r))
    (default (presence_penalty d) (req_presence_penalty r))
    (default (repetition_penalty d) (req_repetition_penalty r))
    (default (temperature d) (req_temperature r))
    (default (top_p d) (req_top_p r))
    (default (top_k d) (req_top_k r))
    (default (skip_special_tokens d) (req_skip_special_tokens r))
    (default (ignore_eos d) (req_ignore_eos r))
    (match req_stop r with [] => stop d | l => Some l end)
    (match req_stop_token_ids r with
     | [] => stop_token_ids d | l => Some l end).

(** *** The callback passed to [schedule_chat_async]: its captures
    ([first_message_sent] is the mutable one) and its body. *)
Record Callback : Type := mkCallback {
  cb_model              : string;
  cb_first_message_sent : gset nat;
  cb_request_id         : string;
  cb_created_time       : Z
}.

Definition set_first_message_sent (cb : Callback) (s : gset nat)
    : Callback :=
  mkCallback (cb_model cb) s (cb_request_id cb) (cb_created_time cb).

Definition on_output (cb : Callback) (req_output : RequestOutput)
    (cd : ChatCallData) : bool * Callback * ChatCallData :=
  let failed :=
    match status req_output with
    | Some st => if status_ok st then None else Some st
    | None => None
    end in
  match failed with
  | Some st =>
      let '(ok, cd') :=
        finish_with_error (status_grpc_code st) (status_message st) cd in
      (ok, cb, cd')
  | None =>
      if finished req_output then
        let '(ok, cd') :=
          send_result_to_client (cb_request_id cb) (cb_created_time cb)
            (cb_model cb) cd req_output in
        (ok, cb, cd')
      else
        (* send delta to client *)
        let '(ok, sent', cd') :=
          send_delta_to_client (cb_request_id cb) (cb_created_time cb)
            (cb_model cb) cd (cb_first_message_sent cb) req_output in
        (ok, set_first_message_sent cb sent', cd')
  end.

(** *** [ChatHandler] and [chat_async]. *)
Record ScheduledChat : Type := mkScheduledChat {
  sched_messages : list (string * string);
  sched_params   : SamplingParams;
  sched_priority : Priority;
  sched_stream   : bool;
  sched_callback : Callback
}.

Variable schedule_chat_async : LLMHandler -> ScheduledChat -> LLMHandler.

Record ChatHandler : Type := mkChatHandler {
  llm_handler_ : LLMHandler;
  models_      : gset string
}.

(** [uuid] and [now] are what [generate_request_id()] and
    [absl::Now()] produce when the callback is built. *)
Definition chat_async (h : ChatHandler) (uuid : string) (now : Z)
    (cd : ChatCallData) : ChatHandler * ChatCallData :=
  let grpc_request := request cd in
  let model := req_model grpc_request in
  if negb (bool_decide (model ∈ models_ h)) then
    let '(_, cd') := finish_with_error NOT_FOUND "Model not supported" cd in
    (h, cd')
  else
    let sp := grpc_request_to_sampling_params grpc_request in
    let priority := to_priority (req_priority grpc_request) in
    let stream := req_stream grpc_request in
    let messages := req_messages grpc_request in
    let cb := mkCallback model ∅ ("chatcmpl-" ++ uuid) now in
    (mkChatHandler
       (schedule_chat_async (llm_handler_ h)
          (mkScheduledChat messages sp priority stream cb))
       (models_ h),
     cd).

(** The constructor: [nullptr] is [None], and a failed [CHECK] is
    reported with its condition. *)
Definition new_ChatHandler (llm_handler : option LLMHandler)
    (models : list string) : string + ChatHandler :=
  let models_ : gset string := list_to_set models in
  match llm_handler with
  | None => inl "Check failed: llm_handler != nullptr"
  | Some llm_handler =>
      if decide (models_ = ∅) then inl "Check failed: !models_.empty()"
      else inr (mkChatHandler llm_handler models_)
  end.


(** The callback over the life of its request.  The closure is
    [mutable]: the captured [first_message_sent] carries over from one
    invocation to the next, and so does the call data it points to.
    [invoke_all] invokes it on one output after the other and collects
    the answers.  Nothing is assumed of the caller: one that stops at a
    [false] answer has invoked the callback on a shorter list. *)
Fixpoint invoke_all (outs : list RequestOutput) (cb : Callback)
    (cd : ChatCallData) : list bool * Callback * ChatCallData :=
  match outs with
  | [] => ([], cb, cd)
  | o :: outs' =>
      let '(ok, cb1, cd1) := on_output cb o cd in
      let '(answers, cb', cd') := invoke_all outs' cb1 cd1 in
      (ok :: answers, cb', cd')
  end.

End Handler.

(** *** Reading the stream as the client sees it. *)

(** The sequence index a streamed chunk is about. *)
Definition delta_index (r : ChatResponse) : option nat :=
  if String.eqb (resp_object r) "chat.completion.chunk" then
    match resp_choices r with
    | [c] => Some (choice_index c)
    | _ => None
    end
  else None.

(** The delta events of sequence [idx], in delivery order. *)
Definition deltas_for (idx : nat) (log : list ChatResponse)
    : list ChatResponse :=
  filter (fun r => delta_index r = Some idx) log.

(** The text carried by a delta, if it carries one. *)
Definition delta_text (r : ChatResponse) : option string :=
  match resp_choices r with
  | [c] => choice_delta c ≫= msg_content
  | _ => None
  end.

Definition delta_finish_reason (r : ChatResponse) : option string :=
  match resp_choices r with
  | [c] => choice_finish_reason c
  | _ => None
  end.

(** An announcement: a delta that carries the empty text and no finish
    reason. *)
Definition is_announcement (r : ChatResponse) : Prop :=
  delta_text r = Some "" /\ delta_finish_reason r = None.

#[global] Instance is_announcement_dec r : Decision (is_announcement r).
Proof. unfold is_announcement. apply _. Defined.




(** *** Reading the deltas of a sequence back. *)

Definition concat_strings (l : list string) : string :=
  foldr String.append "" l.

(** What a client that concatenates the text deltas of sequence [idx]
    ends up with, and the finish reasons it is told, in order. *)
Definition delivered_text (idx : nat) (log : list ChatResponse) : string :=
  concat_strings ((fun r => default "" (delta_text r)) <$> deltas_for idx log).

Definition delivered_finish_reasons (idx : nat) (log : list ChatResponse)
    : list string :=
  omap delta_finish_reason (deltas_for idx log).

End ChatHandler.

Module ChatHandlerExamples.
Import ChatHandler.

(** A small instance: penalties, priorities and statuses are units, and
    the scheduler is the queue of what was scheduled. *)
Definition params : @SamplingParams unit :=
  mkSamplingParams 16 1 tt tt tt tt tt 0 true false None None.

Definition req (model : string) : @ChatRequest unit unit :=
  mkChatRequest model [("user", "hi")] true tt None None None None None
    None None None None None [] [].

Definition handler : @ChatHandler (list (@ScheduledChat unit unit)) :=
  mkChatHandler [] {[ "llama2-7b" ]}.

Definition enqueue (q : list (@ScheduledChat unit unit))
    (item : @ScheduledChat unit unit) : list (@ScheduledChat unit unit) :=
  q ++ [item].

(** The callback of a fresh request invoked on [outs]: its answers and
    what the client has received. *)
Definition invoke (accept : list ChatResponse -> ChatResponse -> bool)
    (outs : list (@RequestOutput unit)) : list bool * list ChatResponse :=
  let '(answers, _, cd) :=
    invoke_all (fun _ : unit => true) (fun _ => "") (fun _ => OK)
      accept (fun _ => true) outs
      (mkCallback "m" ∅ "chatcmpl-0" 7)
      (mkCallData (req "m") [] None) in
  (answers, written cd).

Definition run (accept : list ChatResponse -> ChatResponse -> bool)
    (outs : list (@RequestOutput unit)) : list ChatResponse :=
  (invoke accept outs).2.



Definition step (l : list SequenceOutput) : @RequestOutput unit :=
  mkRequestOutput l None None false.

End ChatHandlerExamples.

(* ===================================================================== *)
(** ** models/llama.h (namespace llm::llama2) *)
(* ===================================================================== *)

Module Llama2.

(** *** Tensor operations used by the model, on tensors held as the list
    of their rows along dimension 0. *)

(** [Tensor::slice(0, start, end)]: negative bounds count from the end,
    then both are clamped into the tensor; a missing [end] is the size. *)
Definition slice_bounds (size start : Z) (stop : option Z) : Z * Z :=
  (let start := if start <? 0 then start + size else start in
   let stop := match stop with
               | Some e => if e <? 0 then e + size else e
               | None => size
               end in
   let start := if start <? 0 then 0
                else if size <=? start then size else start in
   let stop := if stop <? start then start
               else if size <=? stop then size else stop in
   (start, stop))%Z.

Definition slice {A : Type} (x : list A) (start : Z) (stop : option Z)
    : list A :=
  let '(b, e) := slice_bounds (Z.of_nat (length x)) start stop in
  take (Z.to_nat (e - b)) (drop (Z.to_nat b) x).

(** What [x] holds after a kernel has stored [rows] through the view
    [x.slice(0, start, end)]: the view shares storage with [x], and a
    store cannot fall outside the view. *)
Definition store_slice {A : Type} (x : list A) (start : Z) (stop : option Z)
    (rows : list A) : list A :=
  let '(b, e) := slice_bounds (Z.of_nat (length x)) start stop in
  list_inserts (Z.to_nat b) (take (Z.to_nat (e - b)) rows) x.

(** [Tensor::index_select(0, index)]: row [j] of the result is row
    [index[j]] of the input; an index outside the input is an error. *)
Definition index_select {A : Type} (x : list A) (index : list Z)
    : option (list A) :=
  mapM (fun i : Z => if (i <? 0)%Z then None else x !! Z.to_nat i) index.

(** The fields of [InputParameters] the model reads. *)
Record InputParameters : Type := mkInputParameters {
  num_prompt_tokens   : Z;
  cu_seq_lens         : list Z;
  max_seq_len         : Z;
  slot_ids            : list Z;
  block_tables        : list (list Z);
  context_lens        : list Z;
  max_context_len     : Z;
  last_token_indicies : list Z
}.

Section Model.
(** A row of activations, a row of logits and a layer's cache; the
    arithmetic on them lives in layers and kernels outside this file. *)
Context {Row Logits KVCache : Type}.

Variable zero : Row.
Variable add : Row -> Row -> Row.
(** rotary embedding of one row at one position *)
Variable pos_emb : Row -> Z -> Row.
Variable set_kv_cache : KVCache -> list Z -> list Row -> list Row -> KVCache.
(** the two attention kernels, by the rows they leave in their output
    argument *)
Variable varlen_masked_self_attention :
  list Row -> list Row -> list Row -> list Z -> Z -> list Row -> list Row.
Variable single_token_masked_self_attention :
  KVCache -> list Row -> list (list Z) -> list Z -> Z -> list Row -> list Row.

(** The weights of one transformer block, each acting on one row. *)
Record TransformerBlock : Type := mkTransformerBlock {
  wq : Row -> Row;
  wk : Row -> Row;
  wv : Row -> Row;
  wo : Row -> Row;
  attention_norm : Row -> Row;
  ffn_norm : Row -> Row;
  feed_forward : Row -> Row
}.

(** [AttentionImpl::forward], for a call with one position per row of
    [x]: the rotary embedding is applied row by row, with [pos_emb] the
    embedding of a row at a position inside the cache. *)
Definition attention_forward (l : TransformerBlock) (x : list Row)
    (positions : list Z) (kv_cache : KVCache)
    (input_params : InputParameters) : list Row * KVCache :=
  let num_tokens := Z.of_nat (length x) in
  let query := map (wq l) x in
  let key := map (wk l) x in
  let value := map (wv l) x in
  (* apply positional embedding *)
  let query := zip_with pos_emb query positions in
  let key := zip_with pos_emb key positions in
  (* store k/v into cache based on slots *)
  let kv_cache := set_kv_cache kv_cache (slot_ids input_params) key value in
  let output := map (fun _ => zero) query in
  let npt := num_prompt_tokens input_params in
  let output :=
    if (0 <? npt)%Z then
      (* process sequences with prompt tokens (prefill) *)
      store_slice output 0 (Some npt)
        (varlen_masked_self_attention
           (slice query 0 (Some npt)) (slice key 0 (Some npt))
           (slice value 0 (Some npt))
           (cu_seq_lens input_params) (max_seq_len input_params)
           (slice output 0 (Some npt)))
    else output in
  let output :=
    if (npt <? num_tokens)%Z then
      (* process sequences without prompt tokens (decode) *)
      store_slice output npt None
        (single_token_masked_self_attention kv_cache
           (slice query npt None)
           (block_tables input_params) (context_lens input_params)
           (max_context_len input_params)
           (slice output npt None))
    else output in
  (map (wo l) output, kv_cache).

(** [TransformerBlockImpl::forward]. *)
Definition block_forward (l : TransformerBlock) (x : list Row)
    (positions : list Z) (kv_cache : KVCache)
    (input_params : InputParameters) : list Row * KVCache :=
  let '(a, kv_cache) :=
    attention_forward l (map (attention_norm l) x) positions kv_cache
      input_params in
  let h := zip_with add x a in
  (zip_with add h (map (fun r => feed_forward l (ffn_norm l r)) h),
   kv_cache).

(** The loop over [layers_]: layer [i] works on [kv_caches[i]], which
    must exist. *)
Fixpoint layers_forward (layers : list TransformerBlock) (i : nat)
    (h : list Row) (positions : list Z) (kv_caches : list KVCache)
    (input_params : InputParameters)
    : option (list Row * list KVCache) :=
  match layers with
  | [] => Some (h, kv_caches)
  | l :: layers' =>
      kv ← kv_caches !! i;
      let '(h', kv') := block_forward l h positions kv input_params in
      layers_forward layers' (S i) h' positions (<[i := kv']> kv_caches)
        input_params
  end.

Record Model : Type := mkModel {
  tok_embeddings : Z -> Row;
  layers_        : list TransformerBlock;
  norm_          : Row -> Row;
  output_        : Row -> Logits
}.

(** The hidden states after the last layer and the final norm, one row
    per input token. *)
Definition hidden_states (m : Model) (tokens positions : list Z)
    (kv_caches : list KVCache) (input_params : InputParameters)
    : option (list Row * list KVCache) :=
  let h := map (tok_embeddings m) tokens in
  '(h, kv_caches) ← layers_forward (layers_ m) 0 h positions kv_caches
                      input_params;
  Some (map (norm_ m) h, kv_caches).

(** [ModelImpl::forward], for token ids inside the vocabulary, of which
    [tok_embeddings] is the embedding lookup. *)
Definition forward (m : Model) (tokens positions : list Z)
    (kv_caches : list KVCache) (input_params : InputParameters)
    : option (list Logits * list KVCache) :=
  '(h, kv_caches) ← hidden_states m tokens positions kv_caches
                      input_params;
  (* select last token for each sequence *)
  h ← index_select h (last_token_indicies input_params);
  let logits := map (output_ m) h in
  Some (logits, kv_caches).
End Model.

End Llama2.

(* ===================================================================== *)
(** ** models/llama.h: the width of the feed-forward layer *)
(* ===================================================================== *)

Module Llama2FeedForward.

(** [int64_t] arithmetic: a result outside the type is undefined
    behaviour, recorded as [None]. *)
Definition int64 (z : Z) : option Z :=
  if ((- 2 ^ 63 <=? z) && (z <? 2 ^ 63))%Z then Some z else None.

(** [a / b] on [int64_t]: truncation toward zero; undefined for [b = 0]
    and for a quotient outside the type. *)
Definition div64 (a b : Z) : option Z :=
  if (b =? 0)%Z then None else int64 (Z.quot a b).

Section HiddenDim.
(** [float] and its arithmetic are the compiler's. [scale h m] is the
    value [hidden_dim *= m] leaves in the [int64_t] variable: [h]
    converted to [float], multiplied by [m] and converted back, undefined
    when the product is outside [int64_t]. *)
Context {float : Type}.
Variable one : float.
Variable scale : Z -> float -> option Z.

(** The [hidden_dim] computed by the constructor of [FeedForwardImpl]. *)
Definition hidden_dim (dim multiple_of : Z) (ffn_dim_multiplier : option float)
    : option Z :=
  let ffn_dim_multiplier := default one ffn_dim_multiplier in
  hidden_dim ← int64 (4 * dim);
  hidden_dim ← (h2 ← int64 (2 * hidden_dim); div64 h2 3);
  (* custom dim factor multiplier *)
  hidden_dim ← scale hidden_dim ffn_dim_multiplier;
  s ← (s ← int64 (hidden_dim + multiple_of); int64 (s - 1));
  q ← div64 s multiple_of;
  int64 (multiple_of * q).
End HiddenDim.

End Llama2FeedForward.

(* ===================================================================== *)
(** ** models/llama.h: the checkpoint prefixes of [ModelImpl] *)
(* ===================================================================== *)

Module Llama2StateDict.
Local Open Scope list_scope.

(** [std::to_string] of a non-negative [int]: its decimal digits. *)
Definition to_string (i : nat) : string :=
  NilEmpty.string_of_uint (Nat.to_uint i).

(** The prefix [ModelImpl::load_state_dict] selects for layer [i]. *)
Definition layer_prefix (i : nat) : string :=
  ("layers." ++ to_string i ++ ".")%string.

(** The prefixes [ModelImpl::load_state_dict] hands to
    [StateDict::select], in the order of its calls, for a model of
    [n_layers] layers. *)
Definition load_state_dict_prefixes (n_layers : nat) : list string :=
  ["tok_embeddings."]
  ++ (layer_prefix <$> seq 0 n_layers)
  ++ ["norm."; "output."].

(** A string of decimal digits. *)
Fixpoint all_digits (s : string) : bool :=
  match s with
  | EmptyString => true
  | String c s' =>
      ((48 <=? nat_of_ascii c)%nat && (nat_of_ascii c <=? 57)%nat)
      && all_digits s'
  end.

End Llama2StateDict.

(* ===================================================================== *)
(** ** layers/pos_embedding.cpp *)
(* ===================================================================== *)

Module PosEmbedding.
Local Open Scope list_scope.

(** The scalar type of a tensor with its arithmetic, as far as
    [compute_default_inv_freq] uses it. *)
Class FloatOps (F : Type) : Type := {
  of_int : Z -> F;          (* conversion of an integer to the dtype *)
  fone   : F;               (* the literal 1.0 *)
  fdiv   : F -> F -> F;     (* operator/ *)
  fpow   : F -> F -> F      (* torch::pow(base, exponent) *)
}.

(** How a call ends: with its value, or in the [CHECK] that aborts the
    process, or in an exception thrown by a tensor operation. *)
Inductive Outcome (A : Type) : Type :=
| Returned (x : A)
| CheckFailed (msg : string)
| Raised (msg : string).
Arguments Returned {A} x.
Arguments CheckFailed {A} msg.
Arguments Raised {A} msg.

(** [torch::arange(start, end, step)]: the integers
    [start, start + step, ...] below [end] (above, for a negative step);
    a zero step, or bounds on the wrong side of each other, throw. *)
Definition arange (start stop step : Z) : option (list Z) :=
  if (step =? 0)%Z then None
  else if ((0 <? step) && (stop <? start))%Z then None
  else if ((step <? 0) && (start <? stop))%Z then None
  else
    let size := Z.to_nat ((stop - start + step - Z.sgn step) / step) in
    Some ((fun i => (start + Z.of_nat i * step)%Z) <$> seq 0 size).

Section InvFreq.
Context {F : Type} `{FloatOps F}.

(** [compute_default_inv_freq]. *)
Definition compute_default_inv_freq (rotary_dim : Z) (theta : F)
    : Outcome (list F) :=
  if negb (Z.rem rotary_dim 2 =? 0)%Z then
    CheckFailed "rotary_dim must be even"
  else
    match arange 0 rotary_dim 2 with
    | None => Raised "upper bound and larger bound inconsistent with step sign"
    | Some slice =>
        Returned
          ((fun s => fdiv fone (fpow theta (fdiv (of_int s) (of_int rotary_dim))))
             <$> slice)
    end.
End InvFreq.

(** Exact arithmetic: the operations on real numbers, without rounding. *)
#[global] Instance RealOps : FloatOps R := {
  of_int := IZR;
  fone := 1%R;
  fdiv := Rdiv;
  fpow := Rpower
}.

(** The values an entry of a [kFloat32] tensor can hold, as real numbers:
    the finite binary32 numbers [m * 2^e] with [|m| < 2^24] and
    [-149 <= e <= 104], written over the common denominator [2^149]. *)
Definition is_float32 (x : R) : Prop :=
  exists m e : Z,
    (Z.abs m < 2 ^ 24)%Z /\ (-149 <= e <= 104)%Z
    /\ x = (IZR (m * 2 ^ (e + 149)) / IZR (2 ^ 149))%R.

End PosEmbedding.

(* ===================================================================== *)
(** ** layers/pos_embedding.cpp: rotary embedding and frequency scaling *)
(* ===================================================================== *)

Module Rotary.
Import PosEmbedding.
Local Open Scope list_scope.

(** The rest of the scalar arithmetic the file uses. *)
Class RopeOps (F : Type) `{FloatOps F} : Type := {
  fadd : F -> F -> F;       (* operator+ *)
  fsub : F -> F -> F;       (* operator- *)
  fmul : F -> F -> F;       (* operator* *)
  fneg : F -> F;            (* unary minus *)
  fcos : F -> F;
  fsin : F -> F;
  fpi  : F;                 (* M_PI *)
  flt  : F -> F -> bool;    (* operator< *)
  feqb : F -> F -> bool     (* operator== *)
}.

(** *** Tensors of rank 3 and 2: their sizes and their elements. *)
Record Tensor3 (F : Type) : Type := mkTensor3 {
  size0 : nat;
  size1 : nat;
  size2 : nat;
  at3   : nat -> nat -> nat -> F
}.
Arguments mkTensor3 {F} size0 size1 size2 at3.
Arguments size0 {F} t.
Arguments size1 {F} t.
Arguments size2 {F} t.
Arguments at3 {F} t i j k.

Record Tensor2 (F : Type) : Type := mkTensor2 {
  rows : nat;
  cols : nat;
  at2  : nat -> nat -> F
}.
Arguments mkTensor2 {F} rows cols at2.
Arguments rows {F} t.
Arguments cols {F} t.
Arguments at2 {F} t i k.

Section Tensors.
Context {F : Type}.

(** Broadcasting of one dimension: equal sizes, or one of them is 1. *)
Definition broadcast_dim (a b : nat) : option nat :=
  if (a =? b)%nat then Some a
  else if (a =? 1)%nat then Some b
  else if (b =? 1)%nat then Some a
  else None.

Definition bidx (size i : nat) : nat := if (size =? 1)%nat then 0 else i.

(** An elementwise binary operator with broadcasting. *)
Definition binop (f : F -> F -> F) (x y : Tensor3 F) : Outcome (Tensor3 F) :=
  match broadcast_dim (size0 x) (size0 y),
        broadcast_dim (size1 x) (size1 y),
        broadcast_dim (size2 x) (size2 y) with
  | Some a, Some b, Some c =>
      Returned
        (mkTensor3 a b c
           (fun i j k =>
              f (at3 x (bidx (size0 x) i) (bidx (size1 x) j)
                   (bidx (size2 x) k))
                (at3 y (bidx (size0 y) i) (bidx (size1 y) j)
                   (bidx (size2 y) k))))
  | _, _, _ =>
      Raised "The size of tensor a must match the size of tensor b"
  end.

Definition map3 (f : F -> F) (x : Tensor3 F) : Tensor3 F :=
  mkTensor3 (size0 x) (size1 x) (size2 x) (fun i j k => f (at3 x i j k)).

(** [x.index({"...", Slice(start, stop)})]: a slice of the last
    dimension, with the bounds of [Tensor::slice]. *)
Definition slice_last (x : Tensor3 F) (start : Z) (stop : option Z)
    : Tensor3 F :=
  let '(b, e) := Llama2.slice_bounds (Z.of_nat (size2 x)) start stop in
  mkTensor3 (size0 x) (size1 x) (Z.to_nat (e - b))
    (fun i j k => at3 x i j (Z.to_nat b + k)).

(** [x.index({Slice(), Slice(), Slice(start, None, 2)})] for [start] 0
    or 1: every second element of the last dimension. *)
Definition every_second (x : Tensor3 F) (start : nat) : Tensor3 F :=
  mkTensor3 (size0 x) (size1 x) ((size2 x + 1 - start) / 2)
    (fun i j k => at3 x i j (start + 2 * k)).

(** [torch::stack({a, b}, -1).flatten(-2)]: the elements of [a] and [b]
    in turn; [stack] wants equal sizes. *)
Definition stack_flatten (a b : Tensor3 F) : Outcome (Tensor3 F) :=
  if ((size0 a =? size0 b) && (size1 a =? size1 b)
      && (size2 a =? size2 b))%nat
  then
    Returned
      (mkTensor3 (size0 a) (size1 a) (2 * size2 a)
         (fun i j k =>
            if Nat.even k then at3 a i j (k / 2) else at3 b i j (k / 2)))
  else Raised "stack expects each tensor to be equal size".

(** [torch::cat({a, b}, -1)]: the other dimensions must agree. *)
Definition cat_last (a b : Tensor3 F) : Outcome (Tensor3 F) :=
  if ((size0 a =? size0 b) && (size1 a =? size1 b))%nat
  then
    Returned
      (mkTensor3 (size0 a) (size1 a) (size2 a + size2 b)
         (fun i j k =>
            if (k <? size2 a)%nat then at3 a i j k
            else at3 b i j (k - size2 a)))
  else Raised "Sizes of tensors must match except in dimension 2".

(** [x.chunk(2, -1)]: pieces of [ceil(n / 2)] elements; one piece when
    [n = 1], two empty pieces when [n = 0]. *)
Definition chunk2 (x : Tensor3 F) : list (Tensor3 F) :=
  let n := size2 x in
  let split_size := (n + 1) / 2 in
  if (n =? 0)%nat then [x; x]
  else if (n =? 1)%nat then [x]
  else
    [mkTensor3 (size0 x) (size1 x) split_size (at3 x);
     mkTensor3 (size0 x) (size1 x) (n - split_size)
       (fun i j k => at3 x i j (split_size + k))].

(** [chunks[i]] on the vector [chunk] returned; an index past its end is
    undefined behaviour, recorded as a raise. *)
Definition chunk_at (chunks : list (Tensor3 F)) (i : nat)
    : Outcome (Tensor3 F) :=
  match chunks !! i with
  | Some c => Returned c
  | None => Raised "vector index out of range"
  end.

(** [F::embedding(positions, weight).unsqueeze(1)]: one row of [weight]
    per position, with a dimension of size 1 for the heads. *)
Definition embedding_unsqueeze (positions : list Z) (weight : Tensor2 F)
    : Outcome (Tensor3 F) :=
  if forallb (fun p => (0 <=? p)%Z && (p <? Z.of_nat (rows weight))%Z)
       positions
  then
    Returned
      (mkTensor3 (length positions) 1 (cols weight)
         (fun i _ k => at2 weight (Z.to_nat (nth i positions 0%Z)) k))
  else Raised "index out of range in self".
End Tensors.

(** Sequencing of calls that can fail. *)
Definition bind {A B : Type} (m : Outcome A) (f : A -> Outcome B)
    : Outcome B :=
  match m with
  | Returned x => f x
  | CheckFailed msg => CheckFailed msg
  | Raised msg => Raised msg
  end.

Section Rope.
Context {F : Type} `{RopeOps F}.

(** [[1, 2, 3, 4] => [-2, 1, -4, 3]] *)
Definition rotate_every_two (x : Tensor3 F) : Outcome (Tensor3 F) :=
  let x1 := every_second x 0 in
  let x2 := every_second x 1 in
  stack_flatten (map3 fneg x2) x1.

(** apply interleaved rotary positional embedding *)
Definition apply_interleaved_rotary_pos_emb (q k cos sin : Tensor3 F)
    : Outcome (Tensor3 F * Tensor3 F) :=
  bind (bind (binop fmul q cos) (fun qc =>
        bind (bind (rotate_every_two q) (fun r => binop fmul r sin))
          (fun rs => binop fadd qc rs))) (fun q_embed =>
  bind (bind (binop fmul k cos) (fun kc =>
        bind (bind (rotate_every_two k) (fun r => binop fmul r sin))
          (fun rs => binop fadd kc rs))) (fun k_embed =>
  Returned (q_embed, k_embed))).

(** [[1, 2, 3, 4] => [-3, -4, 1, 2]] *)
Definition rotate_half (x : Tensor3 F) : Outcome (Tensor3 F) :=
  let chunks := chunk2 x in
  bind (chunk_at chunks 1) (fun c1 =>
  bind (chunk_at chunks 0) (fun c0 =>
  cat_last (map3 fneg c1) c0)).

(** apply rotary positional embedding *)
Definition apply_rotated_rotary_pos_emb (q k cos sin : Tensor3 F)
    : Outcome (Tensor3 F * Tensor3 F) :=
  bind (bind (binop fmul q cos) (fun qc =>
        bind (bind (rotate_half q) (fun r => binop fmul r sin))
          (fun rs => binop fadd qc rs))) (fun q_embed =>
  bind (bind (binop fmul k cos) (fun kc =>
        bind (bind (rotate_half k) (fun r => binop fmul r sin))
          (fun rs => binop fadd kc rs))) (fun k_embed =>
  Returned (q_embed, k_embed))).

(** [detail::apply_rotary_pos_emb]. *)
Definition apply_rotary_pos_emb (q k cos_sin : Tensor3 F)
    (interleaved : bool) : Outcome (Tensor3 F * Tensor3 F) :=
  let chunks := chunk2 cos_sin in
  bind (chunk_at chunks 0) (fun cos =>
  bind (chunk_at chunks 1) (fun sin =>
  if interleaved then apply_interleaved_rotary_pos_emb q k cos sin
  else apply_rotated_rotary_pos_emb q k cos sin)).

(** [detail::apply_llama3_rope_scaling]: the loop over the frequencies,
    with the new frequencies pushed so far. *)
Fixpoint llama3_loop (factor low_freq_factor high_freq_factor : F)
    (old_context_len : Z) (low_freq_wavelen high_freq_wavelen : F)
    (inv_freq new_inv_freq : list F) : Outcome (list F) :=
  match inv_freq with
  | [] => Returned new_inv_freq
  | freq :: rest =>
      let wavelen := fdiv (fmul (of_int 2) fpi) freq in
      let continue new_freq :=
        llama3_loop factor low_freq_factor high_freq_factor old_context_len
          low_freq_wavelen high_freq_wavelen rest
          (new_inv_freq ++ [new_freq]) in
      if flt wavelen high_freq_wavelen then
        (* do nothing *)
        continue freq
      else if flt low_freq_wavelen wavelen then
        continue (fdiv freq factor)
      else if feqb low_freq_wavelen high_freq_wavelen then
        CheckFailed "Check failed: low_freq_wavelen != high_freq_wavelen"
      else
        let smooth :=
          fdiv (fsub (fdiv (of_int old_context_len) wavelen) low_freq_factor)
               (fsub high_freq_factor low_freq_factor) in
        continue (fadd (fdiv (fmul (fsub fone smooth) freq) factor)
                       (fmul smooth freq))
  end.

Definition apply_llama3_rope_scaling (inv_freq : list F)
    (factor low_freq_factor high_freq_factor : F) (old_context_len : Z)
    : Outcome (list F) :=
  let low_freq_wavelen := fdiv (of_int old_context_len) low_freq_factor in
  let high_freq_wavelen := fdiv (of_int old_context_len) high_freq_factor in
  llama3_loop factor low_freq_factor high_freq_factor old_context_len
    low_freq_wavelen high_freq_wavelen inv_freq [].

(** *** [RotaryEmbeddingGeneric] *)
Record RotaryEmbeddingGeneric : Type := mkRotaryEmbeddingGeneric {
  rotary_dim_    : Z;
  interleaved_   : bool;
  cos_sin_cache_ : Tensor2 F
}.

(** The constructor; [inv_freq] is a tensor of rank 1.  The final
    conversion of the cache to the module's dtype is the identity in the
    arithmetic of [F]. *)
Definition RotaryEmbeddingGeneric_new (rotary_dim : Z)
    (max_position_embeddings : Z) (inv_freq : list F) (interleaved : bool)
    : Outcome RotaryEmbeddingGeneric :=
  match arange 0 max_position_embeddings 1 with
  | None =>
      Raised "upper bound and larger bound inconsistent with step sign"
  | Some t =>
      let n := length inv_freq in
      (* [max_position_embeddings, rotary_dim/2] *)
      let freqs i j :=
        fmul (of_int (nth i t 0%Z)) (nth j inv_freq (of_int 0)) in
      let emd i k :=
        if interleaved then
          (* [a, b, c, d] => [a, a, b, b, c, c, d, d] *)
          freqs i (k / 2)
        else
          (* [a, b, c, d] => [a, b, c, d, a, b, c, d] *)
          (if (k <? n)%nat then freqs i k else freqs i (k - n)) in
      let cos_sin :=
        mkTensor2 (length t) (2 * n + 2 * n)
          (fun i k =>
             if (k <? 2 * n)%nat then fcos (emd i k)
             else fsin (emd i (k - 2 * n))) in
      Returned (mkRotaryEmbeddingGeneric rotary_dim interleaved cos_sin)
  end.

(** [RotaryEmbeddingGeneric::forward]; [dchecks] tells whether the
    build keeps [DCHECK]s. *)
Definition RotaryEmbeddingGeneric_forward (dchecks : bool)
    (self : RotaryEmbeddingGeneric) (query key : Tensor3 F)
    (positions : list Z) : Outcome (Tensor3 F * Tensor3 F) :=
  if dchecks && (Z.of_nat (size2 query) <? rotary_dim_ self)%Z then
    CheckFailed "Check failed: query.size(-1) >= rotary_dim_"
  else
    let query_rotary := slice_last query 0 (Some (rotary_dim_ self)) in
    let query_pass := slice_last query (rotary_dim_ self) None in
    let key_rotary := slice_last key 0 (Some (rotary_dim_ self)) in
    let key_pass := slice_last key (rotary_dim_ self) None in
    bind (embedding_unsqueeze positions (cos_sin_cache_ self)) (fun cos_sin =>
    bind (apply_rotary_pos_emb query_rotary key_rotary cos_sin
            (interleaved_ self)) (fun '(query_rotary, key_rotary) =>
    bind (cat_last query_rotary query_pass) (fun q =>
    bind (cat_last key_rotary key_pass) (fun k =>
    Returned (q, k))))).
End Rope.

(** Exact arithmetic on the real numbers. *)
#[global] Instance RealRopeOps : RopeOps R := {
  fadd := Rplus;
  fsub := Rminus;
  fmul := Rmult;
  fneg := Ropp;
  fcos := cos;
  fsin := sin;
  fpi := PI;
  flt := fun a b => if Rlt_dec a b then true else false;
  feqb := fun a b => if Req_dec_T a b then true else false
}.

(** *** Reading the frequency scaling, in exact arithmetic. *)

(** What the loop of [apply_llama3_rope_scaling] makes of one frequency
    when it does not stop. *)
Definition llama3_new_freq (factor low_freq_factor high_freq_factor : R)
    (old_context_len : Z) (freq : R) : R :=
  let low_freq_wavelen := (IZR old_context_len / low_freq_factor)%R in
  let high_freq_wavelen := (IZR old_context_len / high_freq_factor)%R in
  let wavelen := (2 * PI / freq)%R in
  if flt wavelen high_freq_wavelen then freq
  else if flt low_freq_wavelen wavelen then (freq / factor)%R
  else
    let smooth :=
      ((IZR old_context_len / wavelen - low_freq_factor)
       / (high_freq_factor - low_freq_factor))%R in
    ((1 - smooth) * freq / factor + smooth * freq)%R.

(** The frequencies at which the loop stops in its [CHECK_NE]. *)
Definition llama3_stops_at (low_freq_factor high_freq_factor : R)
    (old_context_len : Z) (freq : R) : Prop :=
  (2 * PI / freq = IZR old_context_len / low_freq_factor
   /\ IZR old_context_len / low_freq_factor
      = IZR old_context_len / high_freq_factor)%R.

(** *** Reading a result. *)

Definition same_shape {F : Type} (x y : Tensor3 F) : Prop :=
  size0 x = size0 y /\ size1 x = size1 y /\ size2 x = size2 y.

(** A call of [forward] on a module built for [n] frequencies: the
    rotary dimension is twice the number of frequencies and fits into
    the heads, there is one position per token, and every position has
    a row in the cache. *)
Definition well_shaped_call {F : Type} (n : nat)
    (rotary_dim max_position_embeddings : Z) (query key : Tensor3 F)
    (positions : list Z) : Prop :=
  rotary_dim = Z.of_nat (2 * n)
  /\ 2 * n <= size2 query /\ 2 * n <= size2 key
  /\ length positions = size0 query /\ size0 key = size0 query
  /\ Forall (fun p => (0 <= p < max_position_embeddings)%Z) positions.

(** Element [k] of a row of [n] pairs after the rotation by the angles
    [angle 0 .. angle (n - 1)]: the pairs are neighbours in the
    interleaved layout and [n] apart in the other; what lies beyond the
    pairs is kept. *)
Definition rope_elem {F : Type} `{RopeOps F} (interleaved : bool) (n : nat)
    (angle : nat -> F) (row : nat -> F) (k : nat) : F :=
  if (k <? 2 * n)%nat then
    if interleaved then
      fadd (fmul (row k) (fcos (angle (k / 2))))
           (fmul (if Nat.even k then fneg (row (k + 1)) else row (k - 1))
                 (fsin (angle (k / 2))))
    else
      fadd (fmul (row k) (fcos (angle (if (k <? n)%nat then k else k - n))))
           (fmul (if (k <? n)%nat then fneg (row (k + n)) else row (k - n))
                 (fsin (angle (if (k <? n)%nat then k else k - n))))
  else row k.

(** The sum of [f 0 .. f (n - 1)]. *)
Fixpoint sum_to (n : nat) (f : nat -> R) : R :=
  match n with
  | O => 0%R
  | S n' => (sum_to n' f + f n')%R
  end.

(** The dot product of row [(i, j)] of [x] with row [(i', j')] of [y],
    over the last dimension of [x]. *)
Definition dot (x y : Tensor3 R) (i j i' j' : nat) : R :=
  sum_to (size2 x) (fun k => (at3 x i j k * at3 y i' j' k)%R).

(** A tensor given by its rows, for examples. *)
Definition of_rows {F : Type} (d : F) (n : nat) (x : list (list (list F)))
    : Tensor3 F :=
  mkTensor3 (length x) (length (nth 0 x [])) n
    (fun i j k => nth k (nth j (nth i x []) []) d).

End Rotary.

(* ===================================================================== *)
(** ** layers/attention/handler.cpp *)
(* ===================================================================== *)

Module AttentionHandler.

(** The three implementations behind [AttentionHandler]. *)
Inductive HandlerKind : Type :=
| RefHandler
| FlashAttnHandler
| FlashInferHandler.

#[global] Instance HandlerKind_eq_dec : EqDecision HandlerKind.
Proof. solve_decision. Defined.

(** How a factory call ends: with the handler, in a failed [CHECK], or in
    the undefined [int64_t] division [hidden_size() / n_heads()]: a
    division by zero, or of the least [int64_t] by [-1]. *)
Inductive Result (A : Type) : Type :=
| Created (h : A)
| CheckFailed (msg : string)
| UndefinedDivision.
Arguments Created {A} h.
Arguments CheckFailed {A} msg.
Arguments UndefinedDivision {A}.

Section Factory.
(** The scalar type, tensors, the rope-scaling record and the device are
    declared outside the translated sources. [inv_sqrt d] is
    [1.0f / std::sqrt(static_cast<float>(d))] and [times_pct d pct] is
    [static_cast<int64_t>(d * pct)]. *)
Context {float Tensor RopeScaling ScalarType Device : Type}.
Variable is_cuda : Device -> bool.
Variable inv_sqrt : Z -> float.
Variable times_pct : Z -> float -> Z.

(** The fields of [ModelArgs] the factory reads; the integer ones are
    [int64_t]. *)
Record ModelArgs : Type := mkModelArgs {
  hidden_size             : Z;
  n_heads                 : Z;
  rotary_dim              : Z;
  rotary_pct              : float;
  max_position_embeddings : Z;
  rope_scaling            : RopeScaling;
  rope_theta              : float
}.

(** What a handler was constructed from. *)
Inductive Positional : Type :=
| Alibi (alibi_slopes : option Tensor)
| Rope (rotary_dim : Z) (max_position_embeddings : Z)
       (rope_scaling : RopeScaling) (rope_theta : float)
       (interleaved : bool) (dtype : ScalarType) (device : Device).

Record Handler : Type := mkHandler {
  kind       : HandlerKind;
  scale      : float;
  positional : Positional
}.

(** [AttentionHandler::create_handler_with_alibi]; [flag] is
    [FLAGS_attention_handler]. *)
Definition create_handler_with_alibi (flag : string) (args : ModelArgs)
    (device : Device) (alibi_slopes : option Tensor) : Result Handler :=
  match Llama2FeedForward.div64 (hidden_size args) (n_heads args) with
  | None => UndefinedDivision
  | Some head_dim =>
    let scale := inv_sqrt head_dim in
    (* check if the user specified the attention handler *)
    if CausalLM.iequals flag "pytorch" then
      Created (mkHandler RefHandler scale (Alibi alibi_slopes))
    else if CausalLM.iequals flag "flash_attn" then
      if is_cuda device then
        Created (mkHandler FlashAttnHandler scale (Alibi alibi_slopes))
      else CheckFailed "flash_attn only supports cuda device"
    else if CausalLM.iequals flag "flash_infer" then
      if is_cuda device then
        Created (mkHandler FlashInferHandler scale (Alibi alibi_slopes))
      else CheckFailed "flash_infer only supports cuda device"
    (* choose the best handler based on device type *)
    else if is_cuda device then
      (* use flash_attn for cuda device *)
      Created (mkHandler FlashAttnHandler scale (Alibi alibi_slopes))
    else
      (* use slower ref handler for other devices for now. *)
      Created (mkHandler RefHandler scale (Alibi alibi_slopes))
  end.

(** [AttentionHandler::create_handler_with_rope]. *)
Definition create_handler_with_rope (flag : string) (args : ModelArgs)
    (interleaved : bool) (dtype : ScalarType) (device : Device)
    : Result Handler :=
  match Llama2FeedForward.div64 (hidden_size args) (n_heads args) with
  | None => UndefinedDivision
  | Some head_dim =>
    (* default to use head_dim if rotary_dim is not specified *)
    let rotary_dim :=
      if (0 <? rotary_dim args)%Z then rotary_dim args else head_dim in
    (* apply rotary_dim percentage *)
    let rotary_dim := times_pct rotary_dim (rotary_pct args) in
    let scale := inv_sqrt head_dim in
    let rope :=
      Rope rotary_dim (max_position_embeddings args) (rope_scaling args)
        (rope_theta args) interleaved dtype device in
    (* check if the user specified the attention handler *)
    if CausalLM.iequals flag "pytorch" then
      Created (mkHandler RefHandler scale rope)
    else if CausalLM.iequals flag "flash_attn" then
      if is_cuda device then Created (mkHandler FlashAttnHandler scale rope)
      else CheckFailed "flash_attn only supports cuda device"
    else if CausalLM.iequals flag "flash_infer" then
      if is_cuda device then Created (mkHandler FlashInferHandler scale rope)
      else CheckFailed "flash_infer only supports cuda device"
    (* choose the best handler based on device type *)
    else if is_cuda device then
      (* use flash_attn for cuda device *)
      Created (mkHandler FlashAttnHandler scale rope)
    else
      (* use slower ref handler for other devices for now. *)
      Created (mkHandler RefHandler scale rope)
  end.

(** The implementation a call produced, if it produced one. *)
Definition created_kind (r : Result Handler) : option HandlerKind :=
  match r with Created h => Some (kind h) | _ => None end.

Definition created_scale (r : Result Handler) : option float :=
  match r with Created h => Some (scale h) | _ => None end.

(** The flag names one of the flash implementations, in any letter case. *)
Definition names_flash (flag : string) : bool :=
  CausalLM.iequals flag "flash_attn" || CausalLM.iequals flag "flash_infer".

(** [hidden_size() / n_heads()] is defined: the divisor is not zero and
    the quotient is an [int64_t]. *)
Definition head_dim_defined (args : ModelArgs) : Prop :=
  is_Some (Llama2FeedForward.div64 (hidden_size args) (n_heads args)).
End Factory.

End AttentionHandler.

Module AttentionHandlerExamples.
Import AttentionHandler.

(** A 4096-wide model with 32 heads; the device is its [is_cuda] bit and
    the scalar functions are left symbolic. *)
Definition args : @ModelArgs unit unit := mkModelArgs 4096 32 0 tt 2048 tt tt.

Definition with_alibi (flag : string) (cuda : bool) : Result Handler :=
  @create_handler_with_alibi unit unit unit unit bool (fun d => d)
    (fun _ => tt) flag args cuda None.

Definition with_rope (flag : string) (cuda : bool) : Result Handler :=
  @create_handler_with_rope unit unit unit unit bool (fun d => d)
    (fun _ => tt) (fun d _ => d) flag args false tt cuda.

End AttentionHandlerExamples.

(* ===================================================================== *)
(** ** server/main.cpp: the devices and the default dtype *)
(* ===================================================================== *)

Module ServerMain.
Import PosEmbedding.
Local Open Scope list_scope.

(** [absl::StrSplit(text, delimiter)] with a character delimiter: the
    pieces between the delimiters, empty pieces included; [piece] is the
    piece read so far. *)
Fixpoint str_split_from (delimiter : ascii) (text : string) (piece : string)
    : list string :=
  match text with
  | EmptyString => [piece]
  | String c text' =>
      if Ascii.eqb c delimiter
      then piece :: str_split_from delimiter text' EmptyString
      else str_split_from delimiter text'
             (String.append piece (String c EmptyString))
  end.

Definition str_split (text : string) (delimiter : ascii) : list string :=
  str_split_from delimiter text EmptyString.

Inductive ScalarType : Type := kFloat | kHalf.

Section Devices.
(** [torch::Device]: its constructor from a string, which throws on a
    string it cannot read, and its type; [cpu] is [DeviceType::CPU]. *)
Context {Device DeviceType : Type} `{EqDecision DeviceType}.
Variable parse_device : string -> option Device.
Variable device_type : Device -> DeviceType.
Variable cpu : DeviceType.

Definition is_cpu (d : Device) : bool := bool_decide (device_type d = cpu).

(** The part of [main] between the start of the http server and the
    model path: from [FLAGS_device] to the devices and the dtype the
    engine is created with. *)
Definition main_devices (FLAGS_device : string)
    : Outcome (list Device * ScalarType) :=
  (* split device into chunks *)
  let device_strs := str_split FLAGS_device "," in
  match mapM parse_device device_strs with
  | None => Raised "torch::Device: invalid device string"
  | Some devices =>
      let device_types := remove_dups (device_type <$> devices) in
      match devices with
      | [] => CheckFailed "No devices specified."
      | first :: _ =>
          if negb (length device_types =? 1)%nat then
            CheckFailed "All devices must be of the same type."
          else
            (* set the default dtype *)
            Returned (devices, if is_cpu first then kFloat else kHalf)
      end
  end.
End Devices.

(** The number of delimiters in a text. *)
Fixpoint count_char (delimiter : ascii) (text : string) : nat :=
  match text with
  | EmptyString => 0
  | String c text' =>
      (if Ascii.eqb c delimiter then 1 else 0) + count_char delimiter text'
  end.

End ServerMain.

Module ServerMainExamples.
Import ServerMain.

(** Devices as their strings; a device is a CPU device when its string
    starts with [c]. *)
Definition parse (s : string) : option string :=
  if String.eqb s "" then None else Some s.

Definition type_of (d : string) : bool := String.prefix "cpu" d.

Definition devices (flag : string)
    : PosEmbedding.Outcome (list string * ScalarType) :=
  main_devices parse type_of true flag.
End ServerMainExamples.

(* ===================================================================== *)
(** ** The serving core: block allocator, sequences, batch builder

    The scheduler, the batch builder, the block allocator and the sequence
    and request classes are not among the translated sources; this module
    follows the design document section by section. *)
(* ===================================================================== *)

Module Core.
Local Open Scope list_scope.

(** Modelled from the spec: the error kinds of section 7. *)
Inductive CoreError : Type :=
| InvalidRequest | OutOfBlocks | EngineError | Cancelled | InternalError.

#[global] Instance CoreError_eq_dec : EqDecision CoreError.
Proof. solve_decision. Defined.

(** *** Block allocator (section 4.1) *)

(** Modelled from the spec: the allocator's pool.  Block ids are dense in
    [[0, N)], [ref_count] is indexed by id, and [free_list] is a stack
    whose head is the most recently freed block. *)
Record BlockAllocator : Type := mkAllocator {
  ref_count : list nat;
  free_list : list nat
}.

(** Modelled from the spec: a fresh pool of [N] free blocks. *)
Definition new_allocator (N : nat) : BlockAllocator :=
  mkAllocator (replicate N 0) (seq 0 N).

(** Modelled from the spec: [num_free()] and [num_total()]. *)
Definition num_free (a : BlockAllocator) : nat := length (free_list a).
Definition num_total (a : BlockAllocator) : nat := length (ref_count a).

(** Raising the reference count of every block in [ids] by one. *)
Definition retain (ids : list nat) (rc : list nat) : list nat :=
  foldr (fun id rc => alter S id rc) rc ids.

(** Modelled from the spec: [allocate(count)] returns [count] ids taken
    from the head of the free list, or fails with [OutOfBlocks] if fewer
    are free. *)
Definition allocate (count : nat) (a : BlockAllocator)
    : (CoreError + list nat) * BlockAllocator :=
  if decide (count <= num_free a) then
    let ids := take count (free_list a) in
    (inr ids, mkAllocator (retain ids (ref_count a))
                          (drop count (free_list a)))
  else (inl OutOfBlocks, a).

(** Modelled from the spec: [fork(src_blocks)] shares every block of
    [src_blocks] by incrementing each [ref_count]. *)
Definition fork (src_blocks : list nat) (a : BlockAllocator)
    : list nat * BlockAllocator :=
  (src_blocks, mkAllocator (retain src_blocks (ref_count a)) (free_list a)).

(** Modelled from the spec: [release(blocks)] decrements each
    [ref_count]; a block that reaches zero goes back on the free list. *)
Definition release_one (a : BlockAllocator) (id : nat) : BlockAllocator :=
  match ref_count a !! id with
  | Some (S k) =>
      mkAllocator (<[id := k]> (ref_count a))
                  (if decide (k = 0) then id :: free_list a
                   else free_list a)
  | _ => a
  end.

Definition release (blocks : list nat) (a : BlockAllocator)
    : BlockAllocator :=
  foldl release_one a blocks.

(** Modelled from the spec: the allocator invariant of section 3, "a
    Block is free iff its ref_count is 0; the set of free Blocks is
    exactly the allocator's free list". *)
Definition allocator_wf (a : BlockAllocator) : Prop :=
  NoDup (free_list a)
  /\ forall id, id ∈ free_list a <-> ref_count a !! id = Some 0.

(** *** Sequence (section 4.2) and Request (section 4.3) *)

Inductive Priority : Type := Low | Normal | High.

Inductive FinishReason : Type :=
| FinishCancelled | FinishError | FinishStop | FinishLength.

Inductive RequestStatus : Type :=
| Pending | Running | Preempted | Finished | RequestCancelled.

(** Modelled from the spec: what a Sequence knows of its Request, for
    ordering and preemption. *)
Record RequestHandle : Type := mkRequestHandle {
  request_id   : nat;
  priority     : Priority;
  arrival_time : nat
}.

(** Modelled from the spec: the Sequence of section 3, with the
    attributes the scheduler and the batch builder read.  The sampling
    configuration and the stop-string window are carried by the sampling
    pipeline and are left out. *)
Record Sequence : Type := mkSequence {
  owner              : RequestHandle;
  index              : nat;
  tokens             : list Z;
  num_prompt_tokens  : nat;
  block_table        : list nat;
  finish_reason      : option FinishReason;
  cumulative_logprob : Q
}.

Definition set_tokens (s : Sequence) (ts : list Z) (lp : Q) : Sequence :=
  mkSequence (owner s) (index s) ts (num_prompt_tokens s) (block_table s)
    (finish_reason s) lp.

Definition set_block_table (s : Sequence) (bt : list nat) : Sequence :=
  mkSequence (owner s) (index s) (tokens s) (num_prompt_tokens s) bt
    (finish_reason s) (cumulative_logprob s).

Definition set_finish_reason (s : Sequence) (r : FinishReason) : Sequence :=
  mkSequence (owner s) (index s) (tokens s) (num_prompt_tokens s)
    (block_table s) (Some r) (cumulative_logprob s).

(** Modelled from the spec: [is_finished()]. *)
Definition is_finished (s : Sequence) : bool :=
  match finish_reason s with Some _ => true | None => false end.

(** Modelled from the spec: [append_token(id, logprob)]; a terminal
    Sequence takes no further tokens. *)
Definition append_token (id : Z) (logprob : Q) (s : Sequence) : Sequence :=
  if is_finished s then s
  else set_tokens s (tokens s ++ [id]) (cumulative_logprob s + logprob)%Q.

Definition ceil_div (a b : nat) : nat := (a + b - 1) / b.

(** Modelled from the spec: [num_blocks_needed(block_size)] =
    [ceil((tokens.len + 1) / block_size) - block_table.len], the blocks
    required to accept one more token. *)
Definition num_blocks_needed (block_size : nat) (s : Sequence) : nat :=
  ceil_div (length (tokens s) + 1) block_size - length (block_table s).

(** Modelled from the spec: the capacity invariant of section 3,
    [block_table.len * block_size >= tokens.len]. *)
Definition capacity_ok (block_size : nat) (s : Sequence) : Prop :=
  length (tokens s) <= length (block_table s) * block_size.

(** Room for the token a decode step is about to append. *)
Definition room_for_one (block_size : nat) (s : Sequence) : Prop :=
  length (tokens s) + 1 <= length (block_table s) * block_size.

(** Modelled from the spec: a Sequence as it is created when its Request
    is accepted: the prompt, no generated token, and no block yet
    ("they acquire Blocks lazily as tokens accumulate"). *)
Definition new_sequence (h : RequestHandle) (idx : nat) (prompt : list Z)
    : Sequence :=
  mkSequence h idx prompt (length prompt) [] None 0%Q.

(** Modelled from the spec: "they release all Blocks when they finish or
    are cancelled"; the released ids leave the block table, as every id in
    it must have a positive ref_count. *)
Definition release_blocks (s : Sequence) (a : BlockAllocator)
    : Sequence * BlockAllocator :=
  (set_block_table s [], release (block_table s) a).

(** Modelled from the spec: eviction in recompute mode, "drop blocks and
    tokens past prompt". *)
Definition recompute (s : Sequence) (a : BlockAllocator)
    : Sequence * BlockAllocator :=
  let '(s', a') := release_blocks s a in
  (set_tokens s' (take (num_prompt_tokens s') (tokens s'))
     (cumulative_logprob s'), a').

(** Modelled from the spec: giving a Sequence the blocks that were
    reserved for it. *)
Definition append_blocks (s : Sequence) (ids : list nat) : Sequence :=
  set_block_table s (block_table s ++ ids).

(** *** Best-of selection (section 4.3) *)

Definition tokens_generated (s : Sequence) : nat :=
  length (tokens s) - num_prompt_tokens s.

(** Modelled from the spec: the ranking key,
    [cumulative_logprob / tokens_generated]. *)
Definition normalized_logprob (s : Sequence) : Q :=
  (cumulative_logprob s / inject_Z (Z.of_nat (tokens_generated s)))%Q.

(** [ranks_before s1 s2]: [s1] is at least as good as [s2]. *)
Definition ranks_before (s1 s2 : Sequence) : Prop :=
  (normalized_logprob s2 <= normalized_logprob s1)%Q.

#[global] Instance ranks_before_dec : RelDecision ranks_before.
Proof.
  intros s1 s2. unfold ranks_before.
  destruct (Qle_bool (normalized_logprob s2) (normalized_logprob s1)) eqn:E.
  - left. now apply Qle_bool_iff.
  - right. intros H. apply Qle_bool_iff in H. congruence.
Defined.

(** Modelled from the spec: the Request of section 3, with the attributes
    the selection reads. *)
Record Request : Type := mkRequest {
  handle    : RequestHandle;
  stream    : bool;
  n         : nat;
  best_of   : nat;
  sequences : list Sequence
}.

(** Modelled from the spec: "a Request is finished iff every Sequence has
    a finish_reason". *)
Definition request_finished (r : Request) : bool :=
  forallb is_finished (sequences r).

(** Modelled from the spec: "on completion selects the top-n by
    cumulative_logprob / tokens_generated and discards the rest". *)
Definition select_top_n (r : Request) : list Sequence :=
  take (n r) (merge_sort ranks_before (sequences r)).

(** Modelled from the spec: the final event of a non-streaming Request
    carries the chosen Sequences; nothing is delivered before every
    sibling has finished. *)
Definition final_output (r : Request) : option (list Sequence) :=
  if request_finished r then
    Some (if decide (n r < best_of r) then select_top_n r else sequences r)
  else None.

(** *** Preemption (section 4.6) *)

Definition priority_rank (p : Priority) : nat :=
  match p with Low => 0 | Normal => 1 | High => 2 end.

(** Modelled from the spec: the eviction order, "lowest-priority, then
    youngest-arrival". *)
Definition evicted_before (x y : RequestHandle) : bool :=
  ((priority_rank (priority x) <? priority_rank (priority y))
   || ((priority_rank (priority x) =? priority_rank (priority y))
       && (arrival_time y <? arrival_time x)))%nat.

Definition pick_victim (running : list Sequence) : option RequestHandle :=
  foldr (fun s best =>
           match best with
           | Some v => if evicted_before (owner s) v then Some (owner s)
                       else Some v
           | None => Some (owner s)
           end) None running.

(** The victim's "whole Request, so siblings progress together". *)
Definition of_request (v : RequestHandle) (s : Sequence) : Prop :=
  request_id (owner s) = request_id v.

#[global] Instance of_request_dec v s : Decision (of_request v s).
Proof. unfold of_request. apply _. Defined.

Fixpoint recompute_all (victims : list Sequence) (a : BlockAllocator)
    : list Sequence * BlockAllocator :=
  match victims with
  | [] => ([], a)
  | s :: rest =>
      let '(s', a1) := recompute s a in
      let '(rest', a2) := recompute_all rest a1 in
      (s' :: rest', a2)
  end.

(** *** Batch builder (section 4.5) *)

(** What the decode pass leaves behind: the Sequences selected to decode
    (blocks reserved), the running Sequences it did not select, and the
    Sequences it preempted, which re-enter [waiting]. *)
Record DecodeOutcome : Type := mkDecodeOutcome {
  decoding : list Sequence;
  idle     : list Sequence;
  requeued : list Sequence
}.

(** Modelled from the spec: the decode pass.  [todo] is what is left of
    [running] in FIFO order.  For its head, the blocks needed are reserved
    via the allocator; when the allocator answers [OutOfBlocks], the
    preempt-one hook evicts the victim's Request in recompute mode, and
    the pass retries if that freed blocks and stops accepting decodes
    otherwise.  [fuel] bounds the number of iterations; [None] means it
    ran out. *)
Fixpoint decode_pass_fuel (fuel : nat) (block_size : nat)
    (todo selected waiting : list Sequence) (a : BlockAllocator)
    : option ((CoreError + DecodeOutcome) * BlockAllocator) :=
  match fuel with
  | O => None
  | S fuel =>
      match todo with
      | [] => Some (inr (mkDecodeOutcome selected [] waiting), a)
      | s :: todo' =>
          match allocate (num_blocks_needed block_size s) a with
          | (inr ids, a1) =>
              decode_pass_fuel fuel block_size todo'
                (selected ++ [append_blocks s ids]) waiting a1
          | (inl OutOfBlocks, a1) =>
              match pick_victim (selected ++ todo) with
              | Some v =>
                  let '(gone, a2) :=
                    recompute_all (filter (of_request v) (selected ++ todo))
                      a1 in
                  let selected' :=
                    filter (fun x => ~ of_request v x) selected in
                  let todo'' := filter (fun x => ~ of_request v x) todo in
                  if decide (num_free a1 < num_free a2) then
                    decode_pass_fuel fuel block_size todo'' selected'
                      (waiting ++ gone) a2
                  else
                    Some (inr (mkDecodeOutcome selected' todo''
                                 (waiting ++ gone)), a2)
              | None =>
                  Some (inr (mkDecodeOutcome selected todo waiting), a1)
              end
          | (inl e, a1) => Some (inl e, a1)
          end
      end
  end.

(** Every iteration either selects the head of [todo] or evicts at least
    one Sequence, so this much fuel is never used up. *)
Definition decode_fuel (running : list Sequence) : nat :=
  2 * length running + 1.

Definition decode_pass (block_size : nat) (running : list Sequence)
    (a : BlockAllocator)
    : option ((CoreError + DecodeOutcome) * BlockAllocator) :=
  decode_pass_fuel (decode_fuel running) block_size running [] [] a.

(** Blocks that hold [len] tokens. *)
Definition blocks_for (block_size len : nat) : nat := ceil_div len block_size.

(** Modelled from the spec: the prefill pass over the waiting queue.  A
    prompt is accepted if it "fits both the token budget and the block
    budget (all blocks allocated up front)"; the first one that does not
    fit ends the pass ("skip and break").  The result is the accepted
    Sequences and the ones left waiting.  The skip counters that the
    Scheduler keeps for priority escalation are not part of the pass. *)
Fixpoint prefill_pass (block_size budget : nat) (queue : list Sequence)
    (a : BlockAllocator)
    : (CoreError + list Sequence * list Sequence) * BlockAllocator :=
  match queue with
  | [] => (inr ([], []), a)
  | s :: queue' =>
      let prompt_len := length (tokens s) in
      let need := blocks_for block_size prompt_len - length (block_table s) in
      if decide (prompt_len <= budget /\ need <= num_free a) then
        match allocate need a with
        | (inr ids, a1) =>
            match prefill_pass block_size (budget - prompt_len) queue' a1 with
            | (inr (accepted, skipped), a2) =>
                (inr (append_blocks s ids :: accepted, skipped), a2)
            | (inl e, a2) => (inl e, a2)
            end
        | (inl e, a1) => (inl e, a1)
        end
      else (inr ([], s :: queue'), a)
  end.

(** Modelled from the spec: "priority then FIFO order" of the waiting
    queue. *)
Definition has_priority (p : Priority) (s : Sequence) : Prop :=
  priority (owner s) = p.

#[global] Instance has_priority_dec p s : Decision (has_priority p s).
Proof. unfold has_priority. solve_decision. Defined.

Definition by_priority (waiting : list Sequence) : list Sequence :=
  filter (has_priority High) waiting
  ++ filter (has_priority Normal) waiting
  ++ filter (has_priority Low) waiting.

Definition smallest_waiting_prompt (waiting : list Sequence) : option nat :=
  match waiting with
  | [] => None
  | s :: rest =>
      Some (foldr (fun x m => Nat.min (length (tokens x)) m)
                  (length (tokens s)) rest)
  end.

(** *** BatchPlan (section 3) and the tensors assembled from it *)

Inductive Span : Type := Prefill | Decode.

#[global] Instance Span_eq_dec : EqDecision Span.
Proof. solve_decision. Defined.

Record PlanEntry : Type := mkPlanEntry {
  entry_seq  : Sequence;
  entry_span : Span
}.

Abbreviation BatchPlan := (list PlanEntry).

(** Modelled from the spec: the token span an entry contributes; a
    prefill contributes the whole prompt, a decode one token, the last. *)
Definition span_tokens (e : PlanEntry) : list Z :=
  match entry_span e with
  | Prefill => tokens (entry_seq e)
  | Decode => drop (length (tokens (entry_seq e)) - 1) (tokens (entry_seq e))
  end.

Definition span_positions (e : PlanEntry) : list Z :=
  match entry_span e with
  | Prefill => Z.of_nat <$> seq 0 (length (tokens (entry_seq e)))
  | Decode =>
      Z.of_nat <$> seq (length (tokens (entry_seq e)) - 1)
                       (length (span_tokens e))
  end.

(** Modelled from the spec: the plan lists the prefill Sequences first
    and the decode Sequences after them. *)
Definition make_plan (prefills decodes : list Sequence) : BatchPlan :=
  ((fun s => mkPlanEntry s Prefill) <$> prefills)
  ++ ((fun s => mkPlanEntry s Decode) <$> decodes).

(** Modelled from the spec: [token_ids[sum_tokens]] and
    [positions[sum_tokens]]. *)
Definition plan_token_ids (p : BatchPlan) : list Z :=
  mjoin (span_tokens <$> p).

Definition plan_positions (p : BatchPlan) : list Z :=
  mjoin (span_positions <$> p).

(** The span kind of every row of [token_ids]. *)
Definition plan_row_spans (p : BatchPlan) : list Span :=
  mjoin ((fun e => replicate (length (span_tokens e)) (entry_span e)) <$> p).

(** Modelled from the spec: the number of prompt tokens in the batch, the
    last entry of [cu_seq_lens] ("cumulative prefill lengths"). *)
Definition plan_num_prompt_tokens (p : BatchPlan) : nat :=
  sum_list ((fun e => length (span_tokens e))
              <$> filter (fun e => entry_span e = Prefill) p).

Fixpoint cumulative (offset : nat) (lens : list nat) : list Z :=
  match lens with
  | [] => []
  | k :: lens' => Z.of_nat (offset + k) :: cumulative (offset + k) lens'
  end.

Definition plan_cu_seq_lens (p : BatchPlan) : list Z :=
  0%Z :: cumulative 0 ((fun e => length (span_tokens e))
                         <$> filter (fun e => entry_span e = Prefill) p).

(** Modelled from the spec: [last_token_indices[batch]], the row of the
    final token of each span. *)
Definition plan_last_token_indices (p : BatchPlan) : list Z :=
  (fun e => (e - 1)%Z)
    <$> cumulative 0 ((fun e => length (span_tokens e)) <$> p).

(** Modelled from the spec: the outcome of the batch builder, a plan or
    [NoProgress], with the pools as the pass leaves them. *)
Inductive BatchOutcome : Type :=
| Plan (p : BatchPlan)
| NoProgress.

Record BatchResult : Type := mkBatchResult {
  outcome       : BatchOutcome;
  still_running : list Sequence;
  still_waiting : list Sequence
}.

(** Modelled from the spec: the builder "produces a BatchPlan or signals
    NoProgress"; the plan holds the accepted prompts and the selected
    decodes. *)
Definition finish_batch (d : DecodeOutcome)
    (prefills skipped : list Sequence) : BatchResult :=
  let p := make_plan prefills (decoding d) in
  mkBatchResult (match p with [] => NoProgress | _ => Plan p end)
                (decoding d ++ idle d ++ prefills) skipped.

(** Modelled from the spec: the selection algorithm of section 4.5, the
    decode pass followed by the prefill pass when the remaining token
    budget accepts the smallest waiting prompt. *)
Definition build_batch (block_size T_max : nat)
    (running waiting : list Sequence) (a : BlockAllocator)
    : option ((CoreError + BatchResult) * BlockAllocator) :=
  match decode_pass block_size running a with
  | None => None
  | Some (inl e, a1) => Some (inl e, a1)
  | Some (inr d, a1) =>
      let waiting1 := waiting ++ requeued d in
      let remaining := T_max - length (decoding d) in
      match smallest_waiting_prompt waiting1 with
      | Some m =>
          if decide (m <= remaining) then
            match prefill_pass block_size remaining (by_priority waiting1) a1 with
            | (inr (prefills, skipped), a2) =>
                Some (inr (finish_batch d prefills skipped), a2)
            | (inl e, a2) => Some (inl e, a2)
            end
          else Some (inr (finish_batch d [] waiting1), a1)
      | None => Some (inr (finish_batch d [] waiting1), a1)
      end
  end.

(** A plan lists its prefill entries before its decode entries. *)
Definition prefill_first (p : BatchPlan) : Prop :=
  forall i j ei ej,
    p !! i = Some ei -> p !! j = Some ej ->
    entry_span ei = Prefill -> entry_span ej = Decode -> i < j.

Definition span_len (e : PlanEntry) : nat := length (span_tokens e).

Definition all_decode (p : BatchPlan) : Prop :=
  Forall (fun e => entry_span e = Decode) p.

(** The rows of the token tensor split at [num_prompt_tokens], where the
    attention layer slices it, into prefill rows and decode rows. *)
Definition rows_split (p : BatchPlan) : Prop :=
  let npt := Z.of_nat (plan_num_prompt_tokens p) in
  Forall (fun k => k = Prefill) (Llama2.slice (plan_row_spans p) 0 (Some npt))
  /\ Forall (fun k => k = Decode) (Llama2.slice (plan_row_spans p) npt None).

End Core.

(* ===================================================================== *)
(** ** Worked instances *)
(* ===================================================================== *)

Module Examples.
Import Core.
Local Open Scope list_scope.

(** *** Preemption under pressure: four blocks of four slots, prompts of
    8, 4 and 4 tokens, all of normal priority, arriving in this order. *)
Definition handle_of (i : nat) : RequestHandle := mkRequestHandle i Normal i.

Definition prompts : list Sequence :=
  [new_sequence (handle_of 0) 0 (replicate 8 7%Z);
   new_sequence (handle_of 1) 0 (replicate 4 7%Z);
   new_sequence (handle_of 2) 0 (replicate 4 7%Z)].

Definition pool : BlockAllocator := new_allocator 4.

(** The first step prefills all three prompts and uses up the pool. *)
Definition step1 : option ((CoreError + BatchResult) * BlockAllocator) :=
  Eval vm_compute in build_batch 4 64 [] prompts pool.

(** Every Sequence has sampled one token. *)
Definition running2 : list Sequence :=
  Eval vm_compute in
    match step1 with
    | Some (inr r, _) => append_token 9 (-1)%Q <$> still_running r
    | _ => []
    end.

Definition pool2 : BlockAllocator :=
  Eval vm_compute in
    match step1 with Some (_, a) => a | None => pool end.

(** The second step: the decode pass finds no free block. *)
Definition result2 : BatchResult :=
  Eval vm_compute in
    match build_batch 4 64 running2 [] pool2 with
    | Some (inr r, _) => r
    | _ => mkBatchResult NoProgress [] []
    end.

Definition pool3 : BlockAllocator :=
  Eval vm_compute in
    match build_batch 4 64 running2 [] pool2 with
    | Some (_, a) => a
    | None => pool2
    end.

Definition plan2 : BatchPlan :=
  Eval vm_compute in
    match outcome result2 with Plan p => p | NoProgress => [] end.

(** *** Best-of selection: [n = 1], [best_of = 3], a one-token prompt.
    The siblings score -3/2, -4/4 and -2/1 per generated token. *)
Definition sibling (idx : nat) (ts : list Z) (lp : Q) (r : FinishReason)
    : Sequence :=
  mkSequence (handle_of 0) idx ts 1 [] (Some r) lp.

Definition siblings : list Sequence :=
  [sibling 0 [1; 2; 3]%Z (-3)%Q FinishStop;
   sibling 1 [1; 2; 3; 4; 5]%Z (-4)%Q FinishLength;
   sibling 2 [1; 2]%Z (-2)%Q FinishStop].

Definition best_of_request : Request :=
  mkRequest (handle_of 0) false 1 3 siblings.

(** *** A one-layer model on integer rows: the embedding and the norm are
    the identity, attention returns its queries, and the output layer
    doubles a row. *)
Definition toy_block : @Llama2.TransformerBlock Z :=
  Llama2.mkTransformerBlock (fun r => r) (fun r => r) (fun r => r)
    (fun r => r) (fun r => r) (fun r => r) (fun r => r).

Definition toy_model : @Llama2.Model Z Z :=
  Llama2.mkModel (fun t => t) [toy_block] (fun r => r) (fun r => (2 * r)%Z).

Definition toy_forward (tokens positions : list Z)
    (ip : Llama2.InputParameters) : option (list Z * list unit) :=
  Llama2.forward 0%Z Z.add (fun r _ => r) (fun kv _ _ _ => kv)
    (fun q _ _ _ _ _ => q) (fun _ q _ _ _ _ => q)
    toy_model tokens positions [tt] ip.

(** The tensors of a plan that the model reads and the design document
    defines; the cache-addressing tensors play no role here. *)
Definition input_params_of (p : BatchPlan) : Llama2.InputParameters :=
  Llama2.mkInputParameters
    (Z.of_nat (plan_num_prompt_tokens p)) (plan_cu_seq_lens p) 0 [] [] [] 0
    (plan_last_token_indices p).
End Examples.


Module Llama2Examples.
Local Open Scope list_scope.

(** Kernels that mark the rows they are given: the prefill kernel adds 1
    to each row of its output argument, the decode kernel adds 2. *)
Definition mark_prefill (q k v : list Z) (cu : list Z) (m : Z) (o : list Z)
    : list Z := map (Z.add 1) o.

Definition mark_decode (kv : list (list Z)) (q : list Z)
    (bt : list (list Z)) (cl : list Z) (m : Z) (o : list Z) : list Z :=
  map (Z.add 2) o.

(** A cache that records the keys stored into it. *)
Definition record_keys (kv : list (list Z)) (slots : list Z)
    (key value : list Z) : list (list Z) := kv ++ [key].

Definition marked_attention (x : list Z) (npt : Z)
    : list Z * list (list Z) :=
  Llama2.attention_forward 0%Z (fun r _ => r) record_keys mark_prefill
    mark_decode Examples.toy_block x (map (fun _ => 0%Z) x) []
    (Llama2.mkInputParameters npt [] 0 [] [] [] 0 []).

(** A two-layer model run with three caches. *)
Definition two_layer_model : @Llama2.Model Z Z :=
  Llama2.mkModel (fun t => t) [Examples.toy_block; Examples.toy_block]
    (fun r => r) (fun r => r).

Definition two_layer_forward (kvs : list (list (list Z)))
    (last : list Z) : option (list Z * list (list (list Z))) :=
  Llama2.forward 0%Z Z.add (fun r _ => r) record_keys mark_prefill
    mark_decode two_layer_model [5; 6; 7]%Z [0; 1; 0]%Z kvs
    (Llama2.mkInputParameters 2 [] 0 [] [] [] 0 last).

(** Llama-2 7B: [dim = 4096], [multiple_of = 256], no multiplier; the
    float product with 1 is exact at this size. *)
Definition hidden_dim_7b : option Z :=
  @Llama2FeedForward.hidden_dim unit tt (fun h _ => Some h) 4096 256 None.
End Llama2Examples.

Module RotaryExamples.
Import Rotary.
Local Open Scope list_scope.

(** Two tokens with one head of width 3; the first two elements of a
    head are rotated, the third is passed through. *)
Definition query : Tensor3 R :=
  of_rows 0%R 3 [[[3; 4; 5]]; [[1; 0; 2]]]%R.

Definition key : Tensor3 R :=
  of_rows 0%R 3 [[[1; 2; 7]]; [[0; 1; 1]]]%R.

(** One frequency, eight cached positions. *)
Definition module (interleaved : bool)
    : PosEmbedding.Outcome (@RotaryEmbeddingGeneric R) :=
  RotaryEmbeddingGeneric_new 2 8 [1%R] interleaved.

(** A head of two pairs. *)
Definition head4 : Tensor3 R := of_rows 0%R 4 [[[1; 2; 3; 4]]]%R.
End RotaryExamples.
(* ===================================================================== *)
(** * Properties *)
(* ===================================================================== *)

Section CausalLMFacts.
Import CausalLM.

Lemma nat_of_ascii_lt (c : ascii) : nat_of_ascii c < 256.
Proof.
  destruct c as [[] [] [] [] [] [] [] []]; vm_compute; lia.
Qed.

Lemma nat_of_ascii_inj (a b : ascii) :
  nat_of_ascii a = nat_of_ascii b -> a = b.
Proof.
  intros H. rewrite <- (ascii_nat_embedding a), <- (ascii_nat_embedding b).
  now rewrite H.
Qed.

Lemma nat_of_toupper (c : ascii) :
  nat_of_ascii (toupper c) =
  if is_lower c then nat_of_ascii c - 32 else nat_of_ascii c.
Proof.
  unfold toupper. destruct (is_lower c) eqn:E; [|reflexivity].
  apply nat_ascii_embedding. pose proof (nat_of_ascii_lt c). lia.
Qed.

Lemma is_lower_spec (c : ascii) :
  is_lower c = true <-> 97 <= nat_of_ascii c <= 122.
Proof.
  unfold is_lower. rewrite andb_true_iff, !Nat.leb_le. tauto.
Qed.

Lemma toupper_eq_iff (a b : ascii) :
  toupper a = toupper b <-> same_letter a b.
Proof.
  unfold same_letter. split.
  - intros H. apply (f_equal nat_of_ascii) in H.
    rewrite !nat_of_toupper in H.
    destruct (is_lower a) eqn:Ea, (is_lower b) eqn:Eb.
    + left. apply nat_of_ascii_inj.
      apply is_lower_spec in Ea, Eb. lia.
    + right; left. split; [reflexivity|]. apply is_lower_spec in Ea. lia.
    + right; right. split; [reflexivity|]. apply is_lower_spec in Eb. lia.
    + left. now apply nat_of_ascii_inj.
  - intros [->|[[La H]|[Lb H]]]; [reflexivity| |];
      apply nat_of_ascii_inj; rewrite !nat_of_toupper.
    + rewrite La. destruct (is_lower b) eqn:Eb.
      * apply is_lower_spec in La, Eb. lia.
      * lia.
    + rewrite Lb. destruct (is_lower a) eqn:Ea.
      * apply is_lower_spec in Lb, Ea. lia.
      * lia.
Qed.

Lemma iequals_spec (s t : string) :
  iequals s t = true <-> differ_only_in_case s t.
Proof.
  revert t. induction s as [|a s IH]; intros [|b t]; simpl; try easy.
  destruct (Ascii.eqb_spec (toupper a) (toupper b)) as [E|E].
  - rewrite IH. apply toupper_eq_iff in E. tauto.
  - split; [discriminate|]. intros [H _]. now apply toupper_eq_iff in H.
Qed.

Lemma iequals_refl (s : string) : iequals s s = true.
Proof. induction s; simpl; [reflexivity|]. now rewrite Ascii.eqb_refl. Qed.

Lemma iequals_sym (s t : string) : iequals s t = iequals t s.
Proof.
  revert t. induction s as [|a s IH]; intros [|b t]; simpl; try reflexivity.
  rewrite (Ascii.eqb_sym (toupper a)). now rewrite IH.
Qed.

Lemma iequals_trans (s t u : string) :
  iequals s t = true -> iequals t u = true -> iequals s u = true.
Proof.
  revert t u. induction s as [|a s IH]; intros [|b t] [|c u]; simpl;
    try easy.
  destruct (Ascii.eqb_spec (toupper a) (toupper b)) as [E1|]; [|easy].
  destruct (Ascii.eqb_spec (toupper b) (toupper c)) as [E2|]; [|easy].
  rewrite E1, E2, Ascii.eqb_refl. apply IH.
Qed.

(** Matching against a fixed name cannot tell two case variants apart. *)
Lemma iequals_congr (s t name : string) :
  iequals s t = true -> iequals s name = iequals t name.
Proof.
  intros H. destruct (iequals t name) eqn:E.
  - eapply iequals_trans; eauto.
  - destruct (iequals s name) eqn:F; [|reflexivity].
    rewrite iequals_sym in H.
    rewrite (iequals_trans _ _ _ H F) in E. discriminate.
Qed.

Context {ModelArgs QuantizationArgs ParallelArgs ScalarType Device : Type}.
Variable model_type : ModelArgs -> string.

Lemma create_family_congr (a1 a2 : ModelArgs) (q : QuantizationArgs)
    (p : ParallelArgs) (t : ScalarType) (d : Device) :
  iequals (model_type a1) (model_type a2) = true ->
  created_family (create model_type a1 q p t d) =
  created_family (create model_type a2 q p t d).
Proof.
  intros H. unfold create.
  rewrite !(iequals_congr _ _ _ H).
  repeat match goal with
         | |- context [if iequals ?s ?name then _ else _] =>
             destruct (iequals s name); [reflexivity|]
         end.
  reflexivity.
Qed.

Lemma create_nullptr_iff (a : ModelArgs) (q : QuantizationArgs)
    (p : ParallelArgs) (t : ScalarType) (d : Device) :
  returned (create model_type a q p t d) = None <->
  Forall (fun name => iequals (model_type a) name = false) supported.
Proof.
  unfold create, supported, make. split.
  - intros H.
    repeat match type of H with
           | context [if iequals ?s ?name then _ else _] =>
               destruct (iequals s name) eqn:?; [simpl in H; discriminate|]
           end.
    repeat (constructor; [assumption|]). constructor.
  - intros H.
    repeat (match goal with
            | H : Forall _ (_ :: _) |- _ => inversion_clear H
            end).
    repeat match goal with H : iequals _ _ = false |- _ => rewrite H; clear H end.
    reflexivity.
Qed.

(** C9. [CausalLM::create] selects the model by a case-insensitive
    comparison of [model_type]: two model types that differ only in the
    case of their letters produce the same model family (or both none);
    and a model type that matches none of llama2, llama, gpt2, gpt_neox,
    mistral, aquila (membership taken up to letter case, as the matching
    is) makes the call return [nullptr], as an ordinary return value with
    the unsupported type logged, not as an error. *)
Theorem create_case_insensitive_nullptr
    (a1 a2 : ModelArgs) (q : QuantizationArgs) (p : ParallelArgs)
    (t : ScalarType) (d : Device) :
  (differ_only_in_case (model_type a1) (model_type a2) ->
     created_family (create model_type a1 q p t d) =
     created_family (create model_type a2 q p t d))
  /\ ((forall name, In name supported ->
         ~ differ_only_in_case (model_type a1) name) ->
      create model_type a1 q p t d =
      mkCreateResult None ["Unsupported model type: " ++ model_type a1]).
Proof.
  split.
  - intros H. apply create_family_congr. now apply iequals_spec.
  - intros H.
    assert (N : returned (create model_type a1 q p t d) = None).
    { apply create_nullptr_iff. apply List.Forall_forall. intros name Hin.
      destruct (iequals (model_type a1) name) eqn:E; [|reflexivity].
      exfalso. apply (H name Hin). now apply iequals_spec. }
    revert N. unfold create, make.
    repeat match goal with
           | |- context [if iequals ?s ?name then _ else _] =>
               destruct (iequals s name); [discriminate|]
           end.
    reflexivity.
Qed.

End CausalLMFacts.

Lemma create_case_insensitive_nullptr_witness :
  CausalLM.created_family
    (CausalLM.create (fun s : string => s) "LLaMA2" tt tt tt tt)
  = CausalLM.created_family
      (CausalLM.create (fun s : string => s) "llama2" tt tt tt tt)
  /\ CausalLM.create (fun s : string => s) "bert" tt tt tt tt
     = CausalLM.mkCreateResult None ["Unsupported model type: bert"].
Proof.
  destruct (create_case_insensitive_nullptr
              (fun s : string => s) "LLaMA2" "llama2" tt tt tt tt)
    as [Hcase _].
  destruct (create_case_insensitive_nullptr
              (fun s : string => s) "bert" "bert" tt tt tt tt)
    as [_ Hnull].
  split.
  - apply Hcase. apply iequals_spec. reflexivity.
  - apply Hnull. intros name Hin Hd. apply iequals_spec in Hd.
    simpl in Hin.
    repeat (destruct Hin as [<-|Hin]; [vm_compute in Hd; discriminate|]).
    destruct Hin.
Defined.

(** The factory on the spellings the source lists, and on variants. *)
Example create_examples :
  map (fun s => CausalLM.created_family
                  (CausalLM.create (fun s : string => s) s tt tt tt tt))
      ["llama2"; "Llama"; "GPT2"; "gpt_NeoX"; "MISTRAL"; "aquila";
       "llama3"; "gpt-neox"; ""]
  = [Some CausalLM.LlamaModel; Some CausalLM.HfLlamaModel;
     Some CausalLM.HfGPT2Model; Some CausalLM.HfGPTNeoXModel;
     Some CausalLM.HfMistralModel; Some CausalLM.HfAquilaModel;
     None; None; None].
Proof. reflexivity. Qed.

Section ChatHandlerFacts.
Import ChatHandler.
Local Open Scope list_scope.

Context {float Priority ProtoPriority Status LLMHandler : Type}.
Variable to_priority : ProtoPriority -> Priority.
Variable status_ok : Status -> bool.
Variable status_message : Status -> string.
Variable status_grpc_code : Status -> StatusCode.
Variable default_sampling_params : @SamplingParams float.
Variable write_ok : list ChatResponse -> ChatResponse -> bool.
Variable finish_ok : list ChatResponse -> bool.
Variable schedule_chat_async :
  LLMHandler -> @ScheduledChat float Priority -> LLMHandler.

Local Abbreviation CallData := (@ChatCallData float ProtoPriority).

(** **** The call-data operations. *)




(** **** A [false] answer comes from a refused write. *)







(** **** The invariant of one sequence index. *)

Section OneIndex.
(** The sequence index under consideration, and the chunks' header. *)
Variable idx : nat.





Section Chunks.
Variables (request_id : string) (created_time : Z) (model : string).

(** The transport accepts the announcement of [idx] whenever it is
    written. *)
Hypothesis announcement_accepted :
  forall log,
    write_ok log (role_chunk request_id created_time model idx) = true.









End Chunks.


End OneIndex.



(** C8. A chat request that names a model outside the handler's model
    set is finished with NOT_FOUND and the message "Model not supported";
    nothing is written to the client and nothing is scheduled, so the
    handler, and with it the scheduler it fronts, is left as it was. *)
Theorem chat_async_model_not_supported
    (h : ChatHandler) (uuid : string) (now : Z) (cd : CallData) :
  req_model (request cd) ∉ models_ h ->
  chat_async to_priority default_sampling_params finish_ok
    schedule_chat_async h uuid now cd
  = (h, mkCallData (request cd) (written cd)
          (Some (NOT_FOUND, "Model not supported"))).
Proof.
  intros Hnot. unfold chat_async.
  rewrite bool_decide_eq_false_2 by assumption. reflexivity.
Qed.

(** A supported model is scheduled once, with the callback in its initial
    state, and the call is left open. *)
Lemma chat_async_model_supported
    (h : ChatHandler) (uuid : string) (now : Z) (cd : CallData) :
  req_model (request cd) ∈ models_ h ->
  exists item,
    chat_async to_priority default_sampling_params finish_ok
      schedule_chat_async h uuid now cd
    = (mkChatHandler (schedule_chat_async (llm_handler_ h) item) (models_ h),
       cd)
    /\ cb_first_message_sent (sched_callback item) = ∅
    /\ sched_stream item = req_stream (request cd).
Proof.
  intros Hin. unfold chat_async.
  rewrite bool_decide_eq_true_2 by assumption. simpl.
  eexists. split; [reflexivity|]. split; reflexivity.
Qed.

End ChatHandlerFacts.


Lemma chat_async_model_not_supported_witness :
  ChatHandler.chat_async (fun p : unit => p) ChatHandlerExamples.params
    (fun _ => true) ChatHandlerExamples.enqueue
    ChatHandlerExamples.handler "0" 7
    (ChatHandler.mkCallData (ChatHandlerExamples.req "gpt-4") [] None)
  = (ChatHandlerExamples.handler,
     ChatHandler.mkCallData (ChatHandlerExamples.req "gpt-4") []
       (Some (ChatHandler.NOT_FOUND, "Model not supported"))).
Proof.
  apply (chat_async_model_not_supported (fun p : unit => p)
           ChatHandlerExamples.params (fun _ => true)
           ChatHandlerExamples.enqueue ChatHandlerExamples.handler "0" 7
           (ChatHandler.mkCallData (ChatHandlerExamples.req "gpt-4") [] None)).
  simpl. unfold ChatHandlerExamples.handler. simpl.
  intros H. apply elem_of_singleton in H. discriminate H.
Defined.



(** Two steps of a two-sequence stream: each index is announced once, before
    its text; the second step announces nothing. *)
Example stream_two_sequences :
  let id := "chatcmpl-0" in
  ChatHandlerExamples.run (fun _ _ => true)
    [ChatHandlerExamples.step
       [ChatHandler.mkSequenceOutput 0 "He" None;
        ChatHandler.mkSequenceOutput 1 "" None];
     ChatHandlerExamples.step
       [ChatHandler.mkSequenceOutput 0 "llo" (Some "stop");
        ChatHandler.mkSequenceOutput 1 "Hi" None]]
  = [ChatHandler.role_chunk id 7 "m" 0;
     ChatHandler.text_chunk id 7 "m" 0 "He";
     ChatHandler.role_chunk id 7 "m" 1;
     ChatHandler.text_chunk id 7 "m" 0 "llo";
     ChatHandler.finish_chunk id 7 "m" 0 "stop";
     ChatHandler.text_chunk id 7 "m" 1 "Hi"].
Proof. vm_compute. reflexivity. Qed.

(** A transport that accepts two responses and no more: the handler
    answers [false] to both outputs, and only two responses arrive. *)
Example stream_broken_transport :
  ChatHandlerExamples.invoke (fun log _ => (length log <? 2)%nat)
    [ChatHandlerExamples.step
       [ChatHandler.mkSequenceOutput 0 "He" None;
        ChatHandler.mkSequenceOutput 1 "x" None];
     ChatHandlerExamples.step
       [ChatHandler.mkSequenceOutput 1 "Hi" None]]
  = ([false; false],
     [ChatHandler.role_chunk "chatcmpl-0" 7 "m" 0;
      ChatHandler.text_chunk "chatcmpl-0" 7 "m" 0 "He"]).
Proof. vm_compute. reflexivity. Qed.
Section ChatStreamFacts.
Import ChatHandler.
Local Open Scope list_scope.

Context {float ProtoPriority Status : Type}.
Variable status_ok : Status -> bool.
Variable status_message : Status -> string.
Variable status_grpc_code : Status -> StatusCode.
Variable finish_ok : list ChatResponse -> bool.

Local Abbreviation CallData := (@ChatCallData float ProtoPriority).
Local Abbreviation accept_all :=
  (fun (_ : list ChatResponse) (_ : ChatResponse) => true).

Lemma string_append_assoc (a b c : string) :
  ((a ++ b) ++ c = a ++ (b ++ c))%string.
Proof.
  induction a as [|x a IH]; [reflexivity|].
  change (String x ((a ++ b) ++ c) = String x (a ++ (b ++ c)))%string.
  f_equal. exact IH.
Qed.

Lemma string_append_nil_r (a : string) : (a ++ "" = a)%string.
Proof.
  induction a as [|x a IH]; [reflexivity|].
  change (String x (a ++ "") = String x a)%string. f_equal. exact IH.
Qed.

Lemma concat_strings_app (l k : list string) :
  concat_strings (l ++ k)
  = (concat_strings l ++ concat_strings k)%string.
Proof.
  induction l as [|x l IH]; cbn [concat_strings foldr app]; [reflexivity|].
  fold (concat_strings (l ++ k)); fold (concat_strings l).
  rewrite IH. symmetry. apply string_append_assoc.
Qed.

Lemma deltas_for_app idx (l k : list ChatResponse) :
  deltas_for idx (l ++ k) = deltas_for idx l ++ deltas_for idx k.
Proof. unfold deltas_for. apply filter_app. Qed.

Lemma delivered_text_app idx (l k : list ChatResponse) :
  delivered_text idx (l ++ k)
  = (delivered_text idx l ++ delivered_text idx k)%string.
Proof.
  unfold delivered_text.
  now rewrite deltas_for_app, fmap_app, concat_strings_app.
Qed.

Lemma delivered_finish_reasons_app idx (l k : list ChatResponse) :
  delivered_finish_reasons idx (l ++ k)
  = delivered_finish_reasons idx l ++ delivered_finish_reasons idx k.
Proof.
  unfold delivered_finish_reasons. now rewrite deltas_for_app, omap_app.
Qed.

Lemma delivered_text_single idx r i :
  delta_index r = Some i ->
  delivered_text idx [r]
  = if decide (i = idx) then default "" (delta_text r) else "".
Proof.
  intros Hr. unfold delivered_text, deltas_for.
  rewrite filter_cons, filter_nil, Hr.
  destruct (decide (i = idx)) as [->|Hne].
  - rewrite decide_True by reflexivity. cbn. apply string_append_nil_r.
  - rewrite decide_False by congruence. reflexivity.
Qed.

Lemma delivered_finish_reasons_single idx r i :
  delta_index r = Some i ->
  delivered_finish_reasons idx [r]
  = if decide (i = idx) then option_list (delta_finish_reason r) else [].
Proof.
  intros Hr. unfold delivered_finish_reasons, deltas_for.
  rewrite filter_cons, filter_nil, Hr.
  destruct (decide (i = idx)) as [->|Hne].
  - rewrite decide_True by reflexivity. cbn.
    destruct (delta_finish_reason r); reflexivity.
  - rewrite decide_False by congruence. reflexivity.
Qed.

Section Chunks.
Variables (request_id : string) (created_time : Z) (model : string).

Local Abbreviation chunks_of := (chunks_of request_id created_time model).

(** With a transport that accepts everything, one iteration writes its
    chunks and goes on. *)
Lemma send_one_accept_all so sent (cd : CallData) :
  send_one accept_all request_id created_time model so sent cd
  = (true,
     if decide (index so ∈ sent) then sent else {[ index so ]} ∪ sent,
     mkCallData (request cd)
       (written cd ++ chunks_of so (bool_decide (index so ∈ sent)))
       (finish cd)).
Proof.
  unfold send_one, send_role, send_text, send_finish_reason, write,
    ChatHandler.chunks_of.
  destruct cd as [rq log fin]. cbn [written request finish].
  destruct (decide (index so ∈ sent)) as [Hin|Hnot].
  - rewrite bool_decide_eq_true_2 by assumption. cbn [negb].
    destruct (String.eqb (text so) ""), (finish_reason so);
      cbn -[role_chunk text_chunk finish_chunk];
      rewrite ?app_nil_r, <- ?app_assoc; reflexivity.
  - rewrite bool_decide_eq_false_2 by assumption. cbn [negb].
    destruct (String.eqb (text so) ""), (finish_reason so);
      cbn -[role_chunk text_chunk finish_chunk];
      rewrite ?app_nil_r, <- ?app_assoc; reflexivity.
Qed.

Lemma chunks_of_text idx so b :
  delivered_text idx (chunks_of so b)
  = if decide (index so = idx) then text so else "".
Proof.
  unfold ChatHandler.chunks_of. rewrite !delivered_text_app.
  assert (Hrole : delivered_text idx
                    (if b then []
                     else [role_chunk request_id created_time model (index so)])
                  = "").
  { destruct b; [reflexivity|].
    rewrite (delivered_text_single idx _ (index so)) by reflexivity.
    destruct (decide (index so = idx)); reflexivity. }
  assert (Hfin : delivered_text idx
                   match finish_reason so with
                   | Some reason =>
                       [finish_chunk request_id created_time model (index so)
                          reason]
                   | None => []
                   end = "").
  { destruct (finish_reason so); [|reflexivity].
    rewrite (delivered_text_single idx _ (index so)) by reflexivity.
    destruct (decide (index so = idx)); reflexivity. }
  rewrite Hrole, Hfin, string_append_nil_r. cbn [String.append].
  destruct (String.eqb_spec (text so) "") as [E|E].
  - rewrite E. destruct (decide (index so = idx)); reflexivity.
  - rewrite (delivered_text_single idx _ (index so)) by reflexivity.
    reflexivity.
Qed.

Lemma chunks_of_finish_reasons idx so b :
  delivered_finish_reasons idx (chunks_of so b)
  = if decide (index so = idx) then option_list (finish_reason so) else [].
Proof.
  unfold ChatHandler.chunks_of. rewrite !delivered_finish_reasons_app.
  assert (Hrole : delivered_finish_reasons idx
                    (if b then []
                     else [role_chunk request_id created_time model (index so)])
                  = []).
  { destruct b; [reflexivity|].
    rewrite (delivered_finish_reasons_single idx _ (index so)) by reflexivity.
    destruct (decide (index so = idx)); reflexivity. }
  assert (Htext : delivered_finish_reasons idx
                    (if String.eqb (text so) "" then []
                     else [text_chunk request_id created_time model (index so)
                             (text so)]) = []).
  { destruct (String.eqb (text so) ""); [reflexivity|].
    rewrite (delivered_finish_reasons_single idx _ (index so)) by reflexivity.
    destruct (decide (index so = idx)); reflexivity. }
  rewrite Hrole, Htext. cbn [app].
  destruct (finish_reason so) as [reason|].
  - rewrite (delivered_finish_reasons_single idx _ (index so)) by reflexivity.
    reflexivity.
  - destruct (decide (index so = idx)); reflexivity.
Qed.

Lemma send_deltas_accept_all outs : forall sent (cd : CallData),
  exists sent' log',
    send_deltas accept_all request_id created_time model outs sent cd
    = (true, sent', mkCallData (request cd) (written cd ++ log') (finish cd))
    /\ (forall idx,
          delivered_text idx log'
          = concat_strings (text <$> filter (fun so => index so = idx) outs))
    /\ (forall idx,
          delivered_finish_reasons idx log'
          = omap finish_reason (filter (fun so => index so = idx) outs)).
Proof.
  induction outs as [|so outs IH]; intros sent cd; cbn [send_deltas].
  - exists sent, []. rewrite app_nil_r. destruct cd. repeat split.
  - rewrite send_one_accept_all.
    edestruct IH as (sent' & log' & -> & Htext & Hfin).
    eexists sent', (chunks_of so _ ++ log'). cbn [request written finish].
    rewrite app_assoc. split; [reflexivity|]. split; intros idx.
    + rewrite delivered_text_app, chunks_of_text, Htext, filter_cons.
      destruct (decide (index so = idx)); reflexivity.
    + rewrite delivered_finish_reasons_app, chunks_of_finish_reasons, Hfin,
        filter_cons.
      destruct (decide (index so = idx)); [|reflexivity].
      cbn [omap list_omap]. destruct (finish_reason so); reflexivity.
Qed.
End Chunks.

Local Abbreviation delta_call :=
  (@send_delta_to_client float ProtoPriority Status accept_all).

(** X1. The text deltas of a callback invocation add up: when the
    transport accepts every response, one call of [send_delta_to_client]
    succeeds and appends to what the client has received, for every
    sequence index, text deltas whose concatenation is the concatenation
    of the texts the output carries for that index, in order. Nothing is
    lost to the empty-text filter, and the announcement adds nothing,
    whatever was sent before. *)
Theorem delta_call_delivers_texts (request_id : string) (created_time : Z)
    (model : string) (cd : CallData) (first_message_sent : gset nat)
    (output : @RequestOutput Status) :
  exists sent' log',
    delta_call request_id created_time model cd first_message_sent output
    = (true, sent',
       mkCallData (request cd) (written cd ++ log') (finish cd))
    /\ forall idx,
         delivered_text idx log'
         = concat_strings
             (text <$> filter (fun so => index so = idx) (outputs output)).
Proof.
  unfold send_delta_to_client.
  destruct (send_deltas_accept_all request_id created_time model
              (outputs output) first_message_sent cd)
    as (sent' & log' & E & Htext & _).
  eauto.
Qed.

(** X2. Under the same condition the finish-reason events that one call
    of [send_delta_to_client] appends for a sequence index are exactly the
    finish reasons the output carries for that index, in order: none is
    dropped and none is repeated. *)
Theorem delta_call_delivers_finish_reasons (request_id : string)
    (created_time : Z) (model : string) (cd : CallData)
    (first_message_sent : gset nat) (output : @RequestOutput Status) :
  exists sent' log',
    delta_call request_id created_time model cd first_message_sent output
    = (true, sent',
       mkCallData (request cd) (written cd ++ log') (finish cd))
    /\ forall idx,
         delivered_finish_reasons idx log'
         = omap finish_reason
             (filter (fun so => index so = idx) (outputs output)).
Proof.
  unfold send_delta_to_client.
  destruct (send_deltas_accept_all request_id created_time model
              (outputs output) first_message_sent cd)
    as (sent' & log' & E & _ & Hfin).
  eauto.
Qed.

(** **** A transport that refuses a response cuts the stream short, and
    does nothing else to it. *)

Section BrokenTransport.
Variable write_ok : list ChatResponse -> ChatResponse -> bool.

Lemma write_accept_or_stop r (cd : CallData) :
  write write_ok r cd = write accept_all r cd
  \/ write write_ok r cd = (false, cd).
Proof. unfold write. destruct (write_ok _ _); auto. Qed.

Lemma send_one_accept_or_stop id t m so sent (cd : CallData) :
  send_one write_ok id t m so sent cd = send_one accept_all id t m so sent cd
  \/ exists sent' cd',
       send_one write_ok id t m so sent cd = (false, sent', cd')
       /\ written cd `prefix_of` written cd'
       /\ written cd'
          `prefix_of` written (send_one accept_all id t m so sent cd).2.
Proof.
  rewrite send_one_accept_all. cbn [snd written].
  unfold send_one, send_role, send_text, send_finish_reason,
    ChatHandler.chunks_of.
  destruct cd as [rq log fin].
  destruct (decide (index so ∈ sent)) as [Hin|Hnot].
  - rewrite bool_decide_eq_true_2 by assumption. cbn [negb app].
    destruct (String.eqb (text so) "") eqn:Et; cbn [negb app].
    + destruct (finish_reason so) as [f|]; cbn [app].
      * destruct (write_accept_or_stop (finish_chunk id t m (index so) f)
                    (mkCallData rq log fin)) as [->| ->].
        -- left. reflexivity.
        -- right. eexists _, _. split; [reflexivity|]. cbn.
           split; [reflexivity|]. now apply prefix_app_r.
      * left. cbn. now rewrite app_nil_r.
    + destruct (write_accept_or_stop (text_chunk id t m (index so) (text so))
                  (mkCallData rq log fin)) as [->| ->].
      * cbn -[finish_chunk text_chunk].
        destruct (finish_reason so) as [f|].
        -- destruct (write_accept_or_stop (finish_chunk id t m (index so) f)
                       (mkCallData rq (log ++ [text_chunk id t m (index so) (text so)]) fin))
             as [->| ->].
           ++ left. cbn -[finish_chunk text_chunk]. now rewrite <- app_assoc.
           ++ right. eexists _, _. split; [reflexivity|].
              cbn -[finish_chunk text_chunk].
              split; [now apply prefix_app_r|].
              apply prefix_app, prefix_cons, prefix_nil.
        -- left. reflexivity.
      * right. eexists _, _. split; [reflexivity|]. cbn.
        split; [reflexivity|]. now apply prefix_app_r.
  - rewrite bool_decide_eq_false_2 by assumption.
    destruct (write_accept_or_stop (role_chunk id t m (index so))
                (mkCallData rq log fin)) as [->| ->].
    2:{ right. eexists _, _. split; [reflexivity|]. cbn.
        split; [reflexivity|]. now apply prefix_app_r. }
    cbn -[role_chunk finish_chunk text_chunk].
    set (log1 := log ++ [role_chunk id t m (index so)]).
    destruct (String.eqb (text so) "") eqn:Et;
      cbn -[role_chunk finish_chunk text_chunk].
    + destruct (finish_reason so) as [f|].
      * destruct (write_accept_or_stop (finish_chunk id t m (index so) f)
                    (mkCallData rq log1 fin)) as [->| ->].
        -- left. subst log1. cbn -[role_chunk finish_chunk text_chunk].
           now rewrite <- app_assoc.
        -- right. eexists _, _. split; [reflexivity|]. subst log1.
           cbn -[role_chunk finish_chunk text_chunk].
           split; [now apply prefix_app_r|].
           apply prefix_app, prefix_cons, prefix_nil.
      * left. reflexivity.
    + destruct (write_accept_or_stop (text_chunk id t m (index so) (text so))
                  (mkCallData rq log1 fin)) as [->| ->].
      * cbn -[role_chunk finish_chunk text_chunk].
        destruct (finish_reason so) as [f|].
        -- destruct (write_accept_or_stop (finish_chunk id t m (index so) f)
                       (mkCallData rq (log1 ++ [text_chunk id t m (index so) (text so)]) fin))
             as [->| ->].
           ++ left. subst log1. cbn -[role_chunk finish_chunk text_chunk].
              now rewrite <- !app_assoc.
           ++ right. eexists _, _. split; [reflexivity|]. subst log1.
              cbn -[role_chunk finish_chunk text_chunk].
              rewrite <- app_assoc.
              split; [now apply prefix_app_r|].
              apply prefix_app. cbn [app].
              apply prefix_cons, prefix_cons, prefix_nil.
        -- left. subst log1. cbn -[role_chunk finish_chunk text_chunk].
           now rewrite <- app_assoc.
      * right. eexists _, _. split; [reflexivity|]. subst log1.
        cbn -[role_chunk finish_chunk text_chunk].
        split; [now apply prefix_app_r|].
        apply prefix_app, prefix_cons, prefix_nil.
Qed.

Lemma send_deltas_accept_all_appends id t m outs sent (cd : CallData) :
  written cd `prefix_of` written (send_deltas accept_all id t m outs sent cd).2.
Proof.
  destruct (send_deltas_accept_all id t m outs sent cd) as (s' & l' & -> & _).
  cbn. now apply prefix_app_r.
Qed.

Lemma send_deltas_accept_or_stop id t m outs : forall sent (cd : CallData),
  send_deltas write_ok id t m outs sent cd
  = send_deltas accept_all id t m outs sent cd
  \/ exists sent' cd',
       send_deltas write_ok id t m outs sent cd = (false, sent', cd')
       /\ written cd `prefix_of` written cd'
       /\ written cd'
          `prefix_of` written (send_deltas accept_all id t m outs sent cd).2.
Proof.
  induction outs as [|so outs IH]; intros sent cd; cbn [send_deltas];
    [now left|].
  destruct (send_one_accept_or_stop id t m so sent cd)
    as [->|(sent1 & cd1 & -> & Hpre & Hpost)].
  - rewrite send_one_accept_all.
    destruct (IH (if decide (index so ∈ sent) then sent
                  else {[ index so ]} ∪ sent)
                (mkCallData (request cd)
                   (written cd
                    ++ chunks_of id t m so (bool_decide (index so ∈ sent)))
                   (finish cd)))
      as [->|(sent2 & cd2 & -> & Hpre2 & Hpost2)]; [now left|].
    right. exists sent2, cd2. split; [reflexivity|]. split; [|assumption].
    etransitivity; [|exact Hpre2]. cbn. now apply prefix_app_r.
  - right. exists sent1, cd1. split; [reflexivity|]. split; [assumption|].
    etransitivity; [exact Hpost|].
    destruct (send_one accept_all id t m so sent cd) as [[ok s2] cd2] eqn:E.
    rewrite send_one_accept_all in E. injection E as <- <- <-.
    apply send_deltas_accept_all_appends.
Qed.

Local Abbreviation on_output_with w :=
  (on_output status_ok status_message status_grpc_code w finish_ok).

Lemma on_output_accept_all_appends cb (o : @RequestOutput Status)
    (cd : CallData) :
  written cd `prefix_of` written (on_output_with accept_all cb o cd).2.
Proof.
  unfold on_output.
  destruct (match status o with
            | Some st => if status_ok st then None else Some st
            | None => None end) as [st|]; [reflexivity|].
  destruct (finished o).
  - cbn. now apply prefix_app_r.
  - unfold send_delta_to_client.
    pose proof (send_deltas_accept_all_appends (cb_request_id cb)
                  (cb_created_time cb) (cb_model cb) (outputs o)
                  (cb_first_message_sent cb) cd) as H.
    destruct (send_deltas _ _ _ _ _ _ cd) as [[ok s'] cd']. exact H.
Qed.

Lemma on_output_accept_or_stop cb (o : @RequestOutput Status) (cd : CallData) :
  on_output_with write_ok cb o cd = on_output_with accept_all cb o cd
  \/ exists cb' cd',
       on_output_with write_ok cb o cd = (false, cb', cd')
       /\ written cd `prefix_of` written cd'
       /\ written cd'
          `prefix_of` written (on_output_with accept_all cb o cd).2.
Proof.
  unfold on_output.
  destruct (match status o with
            | Some st => if status_ok st then None else Some st
            | None => None end) as [st|]; [now left|].
  destruct (finished o).
  - unfold send_result_to_client, write_and_finish.
    destruct (write_ok _ _); [now left|].
    right. eexists _, _. split; [reflexivity|]. cbn.
    split; [reflexivity|]. now apply prefix_app_r.
  - unfold send_delta_to_client.
    destruct (send_deltas_accept_or_stop (cb_request_id cb)
                (cb_created_time cb) (cb_model cb) (outputs o)
                (cb_first_message_sent cb) cd)
      as [->|(sent1 & cd1 & -> & Hpre & Hpost)]; [now left|].
    right. eexists _, _. split; [reflexivity|]. split; [exact Hpre|].
    destruct (send_deltas accept_all _ _ _ _ _ cd) as [[ok s'] cd'].
    exact Hpost.
Qed.

(** X3. A refused write ends a callback invocation and does nothing
    else to the stream: whatever the transport does, what the client has
    received after the call extends what it had before and is a prefix of
    what an all-accepting transport would have delivered, and a call that
    reports success has behaved exactly as with that transport. *)
Theorem refused_write_stops_callback (cb : Callback)
    (o : @RequestOutput Status) (cd : CallData) :
  written cd `prefix_of` written (on_output_with write_ok cb o cd).2
  /\ written (on_output_with write_ok cb o cd).2
     `prefix_of` written (on_output_with accept_all cb o cd).2
  /\ ((on_output_with write_ok cb o cd).1.1 = true ->
      on_output_with write_ok cb o cd = on_output_with accept_all cb o cd).
Proof.
  destruct (on_output_accept_or_stop cb o cd)
    as [->|(cb1 & cd1 & -> & Hpre & Hpost)].
  - split; [apply on_output_accept_all_appends|]. split; [reflexivity|auto].
  - split; [exact Hpre|]. split; [exact Hpost|]. cbn. discriminate.
Qed.
End BrokenTransport.

End ChatStreamFacts.

Section ChatConstructorFacts.
Import ChatHandler.
Local Open Scope list_scope.

Context {float Priority ProtoPriority Status LLMHandler : Type}.
Variable to_priority : ProtoPriority -> Priority.
Variable default_sampling_params : @SamplingParams float.
Variable finish_ok : list ChatResponse -> bool.
Variable schedule_chat_async :
  LLMHandler -> @ScheduledChat float Priority -> LLMHandler.

Local Abbreviation CallData := (@ChatCallData float ProtoPriority).
Local Abbreviation chat_async :=
  (chat_async to_priority default_sampling_params finish_ok
     schedule_chat_async).

(** X4. A handler serves exactly the models it was constructed with:
    the constructor fails a [CHECK] exactly for a null handler or an
    empty model list, and on a constructed handler [chat_async] hands
    the request to the scheduler, once and with the request's messages
    and stream flag, exactly when the requested model occurs in that
    list (however often); otherwise it finishes the call with
    [NOT_FOUND], writes nothing and leaves the scheduler alone. *)
Theorem chat_async_schedules_iff_listed (llm_handler : option LLMHandler)
    (models : list string) (uuid : string) (now : Z) (cd : CallData) :
  ((exists msg, new_ChatHandler llm_handler models = inl msg)
   <-> llm_handler = None \/ models = [])
  /\ forall h, new_ChatHandler llm_handler models = inr h ->
       Some (llm_handler_ h) = llm_handler
       /\ (In (req_model (request cd)) models ->
           exists item,
             chat_async h uuid now cd
             = (mkChatHandler (schedule_chat_async (llm_handler_ h) item)
                  (models_ h), cd)
             /\ sched_messages item = req_messages (request cd)
             /\ sched_stream item = req_stream (request cd)
             /\ cb_request_id (sched_callback item)
                = ("chatcmpl-" ++ uuid)%string)
       /\ (~ In (req_model (request cd)) models ->
           chat_async h uuid now cd
           = (h, mkCallData (request cd) (written cd)
                   (Some (NOT_FOUND, "Model not supported")))).
Proof.
  unfold new_ChatHandler. split.
  - destruct llm_handler as [lh|].
    + destruct (decide (list_to_set models = (∅ : gset string))) as [He|Hne].
      * split; [intros _; right|intros _; eauto].
        destruct models as [|m ms]; [reflexivity|].
        exfalso. cbn in He. set_solver.
      * split; [intros [msg Hmsg]; discriminate|].
        intros [Hn| ->]; [discriminate|]. now destruct Hne.
    + split; [auto|eauto].
  - intros h Hh. destruct llm_handler as [lh|]; [|discriminate].
    destruct (decide (list_to_set models = (∅ : gset string)));
      [discriminate|].
    injection Hh as <-. cbn [llm_handler_ models_].
    split; [reflexivity|]. unfold ChatHandler.chat_async.
    cbn [llm_handler_ models_]. split.
    + intros Hin. apply list_elem_of_In in Hin.
      rewrite bool_decide_eq_true_2 by (now apply elem_of_list_to_set).
      cbn [negb]. eexists. split; [reflexivity|]. repeat split.
    + intros Hnot.
      rewrite bool_decide_eq_false_2.
      * reflexivity.
      * rewrite elem_of_list_to_set. intros Hin. apply Hnot.
        now apply list_elem_of_In.
Qed.

End ChatConstructorFacts.

Lemma chat_async_schedules_iff_listed_witness :
  exists h item,
    ChatHandler.new_ChatHandler (Some []) ["llama2-7b"; "llama2-7b"]
    = inr h
    /\ ChatHandler.chat_async (fun p : unit => p) ChatHandlerExamples.params
         (fun _ => true) ChatHandlerExamples.enqueue h "0" 7
         (ChatHandler.mkCallData (ChatHandlerExamples.req "llama2-7b") []
            None)
       = (ChatHandler.mkChatHandler
            (ChatHandlerExamples.enqueue (ChatHandler.llm_handler_ h) item)
            (ChatHandler.models_ h),
          ChatHandler.mkCallData (ChatHandlerExamples.req "llama2-7b") []
            None).
Proof.
  destruct (chat_async_schedules_iff_listed (fun p : unit => p)
              ChatHandlerExamples.params (fun _ => true)
              ChatHandlerExamples.enqueue (Some [])
              ["llama2-7b"; "llama2-7b"] "0" 7
              (ChatHandler.mkCallData (ChatHandlerExamples.req "llama2-7b")
                 [] None)) as [Hfail Hok].
  destruct (ChatHandler.new_ChatHandler (Some [])
              ["llama2-7b"; "llama2-7b"]) as [msg|h] eqn:E.
  - exfalso. destruct (proj1 Hfail (ex_intro _ msg eq_refl)); discriminate.
  - destruct (Hok h eq_refl) as (_ & Hin & _).
    destruct Hin as (item & Hitem & _); [left; reflexivity|].
    exists h, item. split; [reflexivity|exact Hitem].
Defined.
Section PosEmbeddingFacts.
Import PosEmbedding.
Local Open Scope list_scope.

Lemma arange_even (d : Z) :
  (0 <= d)%Z -> Z.rem d 2 = 0%Z ->
  arange 0 d 2
  = Some ((fun i => (2 * Z.of_nat i)%Z) <$> seq 0 (Z.to_nat (d / 2))).
Proof.
  intros Hd Heven. unfold arange.
  replace (2 =? 0)%Z with false by reflexivity.
  replace (0 <? 2)%Z with true by reflexivity.
  replace (2 <? 0)%Z with false by reflexivity.
  destruct (Z.ltb_spec d 0); [lia|]. simpl andb. cbv iota.
  f_equal.
  replace ((d - 0 + 2 - Z.sgn 2) / 2)%Z with (d / 2)%Z.
  - apply list_fmap_ext. intros _ i _. lia.
  - rewrite Z.rem_mod_nonneg in Heven by lia.
    change (Z.sgn 2) with 1%Z.
    pose proof (Z.div_mod d 2). pose proof (Z.div_mod (d - 0 + 2 - 1) 2).
    pose proof (Z.mod_pos_bound (d - 0 + 2 - 1) 2). lia.
Qed.

Lemma odd_rem (d : Z) : Z.odd d = true -> Z.rem d 2 <> 0%Z.
Proof.
  intros Hodd Hrem. apply Z.rem_divide in Hrem; [|lia].
  destruct Hrem as [k ->]. rewrite Z.mul_comm, Z.odd_mul in Hodd.
  discriminate.
Qed.

Lemma even_rem (d : Z) : Z.even d = true -> Z.rem d 2 = 0%Z.
Proof.
  intros Heven. apply Z.even_spec in Heven as [k ->].
  rewrite Z.mul_comm. apply Z.rem_mul. lia.
Qed.

(** Whatever the scalar arithmetic, an even non-negative [rotary_dim]
    gives one entry per even number below it. *)
Lemma compute_default_inv_freq_even {F} `{FloatOps F} (d : Z) (theta : F) :
  Z.even d = true -> (0 <= d)%Z ->
  compute_default_inv_freq d theta
  = Returned
      ((fun i => fdiv fone
                   (fpow theta (fdiv (of_int (2 * Z.of_nat i)) (of_int d))))
         <$> seq 0 (Z.to_nat (d / 2))).
Proof.
  intros Heven Hd. unfold compute_default_inv_freq.
  rewrite (even_rem d Heven). simpl negb. cbv iota.
  rewrite arange_even by (auto using even_rem).
  f_equal. rewrite <- list_fmap_compose. reflexivity.
Qed.

Lemma compute_default_inv_freq_odd {F} `{FloatOps F} (d : Z) (theta : F) :
  Z.odd d = true ->
  compute_default_inv_freq d theta = CheckFailed "rotary_dim must be even".
Proof.
  intros Hodd. unfold compute_default_inv_freq.
  destruct (Z.eqb_spec (Z.rem d 2) 0) as [E|_]; [|reflexivity].
  now apply odd_rem in E.
Qed.

(** C10 (as amended). For an even [rotary_dim >= 2] and [theta > 0],
    [compute_default_inv_freq] returns [rotary_dim / 2] entries, and in
    exact arithmetic entry [i] is [theta] to the power
    [-(2 i) / rotary_dim]; the [CHECK] is what an odd [rotary_dim] runs
    into, and only an odd one. *)
Theorem compute_default_inv_freq_spec (rotary_dim : Z) (theta : R) :
  (Z.even rotary_dim = true -> (2 <= rotary_dim)%Z -> (0 < theta)%R ->
     exists freqs : list R,
       compute_default_inv_freq rotary_dim theta = Returned freqs
       /\ Z.of_nat (length freqs) = (rotary_dim / 2)%Z
       /\ forall i, i < length freqs ->
            freqs !! i
            = Some (Rpower theta
                      (- (2 * INR i) / IZR rotary_dim)%R))
  /\ (Z.odd rotary_dim = true ->
        compute_default_inv_freq rotary_dim theta
        = CheckFailed "rotary_dim must be even")
  /\ (Z.even rotary_dim = true ->
        compute_default_inv_freq rotary_dim theta
        <> CheckFailed "rotary_dim must be even").
Proof.
  split; [|split].
  - intros Heven Hd Htheta.
    rewrite compute_default_inv_freq_even by (auto; lia).
    eexists. split; [reflexivity|].
    rewrite length_fmap, length_seq. split.
    + apply Z2Nat.id. apply Z.div_pos; lia.
    + intros i Hi. rewrite list_lookup_fmap, lookup_seq_lt by assumption.
      cbn [fdiv fone fpow of_int RealOps Nat.add fmap option_fmap option_map].
      f_equal.
      unfold Rdiv at 1. rewrite Rmult_1_l, <- Rpower_Ropp. f_equal.
      rewrite mult_IZR, <- INR_IZR_INZ. unfold Rdiv. ring.
  - apply compute_default_inv_freq_odd.
  - intros Heven. unfold compute_default_inv_freq.
    rewrite (even_rem _ Heven). simpl.
    destruct (arange 0 rotary_dim 2); discriminate.
Qed.

Lemma one_hundredth_not_float32 : ~ is_float32 (/ 100).
Proof.
  intros (m & e & _ & _ & E).
  assert (H : IZR (100 * (m * 2 ^ (e + 149))) = IZR (2 ^ 149)).
  { rewrite (mult_IZR 100).
    assert (Hp : IZR (2 ^ 149) <> 0%R) by (apply not_0_IZR; lia).
    revert E Hp. generalize (IZR (m * 2 ^ (e + 149))) (IZR (2 ^ 149)).
    intros k P E Hp.
    assert (Hk : k = (/ 100 * P)%R) by (rewrite E; field; exact Hp).
    rewrite Hk. field. }
  apply eq_IZR in H. lia.
Qed.

Lemma rpower_minus_half : Rpower 10000 (- (2 * INR 1) / IZR 4) = (/ 100)%R.
Proof.
  replace (- (2 * INR 1) / IZR 4)%R with (- / 2)%R by (simpl; field).
  rewrite Rpower_Ropp, Rpower_sqrt by lra. f_equal.
  replace 10000%R with (100 * 100)%R by lra. apply sqrt_square. lra.
Qed.

(** In a tensor of [kFloat32] the closed form of C10 cannot hold entry by
    entry: for [rotary_dim = 4] and [theta = 10000] the exact value of
    entry 1 is [10000 ^ (-2/4) = 1/100], which is not a binary32 number.
    So whatever scalar type with float32 values the function is run on,
    entry 1 of its result differs from the closed form. *)
Lemma inv_freq_entry_not_float32 :
  (exists freqs : list R,
     compute_default_inv_freq 4 10000%R = Returned freqs
     /\ freqs !! 1 = Some (Rpower 10000 (- (2 * INR 1) / IZR 4)))
  /\ Rpower 10000 (- (2 * INR 1) / IZR 4) = (/ 100)%R
  /\ ~ is_float32 (/ 100)
  /\ (forall (F : Type) (ops : FloatOps F) (val : F -> R),
        (forall x, is_float32 (val x)) ->
        forall (theta : F) (freqs : list F) (x : F),
          compute_default_inv_freq 4 theta = Returned freqs ->
          freqs !! 1 = Some x ->
          val x <> Rpower 10000 (- (2 * INR 1) / IZR 4)).
Proof.
  split; [|split; [|split]].
  - rewrite compute_default_inv_freq_even by (reflexivity || lia).
    eexists. split; [reflexivity|].
    change (Z.to_nat (4 / 2)) with 2. cbn [seq fmap list_fmap lookup list_lookup].
    cbn [fdiv fone fpow of_int RealOps]. f_equal.
    unfold Rdiv at 1. rewrite Rmult_1_l, <- Rpower_Ropp. f_equal.
    change (IZR (2 * Z.of_nat 1)) with 2%R. change (INR 1) with 1%R. lra.
  - exact rpower_minus_half.
  - exact one_hundredth_not_float32.
  - intros F ops val Hval theta freqs x _ _ Hx.
    apply one_hundredth_not_float32.
    rewrite <- rpower_minus_half, <- Hx. apply Hval.
Qed.
End PosEmbeddingFacts.

Lemma compute_default_inv_freq_spec_witness :
  exists freqs : list R,
    PosEmbedding.compute_default_inv_freq 4 10000%R = PosEmbedding.Returned freqs
    /\ Z.of_nat (length freqs) = (4 / 2)%Z
    /\ forall i, i < length freqs ->
         freqs !! i = Some (Rpower 10000 (- (2 * INR i) / IZR 4)%R).
Proof.
  apply (proj1 (compute_default_inv_freq_spec 4 10000%R)).
  - reflexivity.
  - lia.
  - lra.
Defined.

Section AttentionHandlerFacts.
Import AttentionHandler.

Context {float Tensor RopeScaling ScalarType Device : Type}.
Variable is_cuda : Device -> bool.
Variable inv_sqrt : Z -> float.
Variable times_pct : Z -> float -> Z.

Local Abbreviation Args := (@ModelArgs float RopeScaling).
Local Abbreviation with_alibi :=
  (@create_handler_with_alibi float Tensor RopeScaling ScalarType Device
     is_cuda inv_sqrt).
Local Abbreviation with_rope :=
  (@create_handler_with_rope float Tensor RopeScaling ScalarType Device
     is_cuda inv_sqrt times_pct).
Local Abbreviation kind_of :=
  (@created_kind float Tensor RopeScaling ScalarType Device).
Local Abbreviation scale_of :=
  (@created_scale float Tensor RopeScaling ScalarType Device).

(** Two names that differ beyond letter case are never both matched. *)
Lemma iequals_exclusive (flag a b : string) :
  CausalLM.iequals a b = false ->
  CausalLM.iequals flag a = true -> CausalLM.iequals flag b = false.
Proof.
  intros Hab Ha. destruct (CausalLM.iequals flag b) eqn:Eb; [|reflexivity].
  rewrite iequals_sym in Ha. rewrite (iequals_trans _ _ _ Ha Eb) in Hab.
  discriminate.
Qed.

(** Case analysis on the three comparisons of the flag. *)
Ltac flag_cases flag :=
  unfold names_flash;
  destruct (CausalLM.iequals flag "pytorch") eqn:Epy;
    [ rewrite ?(iequals_exclusive flag "pytorch" "flash_attn" eq_refl Epy),
        ?(iequals_exclusive flag "pytorch" "flash_infer" eq_refl Epy)
    | destruct (CausalLM.iequals flag "flash_attn") eqn:Efa;
        [ rewrite ?(iequals_exclusive flag "flash_attn" "flash_infer"
                      eq_refl Efa)
        | destruct (CausalLM.iequals flag "flash_infer") eqn:Efi ] ].

(** On [int64_t] operands the division is undefined for a zero divisor
    and for the least value divided by [-1], and defined otherwise. *)
Lemma div64_defined_iff (a b : Z) :
  (- 2 ^ 63 <= a < 2 ^ 63)%Z -> (- 2 ^ 63 <= b < 2 ^ 63)%Z ->
  is_Some (Llama2FeedForward.div64 a b)
  <-> b <> 0%Z /\ ~ (a = (- 2 ^ 63)%Z /\ b = (-1)%Z).
Proof.
  intros Ha Hb. unfold Llama2FeedForward.div64, Llama2FeedForward.int64.
  destruct (Z.eqb_spec b 0) as [->|Hne].
  - split; [intros [x Hx]; discriminate Hx|intros [H _]; congruence].
  - assert (Hq : (Z.abs (a ÷ b) <= Z.abs a)%Z).
    { rewrite <- Z.quot_abs by assumption.
      apply Z.quot_le_upper_bound; [lia|]. nia. }
    destruct (decide (a = (- 2 ^ 63)%Z /\ b = (-1)%Z)) as [[-> ->]|Hno].
    + split; [intros [x Hx]; discriminate Hx|intros [_ H]; exfalso; auto].
    + assert (Hr : (- 2 ^ 63 <= a ÷ b < 2 ^ 63)%Z).
      { destruct (decide (b = (-1)%Z)) as [->|Hb1].
        - change (-1)%Z with (- (1))%Z.
          rewrite (Z.quot_opp_r a 1) by lia. rewrite Z.quot_1_r. lia.
        - destruct (decide (a = (- 2 ^ 63)%Z)) as [->|Ha1]; [|lia].
          destruct (decide (b = 1%Z)) as [->|Hb2];
            [rewrite Z.quot_1_r; lia|].
          assert (Z.abs (- 2 ^ 63 ÷ b) <= 2 ^ 62)%Z; [|lia].
          rewrite <- Z.quot_abs by assumption.
          apply Z.quot_le_upper_bound; lia. }
      split; [intros _; split; assumption|intros _].
      destruct (Z.leb_spec (- 2 ^ 63) (a ÷ b)); [|lia].
      destruct (Z.ltb_spec (a ÷ b) (2 ^ 63)); [|lia].
      eexists; reflexivity.
Qed.

(** X5. A flash handler is only ever built for a CUDA device: whatever the
    flag says, a handler that either factory returns for a device that is
    not CUDA is the reference handler. *)
Theorem flash_only_on_cuda (flag : string) (args : Args) (device : Device)
    (alibi_slopes : option Tensor) (interleaved : bool) (dtype : ScalarType)
    (k : HandlerKind) :
  kind_of (with_alibi flag args device alibi_slopes) = Some k
  \/ kind_of (with_rope flag args interleaved dtype device) = Some k ->
  is_cuda device = false ->
  k = RefHandler.
Proof.
  unfold create_handler_with_alibi, create_handler_with_rope.
  intros H Hc. rewrite Hc in H.
  destruct (Llama2FeedForward.div64 _ _) as [head_dim|];
    [|destruct H; discriminate].
  flag_cases flag; cbn in H; destruct H as [H|H]; congruence.
Qed.

(** X6. When the division [hidden_size() / n_heads()] is defined, a
    factory fails its [CHECK] exactly when the flag names a flash
    implementation, in any letter case, and the device is not CUDA; any
    other flag value, recognised or not, yields a handler.  When the
    division is not defined no factory gets as far as its [CHECK]; for
    [int64_t] operands that is the case for [n_heads() == 0] and for the
    least [int64_t] divided by [-1], and for no other operands. *)
Theorem check_fails_iff_flash_off_cuda (flag : string) (args : Args)
    (device : Device) (alibi_slopes : option Tensor) (interleaved : bool)
    (dtype : ScalarType) :
  ((exists msg, with_alibi flag args device alibi_slopes = CheckFailed msg)
   <-> head_dim_defined args
       /\ names_flash flag = true /\ is_cuda device = false)
  /\ ((exists msg,
         with_rope flag args interleaved dtype device = CheckFailed msg)
      <-> head_dim_defined args
          /\ names_flash flag = true /\ is_cuda device = false)
  /\ (head_dim_defined args ->
      names_flash flag && negb (is_cuda device) = false ->
      exists h1 h2,
        with_alibi flag args device alibi_slopes = Created h1
        /\ with_rope flag args interleaved dtype device = Created h2)
  /\ (~ head_dim_defined args ->
      with_alibi flag args device alibi_slopes = UndefinedDivision
      /\ with_rope flag args interleaved dtype device = UndefinedDivision)
  /\ ((- 2 ^ 63 <= hidden_size args < 2 ^ 63)%Z ->
      (- 2 ^ 63 <= n_heads args < 2 ^ 63)%Z ->
      (head_dim_defined args
       <-> n_heads args <> 0%Z
           /\ ~ (hidden_size args = (- 2 ^ 63)%Z /\ n_heads args = (-1)%Z))).
Proof.
  unfold head_dim_defined.
  split; [|split; [|split; [|split]]].
  5:{ intros Hh Hn. apply div64_defined_iff; assumption. }
  all: unfold create_handler_with_alibi, create_handler_with_rope.
  all: destruct (Llama2FeedForward.div64 _ _) as [head_dim|].
  all: try (split; [intros [msg H]; discriminate H
                   |intros [[x Hx] _]; discriminate Hx]).
  all: try (intros [x Hx]; discriminate Hx).
  all: try (intros _; split; reflexivity).
  all: try (intros H; exfalso; apply H; eexists; reflexivity).
  all: flag_cases flag; destruct (is_cuda device); cbn;
    try (split;
         [ intros [msg H]; try discriminate H;
           (split; [eexists; reflexivity|split; reflexivity])
         | intros (_ & H1 & H2); try discriminate H1; try discriminate H2;
           eexists; reflexivity ]);
    try (intros _ H; try discriminate H; do 2 eexists; split; reflexivity).
Qed.

(** X7. The flag is read without regard to letter case: two values that
    differ only in the case of their letters make both factories return the
    same result. *)
Theorem handler_flag_case_insensitive (flag flag' : string) (args : Args)
    (device : Device) (alibi_slopes : option Tensor) (interleaved : bool)
    (dtype : ScalarType) :
  CausalLM.differ_only_in_case flag flag' ->
  with_alibi flag args device alibi_slopes
  = with_alibi flag' args device alibi_slopes
  /\ with_rope flag args interleaved dtype device
     = with_rope flag' args interleaved dtype device.
Proof.
  intros H. apply iequals_spec in H.
  unfold create_handler_with_alibi, create_handler_with_rope.
  destruct (Llama2FeedForward.div64 _ _) as [head_dim|];
    [|split; reflexivity].
  rewrite !(iequals_congr _ _ _ H). split; reflexivity.
Qed.

(** X8. For the same flag, model and device the two factories make the
    same choice: both return the same implementation with the same scale,
    or neither returns a handler. *)
Theorem alibi_and_rope_agree (flag : string) (args : Args) (device : Device)
    (alibi_slopes : option Tensor) (interleaved : bool) (dtype : ScalarType) :
  kind_of (with_alibi flag args device alibi_slopes)
  = kind_of (with_rope flag args interleaved dtype device)
  /\ scale_of (with_alibi flag args device alibi_slopes)
     = scale_of (with_rope flag args interleaved dtype device).
Proof.
  unfold create_handler_with_alibi, create_handler_with_rope.
  destruct (Llama2FeedForward.div64 _ _) as [head_dim|];
    [|split; reflexivity].
  flag_cases flag; destruct (is_cuda device); split; reflexivity.
Qed.

End AttentionHandlerFacts.

Lemma flash_only_on_cuda_witness :
  AttentionHandler.created_kind
    (AttentionHandlerExamples.with_rope "auto" false)
  = Some AttentionHandler.RefHandler
  /\ AttentionHandler.RefHandler = AttentionHandler.RefHandler.
Proof.
  split; [reflexivity|].
  apply (@flash_only_on_cuda unit unit unit unit bool (fun d : bool => d)
           (fun _ => tt) (fun d _ => d) "auto" AttentionHandlerExamples.args
           false None false tt AttentionHandler.RefHandler).
  - right. reflexivity.
  - reflexivity.
Defined.

Lemma check_fails_iff_flash_off_cuda_witness :
  (exists msg,
     AttentionHandlerExamples.with_rope "Flash_Infer" false
     = AttentionHandler.CheckFailed msg)
  /\ exists h, AttentionHandlerExamples.with_alibi "flash_atn" false
               = AttentionHandler.Created h.
Proof.
  split.
  - apply (@check_fails_iff_flash_off_cuda unit unit unit unit bool
             (fun d : bool => d) (fun _ => tt)
             (fun d _ => d) "Flash_Infer" AttentionHandlerExamples.args false
             None false tt).
    split; [eexists; reflexivity|split; reflexivity].
  - destruct (@check_fails_iff_flash_off_cuda unit unit unit unit bool
                (fun d : bool => d) (fun _ => tt) (fun d _ => d) "flash_atn"
                AttentionHandlerExamples.args false None false tt)
      as (_ & _ & H & _).
    destruct (H ltac:(eexists; reflexivity) eq_refl) as (h1 & _ & E & _).
    exists h1. exact E.
Defined.

Lemma handler_flag_case_insensitive_witness :
  AttentionHandlerExamples.with_alibi "PyTorch" true
  = AttentionHandlerExamples.with_alibi "pytorch" true
  /\ AttentionHandlerExamples.with_rope "PyTorch" true
     = AttentionHandlerExamples.with_rope "pytorch" true.
Proof.
  apply (@handler_flag_case_insensitive unit unit unit unit bool
           (fun d : bool => d) (fun _ => tt)
           (fun d _ => d) "PyTorch" "pytorch" AttentionHandlerExamples.args
           true None false tt).
  apply iequals_spec. reflexivity.
Defined.
Section AllocatorFacts.
Import Core.
Local Open Scope list_scope.

Lemma retain_length ids rc : length (retain ids rc) = length rc.
Proof.
  induction ids as [|id ids IH]; simpl; [reflexivity|].
  now rewrite length_alter.
Qed.

Lemma retain_lookup_notin ids rc (id : nat) :
  id ∉ ids -> retain ids rc !! id = rc !! id.
Proof.
  induction ids as [|x ids IH]; simpl; intros Hn; [reflexivity|].
  apply not_elem_of_cons in Hn as [Hne Hn].
  rewrite list_lookup_alter_ne by congruence. now apply IH.
Qed.

Lemma retain_lookup_in ids rc (id : nat) :
  NoDup ids -> id ∈ ids -> retain ids rc !! id = S <$> rc !! id.
Proof.
  induction ids as [|x ids IH]; simpl; intros Hnd Hin.
  - now apply elem_of_nil in Hin.
  - apply NoDup_cons in Hnd as [Hx Hnd].
    apply elem_of_cons in Hin as [->|Hin].
    + rewrite list_lookup_alter_eq. now rewrite retain_lookup_notin.
    + rewrite list_lookup_alter_ne by (intros ->; contradiction).
      now apply IH.
Qed.

(** [allocate] on a pool with enough free blocks. *)
Lemma allocate_enough (count : nat) (a : BlockAllocator) :
  count <= num_free a ->
  allocate count a =
    (inr (take count (free_list a)),
     mkAllocator (retain (take count (free_list a)) (ref_count a))
                 (drop count (free_list a))).
Proof. intros H. unfold allocate. now rewrite decide_True. Qed.

(** [allocate] on a pool with too few free blocks. *)
Lemma allocate_starved (count : nat) (a : BlockAllocator) :
  num_free a < count -> allocate count a = (inl OutOfBlocks, a).
Proof. intros H. unfold allocate. rewrite decide_False; [reflexivity|lia]. Qed.

Lemma allocate_cases (count : nat) (a : BlockAllocator) :
  (count <= num_free a /\
   exists ids a', allocate count a = (inr ids, a') /\ length ids = count
                  /\ num_free a' = num_free a - count)
  \/ (num_free a < count /\ allocate count a = (inl OutOfBlocks, a)).
Proof.
  destruct (decide (count <= num_free a)) as [H|H].
  - left. split; [assumption|]. rewrite allocate_enough by assumption.
    eexists _, _. split; [reflexivity|]. unfold num_free in *. simpl.
    rewrite length_take, length_drop. lia.
  - right. split; [lia|]. apply allocate_starved. lia.
Qed.

Lemma allocate_wf (count : nat) (a a' : BlockAllocator) ids :
  allocator_wf a -> allocate count a = (inr ids, a') ->
  allocator_wf a'
  /\ NoDup ids
  /\ (forall id, id ∈ ids ->
        ref_count a !! id = Some 0 /\ ref_count a' !! id = Some 1)
  /\ (forall id, id ∉ ids -> ref_count a' !! id = ref_count a !! id).
Proof.
  intros [Hnd Hfree] Halloc. unfold allocate in Halloc.
  destruct (decide (count <= num_free a)) as [Hle|]; [|discriminate].
  injection Halloc as <- <-. simpl.
  assert (Hsplit : free_list a = take count (free_list a) ++ drop count (free_list a))
    by now rewrite take_drop.
  assert (Hnd' := Hnd). rewrite Hsplit in Hnd'.
  apply NoDup_app in Hnd' as (Hnd1 & Hdisj & Hnd2).
  assert (Htake : forall id, id ∈ take count (free_list a) -> id ∈ free_list a).
  { intros id Hin. rewrite Hsplit. apply elem_of_app. now left. }
  split; [split|split; [|split]]; simpl.
  - exact Hnd2.
  - intros id. split.
    + intros Hin.
      assert (Hnot : id ∉ take count (free_list a)).
      { intros Hin1. exact (Hdisj id Hin1 Hin). }
      rewrite retain_lookup_notin by assumption. apply Hfree.
      rewrite Hsplit. apply elem_of_app. now right.
    + intros Hrc.
      destruct (decide (id ∈ take count (free_list a))) as [Hin|Hnot].
      * rewrite retain_lookup_in in Hrc by assumption.
        apply Htake, Hfree in Hin. rewrite Hin in Hrc. discriminate.
      * rewrite retain_lookup_notin in Hrc by assumption.
        apply Hfree in Hrc. rewrite Hsplit in Hrc.
        apply elem_of_app in Hrc as [?|?]; [contradiction|assumption].
  - exact Hnd1.
  - intros id Hin. pose proof (Htake id Hin) as Hf. apply Hfree in Hf.
    split; [assumption|]. rewrite retain_lookup_in by assumption.
    now rewrite Hf.
  - intros id Hnot. now apply retain_lookup_notin.
Qed.

Lemma new_allocator_wf (N : nat) : allocator_wf (new_allocator N).
Proof.
  unfold new_allocator. split; simpl.
  - apply NoDup_ListNoDup, List.seq_NoDup.
  - intros id. rewrite elem_of_seq. split.
    + intros [_ H]. apply lookup_replicate_2. lia.
    + intros H. apply lookup_replicate in H. lia.
Qed.
End AllocatorFacts.
Section BatchBuilderFacts.
Import Core.
Local Open Scope list_scope.

Lemma ceil_div_covers (a b : nat) : 0 < b -> a <= ceil_div a b * b.
Proof.
  intros Hb. unfold ceil_div.
  pose proof (Nat.div_mod_eq (a + b - 1) b) as E.
  pose proof (Nat.mod_upper_bound (a + b - 1) b) as U.
  nia.
Qed.

Lemma pick_victim_in (l : list Sequence) v :
  pick_victim l = Some v -> exists s, s ∈ l /\ owner s = v.
Proof.
  revert v. induction l as [|s l IH]; simpl; intros v; [discriminate|].
  destruct (pick_victim l) as [w|] eqn:E.
  - destruct (evicted_before (owner s) w); intros [= <-].
    + exists s. split; [left|reflexivity].
    + destruct (IH _ eq_refl) as (x & Hx & Ho). exists x.
      split; [now right|assumption].
  - intros [= <-]. exists s. split; [left|reflexivity].
Qed.

Lemma pick_victim_none (l : list Sequence) :
  pick_victim l = None -> l = [].
Proof.
  destruct l as [|s l]; [reflexivity|]. simpl.
  destruct (pick_victim l) as [w|]; [|discriminate].
  destruct (evicted_before _ _); discriminate.
Qed.

Lemma filter_out_shrinks {A} (P : A -> Prop) `{!forall x, Decision (P x)}
    (l : list A) (x : A) :
  x ∈ l -> P x -> length (filter (fun y => ~ P y) l) < length l.
Proof.
  induction l as [|y l IH]; intros Hin HP.
  - now apply elem_of_nil in Hin.
  - rewrite filter_cons. apply elem_of_cons in Hin as [<-|Hin].
    + rewrite decide_False by tauto.
      pose proof (length_filter (fun y => ~ P y) l). simpl. lia.
    + specialize (IH Hin HP). destruct (decide (~ P y)); simpl; lia.
Qed.

Lemma Forall_filter_keep {A} (P Q : A -> Prop) `{!forall x, Decision (Q x)}
    (l : list A) :
  Forall P l -> Forall P (filter Q l).
Proof.
  induction 1 as [|x l Hx _ IH]; [constructor|].
  rewrite filter_cons. destruct (decide (Q x)); [constructor|]; assumption.
Qed.

Lemma recompute_all_spec (l : list Sequence) (a : BlockAllocator) :
  Forall2 (fun s x => owner x = owner s
                      /\ num_prompt_tokens x = num_prompt_tokens s
                      /\ block_table x = []
                      /\ tokens x = take (num_prompt_tokens s) (tokens s))
          l (recompute_all l a).1.
Proof.
  revert a. induction l as [|s l IH]; intros a; cbn [recompute_all];
    [constructor|].
  destruct (recompute s a) as [s' a1] eqn:E1.
  specialize (IH a1). destruct (recompute_all l a1) as [rest a2].
  cbn [fst] in *. constructor; [|assumption].
  unfold recompute, release_blocks in E1. injection E1 as <- _. simpl. auto.
Qed.

Section Pass.
Variable block_size : nat.

(** The decode pass always comes back with an outcome: the fuel is
    enough, and the allocator's [OutOfBlocks] is answered inside the
    pass. *)
Lemma decode_pass_fuel_total fuel : forall todo selected waiting a,
  2 * length todo + length selected < fuel ->
  exists d a',
    decode_pass_fuel fuel block_size todo selected waiting a
    = Some (inr d, a').
Proof.
  induction fuel as [|fuel IH]; intros todo selected waiting a Hfuel;
    [lia|].
  destruct todo as [|s todo']; simpl; [eauto|].
  destruct (allocate_cases (num_blocks_needed block_size s) a)
    as [(_ & ids & a1 & -> & _ & _)|[_ ->]].
  - apply IH. rewrite length_app. simpl in *. lia.
  - destruct (pick_victim (selected ++ s :: todo')) as [v|] eqn:Ev;
      [|eauto].
    destruct (recompute_all _ a) as [gone a2].
    destruct (decide (num_free a < num_free a2)); [|eauto].
    apply IH.
    destruct (pick_victim_in _ _ Ev) as (x & Hx & Hox).
    assert (Hv : of_request v x) by (unfold of_request; now rewrite Hox).
    pose proof (length_filter (fun y => ~ of_request v y) selected).
    pose proof (length_filter (fun y => ~ of_request v y) (s :: todo')).
    apply elem_of_app in Hx as [Hx|Hx].
    + pose proof (filter_out_shrinks (of_request v) _ _ Hx Hv). lia.
    + pose proof (filter_out_shrinks (of_request v) _ _ Hx Hv). lia.
Qed.

Lemma decode_pass_total (running : list Sequence) a :
  exists d a', decode_pass block_size running a = Some (inr d, a').
Proof.
  apply decode_pass_fuel_total. unfold decode_fuel. simpl. lia.
Qed.

(** A Sequence the decode pass selects holds blocks for one token more
    than it has. *)
Lemma reserve_room_for_one s ids :
  0 < block_size -> length ids = num_blocks_needed block_size s ->
  room_for_one block_size (append_blocks s ids).
Proof.
  intros Hb Hlen. unfold room_for_one, append_blocks, num_blocks_needed in *.
  simpl. rewrite length_app, Hlen.
  pose proof (ceil_div_covers (length (tokens s) + 1) block_size Hb). nia.
Qed.

Lemma decode_pass_fuel_room fuel : forall todo selected waiting a d a',
  0 < block_size ->
  Forall (room_for_one block_size) selected ->
  decode_pass_fuel fuel block_size todo selected waiting a
    = Some (inr d, a') ->
  Forall (room_for_one block_size) (decoding d).
Proof.
  induction fuel as [|fuel IH]; intros todo selected waiting a d a' Hb Hsel;
    [discriminate|].
  destruct todo as [|s todo']; simpl.
  { intros [= <- <-]. exact Hsel. }
  destruct (allocate_cases (num_blocks_needed block_size s) a)
    as [(_ & ids & a1 & -> & Hlen & _)|[_ ->]].
  - apply IH; [assumption|]. apply Forall_app. split; [assumption|].
    constructor; [|constructor]. now apply reserve_room_for_one.
  - destruct (pick_victim (selected ++ s :: todo')) as [v|] eqn:Ev.
    + destruct (recompute_all _ a) as [gone a2].
      destruct (decide (num_free a < num_free a2)).
      * apply IH; [assumption|]. now apply Forall_filter_keep.
      * intros [= <- <-]. simpl. now apply Forall_filter_keep.
    + intros [= <- <-]. exact Hsel.
Qed.

(** Nothing leaves the waiting pool during the decode pass. *)
Lemma decode_pass_fuel_waiting fuel : forall todo selected waiting a d a',
  decode_pass_fuel fuel block_size todo selected waiting a
    = Some (inr d, a') ->
  waiting `prefix_of` requeued d.
Proof.
  induction fuel as [|fuel IH]; intros todo selected waiting a d a';
    [discriminate|].
  destruct todo as [|s todo']; simpl.
  { intros [= <- <-]. reflexivity. }
  destruct (allocate_cases (num_blocks_needed block_size s) a)
    as [(_ & ids & a1 & -> & Hlen & _)|[_ ->]].
  - apply IH.
  - destruct (pick_victim (selected ++ s :: todo')) as [v|] eqn:Ev.
    + destruct (recompute_all _ a) as [gone a2].
      destruct (decide (num_free a < num_free a2)).
      * intros H. apply IH in H. etransitivity; [|exact H].
        now apply prefix_app_r.
      * intros [= <- <-]. simpl. now apply prefix_app_r.
    + intros [= <- <-]. reflexivity.
Qed.

(** When the allocator cannot serve the head of [running], the
    preempt-one hook runs: the victim's Request is back in the waiting
    pool, in recompute state. *)
Lemma decode_pass_starved_preempts s (rest : list Sequence) a d a' :
  num_free a < num_blocks_needed block_size s ->
  decode_pass block_size (s :: rest) a = Some (inr d, a') ->
  exists v x,
    pick_victim (s :: rest) = Some v
    /\ x ∈ requeued d /\ owner x = v /\ block_table x = []
    /\ length (tokens x) <= num_prompt_tokens x.
Proof.
  intros Hstarved. unfold decode_pass, decode_fuel.
  replace (2 * length (s :: rest) + 1) with (S (2 * length (s :: rest)))
    by lia.
  cbn [decode_pass_fuel].
  rewrite (allocate_starved _ _ Hstarved).
  change ([] ++ s :: rest) with (s :: rest).
  destruct (pick_victim (s :: rest)) as [v|] eqn:Ev.
  2:{ apply pick_victim_none in Ev. discriminate. }
  destruct (pick_victim_in _ _ Ev) as (y & Hy & Hoy).
  pose proof (recompute_all_spec (filter (of_request v) (s :: rest)) a)
    as Hspec.
  destruct (recompute_all _ a) as [gone a2]. simpl in Hspec.
  assert (Hyf : y ∈ filter (of_request v) (s :: rest)).
  { apply list_elem_of_filter. split; [|assumption].
    unfold of_request. now rewrite Hoy. }
  apply list_elem_of_lookup in Hyf as [i Hi].
  destruct (Forall2_lookup_l _ _ _ _ _ Hspec Hi)
    as (x & Hx & Hox & Hnpt & Hbt & Htok).
  assert (Hxg : x ∈ gone) by (eapply list_elem_of_lookup_2; eauto).
  assert (Hgoal : forall w, [] ++ gone `prefix_of` w ->
            exists v0 x0, Some v = Some v0 /\ x0 ∈ w /\ owner x0 = v0
              /\ block_table x0 = []
              /\ length (tokens x0) <= num_prompt_tokens x0).
  { intros w Hw. exists v, x. split; [reflexivity|].
    split; [|split; [congruence|split; [assumption|]]].
    - destruct Hw as [k ->]. simpl. apply elem_of_app. now left.
    - rewrite Htok, Hnpt, length_take. lia. }
  destruct (decide (num_free a < num_free a2)).
  - intros H. apply decode_pass_fuel_waiting in H. now apply Hgoal.
  - intros [= <- <-]. simpl. now apply Hgoal.
Qed.
End Pass.
End BatchBuilderFacts.
Section BuildBatchFacts.
Import Core.
Local Open Scope list_scope.
Variable block_size : nat.

(** The prefill pass never fails: a prompt is only allocated for after it
    was found to fit the free blocks. *)
Lemma prefill_pass_total (queue : list Sequence) : forall budget a,
  exists accepted skipped a',
    prefill_pass block_size budget queue a = (inr (accepted, skipped), a').
Proof.
  induction queue as [|s queue IH]; intros budget a; simpl; [eauto|].
  destruct (decide _) as [[Hfit Hblocks]|_]; [|eauto].
  rewrite (allocate_enough _ _ Hblocks).
  edestruct IH as (adm & sk & a2 & ->). eauto.
Qed.

Lemma prefill_pass_capacity (queue : list Sequence) :
  forall budget a accepted skipped a',
  0 < block_size ->
  prefill_pass block_size budget queue a = (inr (accepted, skipped), a') ->
  Forall (capacity_ok block_size) accepted.
Proof.
  induction queue as [|s queue IH]; intros budget a accepted skipped a' Hb;
    simpl.
  { intros [= <- <- <-]. constructor. }
  destruct (decide _) as [[Hfit Hblocks]|_].
  2:{ intros [= <- <- <-]. constructor. }
  rewrite (allocate_enough _ _ Hblocks).
  destruct (prefill_pass _ _ queue _) as [[e|[adm sk]] a2] eqn:E;
    [discriminate|].
  intros [= <- <- <-]. constructor; [|eapply IH; eauto].
  unfold capacity_ok, append_blocks. simpl.
  rewrite length_app, length_take.
  unfold blocks_for, num_free in *.
  pose proof (ceil_div_covers (length (tokens s)) block_size Hb). nia.
Qed.

(** What a batch is made of: prompts with their blocks, and running
    Sequences with room for the token the step will append. *)
Lemma build_batch_plan T_max running waiting a r a' :
  build_batch block_size T_max running waiting a = Some (inr r, a') ->
  exists prefills decodes,
    match outcome r with
    | Plan p => p = make_plan prefills decodes /\ p <> []
    | NoProgress => make_plan prefills decodes = []
    end
    /\ (0 < block_size ->
        Forall (capacity_ok block_size) prefills
        /\ Forall (room_for_one block_size) decodes).
Proof.
  unfold build_batch.
  destruct (decode_pass block_size running a) as [[[e|d] a1]|] eqn:Ed;
    try discriminate.
  assert (Hroom : 0 < block_size -> Forall (room_for_one block_size) (decoding d)).
  { intros Hb. eapply decode_pass_fuel_room; [exact Hb|constructor|exact Ed]. }
  assert (Hfinish : forall prefills skipped,
    (0 < block_size -> Forall (capacity_ok block_size) prefills) ->
    finish_batch d prefills skipped = r ->
    exists prefills decodes,
      match outcome r with
      | Plan p => p = make_plan prefills decodes /\ p <> []
      | NoProgress => make_plan prefills decodes = []
      end
      /\ (0 < block_size ->
          Forall (capacity_ok block_size) prefills
          /\ Forall (room_for_one block_size) decodes)).
  { intros prefills skipped Hcap <-. exists prefills, (decoding d).
    split; [|auto]. unfold finish_batch. simpl.
    destruct (make_plan prefills (decoding d)) eqn:E; [reflexivity|].
    split; [reflexivity|discriminate]. }
  destruct (smallest_waiting_prompt _) as [m|].
  - destruct (decide (m <= _)).
    + destruct (prefill_pass _ _ _ a1) as [[e|[prefills skipped]] a2] eqn:Ep;
        [discriminate|].
      intros [= <- <-]. eapply Hfinish; [|reflexivity].
      intros Hb. eapply prefill_pass_capacity; eauto.
    + intros [= <- <-]. eapply Hfinish; [|reflexivity]. constructor.
  - intros [= <- <-]. eapply Hfinish; [|reflexivity]. constructor.
Qed.

(** The batch builder always returns a result, and the result is never an
    error. *)
Lemma build_batch_total T_max running waiting a :
  exists r a', build_batch block_size T_max running waiting a
               = Some (inr r, a').
Proof.
  unfold build_batch.
  destruct (decode_pass_total block_size running a) as (d & a1 & ->).
  destruct (smallest_waiting_prompt _) as [m|]; [|eauto].
  destruct (decide (m <= _)); [|eauto].
  edestruct (prefill_pass_total (by_priority (waiting ++ requeued d)))
    as (adm & sk & a2 & ->). eauto.
Qed.
End BuildBatchFacts.

(** C5. [allocate(count)] on a pool with at least [count] free blocks
    returns exactly [count] ids (distinct, free before and referenced once
    after, on a well-formed pool) and takes them off the free list; on a
    pool with fewer free blocks it fails with [OutOfBlocks] and leaves the
    allocator as it was.  In the batch builder that failure triggers
    preemption (the victim's Request is back in the waiting pool with no
    blocks), and the builder's result is never an error, so [OutOfBlocks]
    reaches no caller. *)
Theorem allocate_out_of_blocks (count : nat) (a : Core.BlockAllocator) :
  (count <= Core.num_free a ->
     exists ids a',
       Core.allocate count a = (inr ids, a')
       /\ length ids = count
       /\ Core.num_free a' = Core.num_free a - count
       /\ (Core.allocator_wf a ->
           Core.allocator_wf a' /\ NoDup ids
           /\ forall id, id ∈ ids ->
                Core.ref_count a !! id = Some 0
                /\ Core.ref_count a' !! id = Some 1))
  /\ (Core.num_free a < count ->
        Core.allocate count a = (inl Core.OutOfBlocks, a))
  /\ (forall block_size s rest,
        Core.num_free a < Core.num_blocks_needed block_size s ->
        exists d a' v x,
          Core.decode_pass block_size (s :: rest) a = Some (inr d, a')
          /\ Core.pick_victim (s :: rest) = Some v
          /\ x ∈ Core.requeued d /\ Core.owner x = v
          /\ Core.block_table x = [])
  /\ (forall block_size T_max running waiting,
        exists r a',
          Core.build_batch block_size T_max running waiting a
          = Some (inr r, a')).
Proof.
  split; [|split; [|split]].
  - intros Hle.
    destruct (allocate_cases count a) as [(_ & ids & a' & E & Hlen & Hfree)|[? _]];
      [|lia].
    exists ids, a'. split; [assumption|]. split; [assumption|].
    split; [assumption|]. intros Hwf.
    destruct (allocate_wf _ _ _ _ Hwf E) as (? & ? & Hids & _). auto.
  - apply allocate_starved.
  - intros block_size s rest Hstarved.
    destruct (decode_pass_total block_size (s :: rest) a) as (d & a' & E).
    destruct (decode_pass_starved_preempts _ _ _ _ _ _ Hstarved E)
      as (v & x & Hv & Hx & Ho & Hbt & _).
    exists d, a', v, x. auto.
  - intros. apply build_batch_total.
Qed.
Section PlanFacts.
Import Core.
Local Open Scope list_scope.

(** **** Slices with non-negative bounds are [take] and [drop]. *)
Ltac case_bounds :=
  repeat match goal with
         | |- context [Z.ltb ?a ?b] => destruct (Z.ltb_spec a b); try lia
         | |- context [Z.leb ?a ?b] => destruct (Z.leb_spec a b); try lia
         end.

Lemma slice_bounds_nonneg (size start : Z) (stop : option Z) :
  (0 <= size)%Z -> (0 <= start)%Z -> (forall e, stop = Some e -> 0 <= e)%Z ->
  Llama2.slice_bounds size start stop
  = (Z.min start size,
     Z.max (Z.min start size) (Z.min (default size stop) size)).
Proof.
  intros Hsize Hstart Hstop. unfold Llama2.slice_bounds. cbv zeta.
  rewrite (proj2 (Z.ltb_ge start 0)) by lia.
  destruct stop as [e|]; simpl;
    [specialize (Hstop e eq_refl); rewrite (proj2 (Z.ltb_ge e 0)) by lia|];
    case_bounds; f_equal; lia.
Qed.

Lemma take_min_length {A} (x : list A) (k : nat) :
  take (k `min` length x) x = take k x.
Proof.
  destruct (Nat.le_ge_cases k (length x)).
  - now rewrite Nat.min_l.
  - rewrite Nat.min_r by assumption. now rewrite !take_ge by lia.
Qed.

Lemma slice_prefix {A} (x : list A) (k : nat) :
  Llama2.slice x 0 (Some (Z.of_nat k)) = take k x.
Proof.
  unfold Llama2.slice.
  rewrite slice_bounds_nonneg by (try lia; intros e [= <-]; lia).
  simpl default.
  replace (Z.to_nat (Z.min 0 (Z.of_nat (length x)))) with 0 by lia.
  replace (Z.to_nat _) with (k `min` length x) by lia.
  apply take_min_length.
Qed.

Lemma slice_suffix {A} (x : list A) (k : nat) :
  Llama2.slice x (Z.of_nat k) None = drop k x.
Proof.
  unfold Llama2.slice.
  rewrite slice_bounds_nonneg by (try lia; discriminate).
  simpl default.
  replace (Z.to_nat (Z.min (Z.of_nat k) (Z.of_nat (length x))))
    with (k `min` length x) by lia.
  replace (Z.to_nat _) with (length x - k `min` length x) by lia.
  destruct (Nat.le_ge_cases k (length x)).
  - rewrite Nat.min_l by assumption. apply take_ge. rewrite length_drop. lia.
  - rewrite Nat.min_r by assumption. rewrite !drop_ge by lia. apply take_nil.
Qed.

(** **** The recursion equations of the assembled tensors. *)
Lemma plan_row_spans_cons e p :
  plan_row_spans (e :: p)
  = replicate (span_len e) (entry_span e) ++ plan_row_spans p.
Proof. reflexivity. Qed.

Lemma plan_token_ids_cons e p :
  plan_token_ids (e :: p) = span_tokens e ++ plan_token_ids p.
Proof. reflexivity. Qed.

Lemma plan_num_prompt_tokens_cons e p :
  plan_num_prompt_tokens (e :: p)
  = (match entry_span e with Prefill => span_len e | Decode => 0 end)
    + plan_num_prompt_tokens p.
Proof.
  unfold plan_num_prompt_tokens. rewrite filter_cons.
  destruct (decide (entry_span e = Prefill)) as [->|Hn]; [reflexivity|].
  destruct (entry_span e); [congruence|reflexivity].
Qed.

Lemma all_decode_rows p :
  all_decode p ->
  plan_num_prompt_tokens p = 0
  /\ Forall (fun k => k = Decode) (plan_row_spans p)
  /\ filter (fun e => entry_span e = Prefill) p = []
  /\ filter (fun e => entry_span e = Decode) p = p.
Proof.
  induction 1 as [|e p He _ (IH1 & IH2 & IH3 & IH4)].
  - repeat split; constructor.
  - rewrite plan_num_prompt_tokens_cons, plan_row_spans_cons, He, IH1.
    rewrite !filter_cons, He, IH3, IH4.
    rewrite decide_False by discriminate. rewrite decide_True by reflexivity.
    repeat split. apply Forall_app. split; [|assumption].
    apply Forall_replicate. reflexivity.
Qed.

Lemma no_prompt_tokens_all_decode p :
  Forall (fun e => span_tokens e <> []) p ->
  plan_num_prompt_tokens p = 0 -> all_decode p.
Proof.
  induction 1 as [|e p He _ IH]; [constructor|].
  rewrite plan_num_prompt_tokens_cons. intros H0.
  destruct (entry_span e) eqn:E.
  - unfold span_len in H0. destruct (span_tokens e); [congruence|].
    simpl in H0. lia.
  - constructor; [assumption|]. apply IH. lia.
Qed.

Lemma prefill_first_tail e p : prefill_first (e :: p) -> prefill_first p.
Proof.
  intros H i j ei ej Hi Hj Pi Dj.
  specialize (H (S i) (S j) ei ej Hi Hj Pi Dj). lia.
Qed.

Lemma prefill_first_cons_prefill e p :
  entry_span e = Prefill -> prefill_first p -> prefill_first (e :: p).
Proof.
  intros He H [|i] [|j] ei ej Hi Hj Pi Dj; simpl in *.
  - congruence.
  - lia.
  - congruence.
  - specialize (H i j ei ej Hi Hj Pi Dj). lia.
Qed.

Lemma prefill_first_cons_decode e p :
  entry_span e = Decode -> prefill_first (e :: p) -> all_decode p.
Proof.
  intros He H. apply Forall_lookup. intros j ej Hj.
  destruct (entry_span ej) eqn:E; [|reflexivity].
  specialize (H (S j) 0 ej e Hj eq_refl E He). lia.
Qed.

Lemma all_decode_prefill_first p : all_decode p -> prefill_first p.
Proof.
  intros H i j ei ej Hi Hj Pi Dj.
  rewrite (proj1 (Forall_lookup _ _) H i ei Hi) in Pi. discriminate.
Qed.

Lemma prefill_first_rows_split p : prefill_first p -> rows_split p.
Proof.
  unfold rows_split. rewrite slice_prefix, slice_suffix.
  induction p as [|e p IH]; intros Hpf.
  - split; constructor.
  - rewrite plan_row_spans_cons, plan_num_prompt_tokens_cons.
    destruct (entry_span e) eqn:E.
    + destruct (IH (prefill_first_tail _ _ Hpf)) as [IH1 IH2].
      rewrite take_app_ge, drop_app_ge by (rewrite length_replicate; lia).
      rewrite length_replicate.
      replace (span_len e + plan_num_prompt_tokens p - span_len e)
        with (plan_num_prompt_tokens p) by lia.
      split; [|assumption]. apply Forall_app. split; [|assumption].
      apply Forall_replicate. reflexivity.
    + pose proof (prefill_first_cons_decode _ _ E Hpf) as Hall.
      destruct (all_decode_rows _ Hall) as (-> & Hrows & _).
      simpl. rewrite take_0, drop_0. split; [constructor|].
      apply Forall_app. split; [|assumption].
      apply Forall_replicate. reflexivity.
Qed.

Lemma rows_split_prefill_first p :
  Forall (fun e => span_tokens e <> []) p ->
  rows_split p -> prefill_first p.
Proof.
  unfold rows_split. rewrite slice_prefix, slice_suffix.
  induction 1 as [|e p He Hne IH]; intros [Hpre Hdec].
  - intros i j ei ej Hi. discriminate.
  - rewrite plan_row_spans_cons, plan_num_prompt_tokens_cons in Hpre, Hdec.
    destruct (entry_span e) eqn:E.
    + apply prefill_first_cons_prefill; [assumption|]. apply IH.
      rewrite take_app_ge, drop_app_ge in *
        by (rewrite length_replicate; lia).
      rewrite length_replicate in *.
      replace (span_len e + plan_num_prompt_tokens p - span_len e)
        with (plan_num_prompt_tokens p) in * by lia.
      apply Forall_app in Hpre as [_ Hpre]. split; assumption.
    + simpl in Hpre.
      assert (Hlen : span_len e <> 0).
      { unfold span_len. destruct (span_tokens e); [congruence|]. discriminate. }
      destruct (plan_num_prompt_tokens p) as [|k] eqn:Hn.
      * apply all_decode_prefill_first. constructor; [assumption|].
        now apply no_prompt_tokens_all_decode.
      * destruct (span_len e) as [|m]; [congruence|].
        simpl in Hpre. apply Forall_cons in Hpre as [? _]. discriminate.
Qed.

(** With the prefill entries first, the first [num_prompt_tokens] token
    rows are the prompts, in plan order, and the rows after them are the
    decode tokens. *)
Lemma prefill_first_token_rows p :
  prefill_first p ->
  let npt := Z.of_nat (plan_num_prompt_tokens p) in
  Llama2.slice (plan_token_ids p) 0 (Some npt)
    = mjoin (span_tokens <$> filter (fun e => entry_span e = Prefill) p)
  /\ Llama2.slice (plan_token_ids p) npt None
    = mjoin (span_tokens <$> filter (fun e => entry_span e = Decode) p).
Proof.
  intros Hpf npt. subst npt. rewrite slice_prefix, slice_suffix.
  induction p as [|e p IH]; [split; reflexivity|].
  rewrite plan_token_ids_cons, plan_num_prompt_tokens_cons, !filter_cons.
  destruct (entry_span e) eqn:E.
  - destruct (IH (prefill_first_tail _ _ Hpf)) as [IH1 IH2].
    rewrite decide_True by reflexivity. rewrite decide_False by discriminate.
    unfold span_len.
    rewrite take_app_ge, drop_app_ge by lia.
    replace (length (span_tokens e) + plan_num_prompt_tokens p
             - length (span_tokens e))
      with (plan_num_prompt_tokens p) by lia.
    rewrite IH1, IH2. split; reflexivity.
  - pose proof (prefill_first_cons_decode _ _ E Hpf) as Hall.
    destruct (all_decode_rows _ Hall) as (-> & _ & -> & ->).
    rewrite decide_False by discriminate. rewrite decide_True by reflexivity.
    simpl. rewrite take_0, drop_0. split; reflexivity.
Qed.

Lemma make_plan_prefill_first prefills decodes :
  prefill_first (make_plan prefills decodes).
Proof.
  unfold make_plan. induction prefills as [|s prefills IH]; simpl.
  - apply all_decode_prefill_first. apply Forall_fmap.
    apply Forall_forall. reflexivity.
  - now apply prefill_first_cons_prefill.
Qed.
End PlanFacts.

(** C2. The plan the batch builder hands over lists every prefill Sequence
    before every decode Sequence; the first [num_prompt_tokens] rows of
    its token tensor, the rows the attention layer slices off for the
    prefill kernel, are exactly the prompts' tokens, and the rows from
    [num_prompt_tokens] on, which go to the decode kernel, are exactly the
    decode tokens.  For any plan whose entries each contribute a token, the
    two statements are equivalent: the entries are in prefill-first order
    if and only if the rows split at [num_prompt_tokens] into prefill rows
    and decode rows. *)
Theorem plan_prefill_before_decode
    (block_size T_max : nat) (running waiting : list Core.Sequence)
    (a a' : Core.BlockAllocator) (r : Core.BatchResult) (p : Core.BatchPlan) :
  Core.build_batch block_size T_max running waiting a = Some (inr r, a') ->
  Core.outcome r = Core.Plan p ->
  let npt := Z.of_nat (Core.plan_num_prompt_tokens p) in
  Core.prefill_first p
  /\ Llama2.slice (Core.plan_token_ids p) 0 (Some npt)
     = mjoin (Core.span_tokens
                <$> filter (fun e => Core.entry_span e = Core.Prefill) p)
  /\ Llama2.slice (Core.plan_token_ids p) npt None
     = mjoin (Core.span_tokens
                <$> filter (fun e => Core.entry_span e = Core.Decode) p)
  /\ (forall q : Core.BatchPlan,
        Forall (fun e => Core.span_tokens e <> []) q ->
        (Core.prefill_first q <-> Core.rows_split q)).
Proof.
  intros Hb Hp npt.
  destruct (build_batch_plan _ _ _ _ _ _ _ Hb) as (prefills & decodes & Hout & _).
  rewrite Hp in Hout. destruct Hout as [-> _].
  pose proof (make_plan_prefill_first prefills decodes) as Hpf.
  destruct (prefill_first_token_rows _ Hpf) as [H1 H2].
  split; [assumption|]. split; [assumption|]. split; [assumption|].
  intros q Hq. split.
  - apply prefill_first_rows_split.
  - now apply rows_split_prefill_first.
Qed.
Section CapacityFacts.
Import Core.
Local Open Scope list_scope.

Lemma room_for_one_capacity block_size s :
  room_for_one block_size s ->
  capacity_ok block_size s
  /\ forall id logprob, capacity_ok block_size (append_token id logprob s).
Proof.
  unfold room_for_one, capacity_ok. intros H. split; [lia|].
  intros id logprob. unfold append_token.
  destruct (is_finished s); simpl; [lia|].
  rewrite length_app. simpl. lia.
Qed.

(** After an append the inequality holds exactly when the Sequence was
    terminal, so that nothing was appended, or had a free slot. *)
Lemma append_token_capacity block_size s id logprob :
  capacity_ok block_size s ->
  capacity_ok block_size (append_token id logprob s)
  <-> is_finished s = true \/ room_for_one block_size s.
Proof.
  unfold capacity_ok, room_for_one, append_token. intros Hc.
  destruct (is_finished s); simpl.
  - split; auto.
  - rewrite length_app. simpl. split.
    + intros H. right. lia.
    + intros [H|H]; [discriminate|lia].
Qed.

Lemma capacity_without_blocks block_size s :
  block_table s = [] -> (capacity_ok block_size s <-> tokens s = []).
Proof.
  unfold capacity_ok. intros ->. simpl. split.
  - intros H. apply length_zero_iff_nil. lia.
  - intros ->. simpl. lia.
Qed.
End CapacityFacts.

(** C4 (as amended).  Every Sequence that the batch builder selects into a
    plan holds blocks for all the tokens it has, and a decode Sequence
    still does after the step has appended its token; a prefill Sequence
    does after the append exactly when it is terminal or its blocks have
    a slot left.  Releasing a Sequence's blocks and preempting it
    in recompute mode both empty the block table, and a newly accepted
    Sequence has none yet: for those the inequality
    [block_table.len * block_size >= tokens.len] holds exactly when the
    Sequence holds no tokens. *)
Theorem capacity_while_blocks_held
    (block_size T_max : nat) (running waiting : list Core.Sequence)
    (a a' : Core.BlockAllocator) (r : Core.BatchResult) :
  0 < block_size ->
  Core.build_batch block_size T_max running waiting a = Some (inr r, a') ->
  (forall p e, Core.outcome r = Core.Plan p -> e ∈ p ->
     Core.capacity_ok block_size (Core.entry_seq e)
     /\ (Core.entry_span e = Core.Decode ->
         forall id logprob,
           Core.capacity_ok block_size
             (Core.append_token id logprob (Core.entry_seq e)))
     /\ (Core.entry_span e = Core.Prefill ->
         forall id logprob,
           Core.capacity_ok block_size
             (Core.append_token id logprob (Core.entry_seq e))
           <-> Core.is_finished (Core.entry_seq e) = true
               \/ Core.room_for_one block_size (Core.entry_seq e)))
  /\ (forall s a0,
        Core.block_table (Core.release_blocks s a0).1 = []
        /\ (Core.capacity_ok block_size (Core.release_blocks s a0).1
            <-> Core.tokens s = []))
  /\ (forall s a0,
        Core.block_table (Core.recompute s a0).1 = []
        /\ (Core.capacity_ok block_size (Core.recompute s a0).1
            <-> take (Core.num_prompt_tokens s) (Core.tokens s) = []))
  /\ (forall h idx prompt,
        Core.capacity_ok block_size (Core.new_sequence h idx prompt)
        <-> prompt = []).
Proof.
  intros Hb Hbuild. split; [|split; [|split]].
  - intros p e Hp He.
    destruct (build_batch_plan _ _ _ _ _ _ _ Hbuild)
      as (prefills & decodes & Hout & Hcap).
    destruct (Hcap Hb) as [Hpre Hdec]. rewrite Hp in Hout.
    destruct Hout as [-> _]. unfold Core.make_plan in He.
    apply elem_of_app in He as [He|He];
      apply list_elem_of_fmap in He as (s & -> & Hs); simpl.
    + pose proof (proj1 (Forall_forall _ _) Hpre s Hs) as Hcs.
      split; [exact Hcs|]. split; [discriminate|].
      intros _ id logprob. apply append_token_capacity. exact Hcs.
    + pose proof (proj1 (Forall_forall _ _) Hdec s Hs) as Hroom.
      destruct (room_for_one_capacity _ _ Hroom).
      split; [assumption|]. split; [auto|discriminate].
  - intros s a0. split; [reflexivity|].
    exact (capacity_without_blocks block_size
             (Core.release_blocks s a0).1 eq_refl).
  - intros s a0. split; [reflexivity|].
    unfold Core.capacity_ok, Core.recompute. simpl. split.
    + intros H. apply length_zero_iff_nil. lia.
    + intros ->. simpl. lia.
  - intros h idx prompt.
    exact (capacity_without_blocks block_size
             (Core.new_sequence h idx prompt) eq_refl).
Qed.

(** The capacity inequality is not kept by every operation.  First, the
    operations that give blocks back, and admission: a Sequence of one
    token holding one block of four slots satisfies it, and neither its
    released nor its preempted state nor a newly accepted Sequence with
    the same prompt does.  Second, the append that follows a prefill, on
    Sequences that hold blocks: with four blocks of four slots and prompts
    of 8, 4 and 4 tokens the builder accepts all three prompts, each
    Sequence holds exactly the blocks of its prompt and satisfies the
    inequality, and each breaks it once the step has appended its sampled
    token (9 tokens on 2 blocks, 5 tokens on 1). *)
Lemma capacity_lost_without_blocks :
  (let h := Core.mkRequestHandle 0 Core.Normal 0 in
   let s := Core.mkSequence h 0 [5%Z] 1 [0] None 0%Q in
   let a := Core.mkAllocator [1] [] in
   Core.capacity_ok 4 s
   /\ ~ Core.capacity_ok 4 (Core.release_blocks s a).1
   /\ ~ Core.capacity_ok 4 (Core.recompute s a).1
   /\ ~ Core.capacity_ok 4 (Core.new_sequence h 0 [5%Z]))
  /\ (exists r a' p,
        Core.build_batch 4 64 [] Examples.prompts Examples.pool
        = Some (inr r, a')
        /\ Core.outcome r = Core.Plan p
        /\ length p = 3
        /\ Forall (fun e =>
                     Core.entry_span e = Core.Prefill
                     /\ Core.block_table (Core.entry_seq e) <> []
                     /\ Core.capacity_ok 4 (Core.entry_seq e)
                     /\ ~ Core.capacity_ok 4
                           (Core.append_token 9 (-1)%Q (Core.entry_seq e)))
                  p).
Proof.
  split.
  - unfold Core.capacity_ok. simpl. repeat split; lia.
  - eexists _, _, _. split; [vm_compute; reflexivity|].
    split; [reflexivity|]. split; [reflexivity|].
    unfold Core.capacity_ok.
    repeat (apply List.Forall_cons;
            [split; [reflexivity|split; [discriminate|simpl; lia]]|]).
    apply List.Forall_nil.
Qed.

Section BestOfFacts.
Import Core.
Local Open Scope list_scope.

#[local] Instance ranks_before_trans : Transitive ranks_before.
Proof. intros x y z Hxy Hyz. unfold ranks_before in *. eapply Qle_trans; eauto. Qed.

#[local] Instance ranks_before_total : Total ranks_before.
Proof.
  intros x y. unfold ranks_before.
  destruct (Qlt_le_dec (normalized_logprob x) (normalized_logprob y)).
  - right. now apply Qlt_le_weak.
  - now left.
Qed.

Lemma select_top_n_spec (r : Request) :
  n r <= length (sequences r) ->
  exists discarded,
    length (select_top_n r) = n r
    /\ sequences r ≡ₚ select_top_n r ++ discarded
    /\ StronglySorted ranks_before (select_top_n r)
    /\ (forall d x, d ∈ select_top_n r -> x ∈ discarded -> ranks_before d x)
    /\ (forall d, head (select_top_n r) = Some d ->
          forall s, s ∈ sequences r -> ranks_before d s).
Proof.
  intros Hn. unfold select_top_n.
  set (sorted := merge_sort ranks_before (sequences r)).
  assert (Hperm : sorted ≡ₚ sequences r) by apply merge_sort_Permutation.
  assert (Hsorted : StronglySorted ranks_before sorted)
    by (apply StronglySorted_merge_sort; apply _).
  exists (drop (n r) sorted).
  assert (Hsplit : sorted = take (n r) sorted ++ drop (n r) sorted)
    by now rewrite take_drop.
  repeat split.
  - rewrite length_take, (Permutation_length Hperm). lia.
  - now rewrite take_drop.
  - rewrite Hsplit in Hsorted. now apply StronglySorted_app_1_l in Hsorted.
  - intros d x Hd Hx. rewrite Hsplit in Hsorted.
    eapply StronglySorted_app_1_elem_of; eauto.
  - intros d Hd s Hs. rewrite <- Hperm in Hs.
    destruct sorted as [|d' rest] eqn:E.
    + now apply elem_of_nil in Hs.
    + destruct (n r) as [|k]; [discriminate|]. simpl in Hd.
      injection Hd as ->.
      apply StronglySorted_inv in Hsorted as [_ Hall].
      apply elem_of_cons in Hs as [->|Hs].
      * unfold ranks_before. apply Qle_refl.
      * exact (proj1 (Forall_forall _ _) Hall s Hs).
Qed.
End BestOfFacts.

(** C1. For a Request with [best_of > n] whose [best_of] sibling Sequences
    have all finished, the final output carries exactly [n] of them; they
    are the top [n] by [cumulative_logprob / tokens_generated]: ranked best
    first, each at least as good as every discarded sibling; and the first
    delivered choice has the maximum normalized score of all siblings. *)
Theorem best_of_delivers_top_n (r : Core.Request) :
  Core.n r < Core.best_of r ->
  length (Core.sequences r) = Core.best_of r ->
  Core.request_finished r = true ->
  exists delivered discarded,
    Core.final_output r = Some delivered
    /\ length delivered = Core.n r
    /\ Core.sequences r ≡ₚ delivered ++ discarded
    /\ StronglySorted Core.ranks_before delivered
    /\ (forall d x, d ∈ delivered -> x ∈ discarded ->
          (Core.normalized_logprob x <= Core.normalized_logprob d)%Q)
    /\ (forall d, head delivered = Some d ->
          forall s, s ∈ Core.sequences r ->
            (Core.normalized_logprob s <= Core.normalized_logprob d)%Q).
Proof.
  intros Hn Hlen Hfin.
  destruct (select_top_n_spec r) as (discarded & H1 & H2 & H3 & H4 & H5);
    [lia|].
  exists (Core.select_top_n r), discarded.
  unfold Core.final_output. rewrite Hfin, decide_True by assumption.
  repeat split; assumption.
Qed.

(** Nothing is delivered while a sibling is still running. *)
Lemma final_output_waits (r : Core.Request) s :
  s ∈ Core.sequences r -> Core.finish_reason s = None ->
  Core.final_output r = None.
Proof.
  intros Hs Hrun. unfold Core.final_output, Core.request_finished.
  destruct (forallb Core.is_finished (Core.sequences r)) eqn:E; [|reflexivity].
  rewrite forallb_forall in E. apply list_elem_of_In in Hs.
  specialize (E s Hs). unfold Core.is_finished in E. now rewrite Hrun in E.
Qed.
Section Llama2Facts.
Import Llama2.
Local Open Scope list_scope.

Context {Row Logits KVCache : Type}.
Variable zero : Row.
Variable add : Row -> Row -> Row.
Variable pos_emb : Row -> Z -> Row.
Variable set_kv_cache : KVCache -> list Z -> list Row -> list Row -> KVCache.
Variable varlen_masked_self_attention :
  list Row -> list Row -> list Row -> list Z -> Z -> list Row -> list Row.
Variable single_token_masked_self_attention :
  KVCache -> list Row -> list (list Z) -> list Z -> Z -> list Row -> list Row.

Local Abbreviation attention_forward :=
  (attention_forward zero pos_emb set_kv_cache varlen_masked_self_attention
     single_token_masked_self_attention).
Local Abbreviation block_forward :=
  (block_forward zero add pos_emb set_kv_cache varlen_masked_self_attention
     single_token_masked_self_attention).
Local Abbreviation layers_forward :=
  (layers_forward zero add pos_emb set_kv_cache
     varlen_masked_self_attention single_token_masked_self_attention).
Local Abbreviation hidden_states :=
  (hidden_states zero add pos_emb set_kv_cache varlen_masked_self_attention
     single_token_masked_self_attention).
Local Abbreviation forward :=
  (forward zero add pos_emb set_kv_cache varlen_masked_self_attention
     single_token_masked_self_attention).

Lemma store_slice_length {A} (x : list A) start stop rows :
  length (store_slice x start stop rows) = length x.
Proof.
  unfold store_slice. destruct (slice_bounds _ _ _). apply length_inserts.
Qed.

(** Attention gives one output row per input row. *)
Lemma attention_forward_length l (x : list Row) positions kv ip :
  length positions = length x ->
  length (attention_forward l x positions kv ip).1 = length x.
Proof.
  intros Hpos. unfold Llama2.attention_forward. cbv zeta. cbn [fst].
  rewrite length_map.
  repeat match goal with
         | |- context [if ?c then _ else _] => destruct c
         end;
    rewrite ?store_slice_length, length_map, length_zip_with, length_map;
    lia.
Qed.

Lemma block_forward_length l (x : list Row) positions kv ip :
  length positions = length x ->
  length (block_forward l x positions kv ip).1 = length x.
Proof.
  intros Hpos. unfold Llama2.block_forward.
  pose proof (attention_forward_length l (map (attention_norm l) x)
                positions kv ip) as Ha.
  rewrite length_map in Ha. specialize (Ha Hpos).
  destruct (attention_forward _ _ _ _ _) as [att kv'].
  cbn [fst] in *.
  rewrite !length_zip_with, length_map, length_zip_with. lia.
Qed.

Lemma layers_forward_length layers : forall i (h : list Row) positions kvs ip h' kvs',
  length positions = length h ->
  layers_forward layers i h positions kvs ip = Some (h', kvs') ->
  length h' = length h /\ length kvs' = length kvs.
Proof.
  induction layers as [|l layers IH]; intros i h positions kvs ip h' kvs' Hpos;
    cbn -[Llama2.block_forward].
  - intros [= <- <-]. auto.
  - destruct (kvs !! i) as [kv|]; [|discriminate].
    cbn -[Llama2.block_forward].
    pose proof (block_forward_length l h positions kv ip Hpos) as Hlen.
    destruct (block_forward _ _ _ _ _) as [h1 kv1].
    cbn [fst] in Hlen. intros H.
    apply IH in H as [H1 H2]; [|lia].
    rewrite length_insert in H2. split; congruence.
Qed.

Lemma layers_forward_is_Some layers : forall i (h : list Row) positions kvs ip,
  i + length layers <= length kvs ->
  is_Some (layers_forward layers i h positions kvs ip).
Proof.
  induction layers as [|l layers IH]; intros i h positions kvs ip Hlen;
    cbn -[Llama2.block_forward] in *; [eauto|].
  destruct (lookup_lt_is_Some_2 kvs i) as [kv ->]; [lia|].
  cbn -[Llama2.block_forward].
  destruct (block_forward _ _ _ _ _) as [h1 kv1].
  apply IH. rewrite length_insert. lia.
Qed.

Lemma hidden_states_length (m : @Model Row Logits) tokens positions kvs ip h kvs' :
  length positions = length tokens ->
  hidden_states m tokens positions kvs ip = Some (h, kvs') ->
  length h = length tokens.
Proof.
  intros Hpos. unfold Llama2.hidden_states.
  destruct (layers_forward _ _ _ _ _ _) as [[h1 kvs1]|] eqn:E;
    [|discriminate].
  simpl. intros [= <- <-].
  apply layers_forward_length in E as [E _]; [|now rewrite length_map].
  now rewrite length_map, E, length_map.
Qed.

Lemma index_select_spec {A} (x : list A) (index : list Z) rows :
  index_select x index = Some rows <->
  Forall2 (fun i r => (0 <= i)%Z /\ x !! Z.to_nat i = Some r) index rows.
Proof.
  unfold index_select. rewrite mapM_Some. split; intros H;
    (eapply Forall2_impl; [exact H|]); intros i r; cbn beta.
  - destruct (Z.ltb_spec i 0); [discriminate|]. auto.
  - intros [H0 Hr]. destruct (Z.ltb_spec i 0); [lia|assumption].
Qed.

(** [forward] returns one row of logits per entry of
    [last_token_indicies]: the output projection of the hidden state at
    that entry's row. *)
Lemma forward_rows (m : @Model Row Logits) tokens positions kvs ip logits kvs' :
  length positions = length tokens ->
  forward m tokens positions kvs ip = Some (logits, kvs') ->
  exists h,
    hidden_states m tokens positions kvs ip = Some (h, kvs')
    /\ length h = length tokens
    /\ length logits = length (last_token_indicies ip)
    /\ forall j idx, last_token_indicies ip !! j = Some idx ->
         (0 <= idx < Z.of_nat (length tokens))%Z
         /\ logits !! j = output_ m <$> h !! Z.to_nat idx.
Proof.
  intros Hpos. unfold Llama2.forward.
  destruct (hidden_states _ _ _ _ _) as [[h kvs1]|] eqn:Eh;
    [|discriminate]. simpl.
  destruct (index_select h (last_token_indicies ip)) as [rows|] eqn:Es;
    [|discriminate]. simpl. intros [= <- <-].
  pose proof (hidden_states_length _ _ _ _ _ _ _ Hpos Eh) as Hlen.
  apply index_select_spec in Es.
  exists h. split; [reflexivity|]. split; [assumption|].
  split; [rewrite length_map; symmetry; eapply Forall2_length; eauto|].
  intros j idx Hj.
  destruct (Forall2_lookup_l _ _ _ _ _ Es Hj) as (row & Hrow & H0 & Hidx).
  split.
  - apply lookup_lt_Some in Hidx. lia.
  - rewrite list_lookup_fmap, Hrow, Hidx. reflexivity.
Qed.

(** With a cache per layer and every index inside the token tensor,
    [forward] returns. *)
Lemma forward_is_Some (m : @Model Row Logits) tokens positions kvs ip :
  length positions = length tokens ->
  length (layers_ m) <= length kvs ->
  Forall (fun idx => (0 <= idx < Z.of_nat (length tokens))%Z)
         (last_token_indicies ip) ->
  is_Some (forward m tokens positions kvs ip).
Proof.
  intros Hpos Hkv Hidx. unfold Llama2.forward.
  destruct (hidden_states _ _ _ _ _) as [[h kvs1]|] eqn:Eh.
  - simpl. pose proof (hidden_states_length _ _ _ _ _ _ _ Hpos Eh) as Hlen.
    destruct (index_select h (last_token_indicies ip)) as [rows|] eqn:Es;
      [simpl; eauto|].
    exfalso. unfold index_select in Es. apply mapM_None in Es.
    apply Exists_exists in Es as (idx & Hin & Hnone).
    pose proof (proj1 (Forall_forall _ _) Hidx idx Hin) as Hr.
    cbn beta in Hr, Hnone.
    destruct (Z.ltb_spec idx 0) as [|_]; [lia|].
    apply lookup_ge_None in Hnone. lia.
  - exfalso. unfold Llama2.hidden_states in Eh.
    destruct (layers_forward_is_Some (layers_ m) 0
                (map (tok_embeddings m) tokens) positions kvs ip)
      as [[h1 kvs1] E]; [simpl; lia|].
    rewrite E in Eh. discriminate.
Qed.
End Llama2Facts.
Section LastTokenFacts.
Import Core.
Local Open Scope list_scope.

Lemma span_tokens_last e :
  last (span_tokens e) = last (tokens (entry_seq e)).
Proof.
  unfold span_tokens. destruct (entry_span e); [reflexivity|].
  rewrite !last_lookup, lookup_drop, length_drop. f_equal. lia.
Qed.

Lemma cumulative_length offset lens :
  length (cumulative offset lens) = length lens.
Proof.
  revert offset. induction lens as [|k lens IH]; intros offset; simpl;
    [reflexivity|]. now rewrite IH.
Qed.

Lemma plan_last_token_indices_length (p : BatchPlan) :
  length (plan_last_token_indices p) = length p.
Proof.
  unfold plan_last_token_indices.
  now rewrite length_fmap, cumulative_length, length_fmap.
Qed.

(** The cumulative length up to and including entry [j] is one past the
    row of the last token of its span. *)
Lemma cumulative_lookup (p : BatchPlan) : forall offset (pre : list Z) j e,
  length pre = offset ->
  p !! j = Some e ->
  Forall (fun e => span_tokens e <> []) p ->
  exists c,
    cumulative offset ((fun e => length (span_tokens e)) <$> p) !! j = Some c
    /\ (Z.of_nat offset < c <= Z.of_nat (offset + length (plan_token_ids p)))%Z
    /\ (pre ++ plan_token_ids p) !! Z.to_nat (c - 1) = last (span_tokens e).
Proof.
  induction p as [|e0 p IH]; intros offset pre j e Hpre Hj Hne;
    [discriminate|].
  apply Forall_cons in Hne as [Hne0 Hne].
  rewrite plan_token_ids_cons. cbn [fmap list_fmap cumulative].
  assert (Hk : 0 < length (span_tokens e0)).
  { destruct (span_tokens e0); [congruence|simpl; lia]. }
  destruct j as [|j]; simpl in Hj.
  - injection Hj as ->. eexists. split; [reflexivity|].
    rewrite length_app. split; [lia|].
    rewrite last_lookup.
    replace (Z.to_nat (Z.of_nat (offset + length (span_tokens e)) - 1))
      with (length pre + Init.Nat.pred (length (span_tokens e))) by lia.
    rewrite lookup_app_r by lia.
    replace (length pre + Init.Nat.pred (length (span_tokens e)) - length pre)
      with (Init.Nat.pred (length (span_tokens e))) by lia.
    apply lookup_app_l. lia.
  - destruct (IH (offset + length (span_tokens e0)) (pre ++ span_tokens e0)
                j e) as (c & Hc & Hrange & Hlook); try assumption.
    { rewrite length_app. lia. }
    exists c. split; [exact Hc|]. rewrite length_app. split; [lia|].
    now rewrite <- app_assoc in Hlook.
Qed.

Lemma plan_last_token_indices_lookup (p : BatchPlan) j e :
  Forall (fun e => span_tokens e <> []) p ->
  p !! j = Some e ->
  exists idx,
    plan_last_token_indices p !! j = Some idx
    /\ (0 <= idx < Z.of_nat (length (plan_token_ids p)))%Z
    /\ plan_token_ids p !! Z.to_nat idx = last (tokens (entry_seq e)).
Proof.
  intros Hne Hj.
  destruct (cumulative_lookup p 0 [] j e eq_refl Hj Hne)
    as (c & Hc & Hrange & Hlook).
  exists (c - 1)%Z. unfold plan_last_token_indices.
  rewrite list_lookup_fmap, Hc. split; [reflexivity|].
  split; [lia|]. simpl in Hlook. now rewrite Hlook, span_tokens_last.
Qed.

Lemma plan_last_token_indices_range (p : BatchPlan) :
  Forall (fun e => span_tokens e <> []) p ->
  Forall (fun idx => (0 <= idx < Z.of_nat (length (plan_token_ids p)))%Z)
         (plan_last_token_indices p).
Proof.
  intros Hne. apply Forall_lookup. intros j idx Hidx.
  assert (Hlt : j < length p).
  { rewrite <- plan_last_token_indices_length. eapply lookup_lt_Some; eauto. }
  destruct (lookup_lt_is_Some_2 p j Hlt) as [e He].
  destruct (plan_last_token_indices_lookup p j e Hne He) as (idx' & H1 & H2 & _).
  congruence.
Qed.
End LastTokenFacts.

Section ForwardLogits.
Import Llama2.
Local Open Scope list_scope.

Context {Row Logits KVCache : Type}.
Variable zero : Row.
Variable add : Row -> Row -> Row.
Variable pos_emb : Row -> Z -> Row.
Variable set_kv_cache : KVCache -> list Z -> list Row -> list Row -> KVCache.
Variable varlen_masked_self_attention :
  list Row -> list Row -> list Row -> list Z -> Z -> list Row -> list Row.
Variable single_token_masked_self_attention :
  KVCache -> list Row -> list (list Z) -> list Z -> Z -> list Row -> list Row.

Local Abbreviation hidden_states :=
  (hidden_states zero add pos_emb set_kv_cache varlen_masked_self_attention
     single_token_masked_self_attention).
Local Abbreviation forward :=
  (forward zero add pos_emb set_kv_cache varlen_masked_self_attention
     single_token_masked_self_attention).

(** C3. [forward] returns one row of logits per entry of
    [last_token_indicies], and that row is the output projection of the
    hidden state at the listed position; no other position has a row.
    For the tensors assembled from a batch plan this is one row per
    selected Sequence, taken at the row of the final token of that
    Sequence's prefill or decode span. *)
Theorem logits_rows_are_last_tokens
    (m : @Model Row Logits) (tokens positions : list Z)
    (kv_caches : list KVCache) (input_params : InputParameters) :
  length positions = length tokens ->
  (forall logits kv_caches',
     forward m tokens positions kv_caches input_params
       = Some (logits, kv_caches') ->
     exists h,
       hidden_states m tokens positions kv_caches input_params
         = Some (h, kv_caches')
       /\ length h = length tokens
       /\ length logits = length (last_token_indicies input_params)
       /\ forall j idx,
            last_token_indicies input_params !! j = Some idx ->
            (0 <= idx < Z.of_nat (length tokens))%Z
            /\ logits !! j = output_ m <$> h !! Z.to_nat idx)
  /\ (forall p : list Core.PlanEntry,
        Forall (fun e => Core.span_tokens e <> []) p ->
        tokens = Core.plan_token_ids p ->
        last_token_indicies input_params = Core.plan_last_token_indices p ->
        length (layers_ m) <= length kv_caches ->
        exists logits kv_caches',
          forward m tokens positions kv_caches input_params
            = Some (logits, kv_caches')
          /\ length logits = length p
          /\ forall j e, p !! j = Some e ->
               exists idx,
                 last_token_indicies input_params !! j = Some idx
                 /\ tokens !! Z.to_nat idx
                    = last (Core.tokens (Core.entry_seq e))).
Proof.
  intros Hpos. split.
  - intros logits kvs'. now apply forward_rows.
  - intros p Hne Htok Hidx Hkv.
    destruct (forward_is_Some zero add pos_emb set_kv_cache
                varlen_masked_self_attention
                single_token_masked_self_attention
                m tokens positions kv_caches input_params Hpos Hkv)
      as [[logits kvs'] E].
    { rewrite Hidx, Htok. now apply plan_last_token_indices_range. }
    exists logits, kvs'. split; [exact E|].
    destruct (forward_rows _ _ _ _ _ _ _ _ _ _ _ _ _ Hpos E)
      as (h & _ & _ & Hlen & _).
    split.
    + now rewrite Hlen, Hidx, plan_last_token_indices_length.
    + intros j e He.
      destruct (plan_last_token_indices_lookup p j e Hne He)
        as (idx & H1 & _ & H3).
      exists idx. rewrite Hidx, Htok. auto.
Qed.
End ForwardLogits.
Section Llama2AttentionFacts.
Import Llama2.
Local Open Scope list_scope.

Context {Row Logits KVCache : Type}.
Variable zero : Row.
Variable add : Row -> Row -> Row.
Variable pos_emb : Row -> Z -> Row.
Variable set_kv_cache : KVCache -> list Z -> list Row -> list Row -> KVCache.
Variable varlen_masked_self_attention :
  list Row -> list Row -> list Row -> list Z -> Z -> list Row -> list Row.
Variable single_token_masked_self_attention :
  KVCache -> list Row -> list (list Z) -> list Z -> Z -> list Row -> list Row.

Local Abbreviation attention_forward :=
  (attention_forward zero pos_emb set_kv_cache varlen_masked_self_attention
     single_token_masked_self_attention).
Local Abbreviation block_forward :=
  (block_forward zero add pos_emb set_kv_cache varlen_masked_self_attention
     single_token_masked_self_attention).
Local Abbreviation layers_forward :=
  (layers_forward zero add pos_emb set_kv_cache varlen_masked_self_attention
     single_token_masked_self_attention).
Local Abbreviation hidden_states :=
  (hidden_states zero add pos_emb set_kv_cache varlen_masked_self_attention
     single_token_masked_self_attention).
Local Abbreviation forward :=
  (forward zero add pos_emb set_kv_cache varlen_masked_self_attention
     single_token_masked_self_attention).

(** Storing through a view that starts at row 0. *)
Lemma store_slice_prefix {A} (x rows : list A) (k : nat) :
  length rows = Nat.min k (length x) ->
  store_slice x 0 (Some (Z.of_nat k)) rows = rows ++ drop k x.
Proof.
  intros Hlen. unfold store_slice.
  rewrite slice_bounds_nonneg by (try lia; intros e [= <-]; lia).
  simpl default.
  replace (Z.to_nat (Z.min 0 (Z.of_nat (length x)))) with 0 by lia.
  rewrite firstn_all2 by lia.
  rewrite <- (take_drop (k `min` length x) x) at 1.
  rewrite list_inserts_0_r by (rewrite length_take; lia).
  f_equal. destruct (Nat.le_ge_cases k (length x)).
  - now rewrite Nat.min_l.
  - rewrite !drop_ge by lia. reflexivity.
Qed.

(** Storing through a view that runs to the last row. *)
Lemma store_slice_suffix {A} (x rows : list A) (k : nat) :
  length rows = length x - k ->
  store_slice x (Z.of_nat k) None rows = take k x ++ rows.
Proof.
  intros Hlen. unfold store_slice.
  rewrite slice_bounds_nonneg by (try lia; discriminate).
  simpl default.
  rewrite firstn_all2 by lia.
  destruct (Nat.le_ge_cases k (length x)).
  - replace (Z.to_nat (Z.min (Z.of_nat k) (Z.of_nat (length x))))
      with (length (take k x) + 0) by (rewrite length_take; lia).
    rewrite <- (take_drop k x) at 2.
    rewrite list_inserts_app_r. f_equal.
    rewrite <- (app_nil_r (drop k x)).
    rewrite list_inserts_0_r by (rewrite length_drop; lia).
    apply app_nil_r.
  - assert (rows = []) as -> by (apply length_zero_iff_nil; lia).
    rewrite app_nil_r, firstn_all2 by lia. reflexivity.
Qed.

(** X9. Every row of the attention output is written by exactly one
    kernel. With [n] the prompt-token count capped at the number of rows,
    the first [n] rows are what the prefill kernel computes from the first
    [n] queries, keys and values, and the remaining rows are what the
    decode kernel computes from the remaining queries and the cache as it
    is after this batch's keys and values were stored; a kernel with no
    rows to work on is not needed for the result. *)
Theorem attention_rows_split (l : TransformerBlock) (x : list Row)
    (positions : list Z) (kv_cache : KVCache) (ip : InputParameters) :
  (forall q k v cu m o,
     length (varlen_masked_self_attention q k v cu m o) = length o) ->
  (forall kv q bt cl m o,
     length (single_token_masked_self_attention kv q bt cl m o) = length o) ->
  length positions = length x ->
  (0 <= num_prompt_tokens ip)%Z ->
  let n := Nat.min (Z.to_nat (num_prompt_tokens ip)) (length x) in
  let query := zip_with pos_emb (map (wq l) x) positions in
  let key := zip_with pos_emb (map (wk l) x) positions in
  let value := map (wv l) x in
  let kv_cache' := set_kv_cache kv_cache (slot_ids ip) key value in
  attention_forward l x positions kv_cache ip
  = (map (wo l)
       (varlen_masked_self_attention (take n query) (take n key)
          (take n value) (cu_seq_lens ip) (max_seq_len ip)
          (replicate n zero)
        ++ single_token_masked_self_attention kv_cache' (drop n query)
             (block_tables ip) (context_lens ip) (max_context_len ip)
             (replicate (length x - n) zero)),
     kv_cache').
Proof.
  intros Hvar Hdec Hpos Hnpt n query key value kv_cache'.
  unfold Llama2.attention_forward. cbv zeta.
  fold query key value kv_cache'.
  assert (Hq : length query = length x)
    by (unfold query; rewrite length_zip_with, length_map; lia).
  assert (Hk : length key = length x)
    by (unfold key; rewrite length_zip_with, length_map; lia).
  assert (Hv : length value = length x)
    by (unfold value; now rewrite length_map).
  assert (Hz : map (fun _ : Row => zero) query = replicate (length x) zero).
  { rewrite <- Hq. clear. induction query; cbn; [reflexivity|].
    now f_equal. }
  rewrite Hz.
  set (npt := num_prompt_tokens ip) in *.
  assert (Hnk : npt = Z.of_nat (Z.to_nat npt)) by lia.
  set (k := Z.to_nat npt) in *.
  f_equal. f_equal.
  assert (Htk : forall {A} (y : list A), length y = length x ->
                  take k y = take n y).
  { intros A y Hy. unfold n. destruct (Nat.le_ge_cases k (length x)).
    - now rewrite Nat.min_l.
    - rewrite Nat.min_r by lia. rewrite !firstn_all2 by lia. reflexivity. }
  assert (Hdk : forall {A} (y : list A), length y = length x ->
                  drop k y = drop n y).
  { intros A y Hy. unfold n. destruct (Nat.le_ge_cases k (length x)).
    - now rewrite Nat.min_l.
    - rewrite Nat.min_r by lia. rewrite !drop_ge by lia. reflexivity. }
  destruct (Z.ltb_spec 0 npt) as [Hpos0|Hzero].
  - (* prefill rows present *)
    rewrite Hnk, !slice_prefix.
    rewrite store_slice_prefix
      by (rewrite Hvar, length_take, length_replicate; lia).
    rewrite take_replicate, drop_replicate.
    rewrite (Htk _ query Hq), (Htk _ key Hk), (Htk _ value Hv).
    replace (k `min` length x) with n by reflexivity.
    destruct (Z.ltb_spec (Z.of_nat k) (Z.of_nat (length x))) as [Hlt|Hge].
    + rewrite !slice_suffix.
      assert (Hn : n = k) by (unfold n; lia).
      rewrite store_slice_suffix.
      * rewrite take_app_length'
          by (rewrite Hvar, length_replicate; lia).
        rewrite drop_app_length'
          by (rewrite Hvar, length_replicate; lia).
        rewrite (Hdk _ query Hq). rewrite Hn. reflexivity.
      * rewrite Hdec, length_drop, !length_app, Hvar, !length_replicate.
        lia.
    + assert (Hn : n = length x) by (unfold n; lia).
      rewrite Hn, Nat.sub_diag. cbn [replicate].
      pose proof (Hdec kv_cache' (drop (length x) query) (block_tables ip)
                    (context_lens ip) (max_context_len ip) []) as Hd.
      apply length_zero_iff_nil in Hd. rewrite Hd.
      replace (length x - k) with 0 by lia. reflexivity.
  - (* no prompt tokens *)
    assert (Hk0 : k = 0) by lia.
    assert (Hn : n = 0) by (unfold n; lia).
    rewrite Hn. cbn [replicate].
    pose proof (Hvar (take 0 query) (take 0 key) (take 0 value)
                  (cu_seq_lens ip) (max_seq_len ip) []) as Hp.
    apply length_zero_iff_nil in Hp. rewrite Hp. cbn [app].
    rewrite Nat.sub_0_r, drop_0.
    destruct (Z.ltb_spec npt (Z.of_nat (length x))) as [Hlt|Hge].
    + rewrite Hnk, Hk0. rewrite !(slice_suffix _ 0).
      rewrite (store_slice_suffix _ _ 0)
        by (rewrite Hdec, drop_0, length_replicate; lia).
      rewrite !drop_0. reflexivity.
    + assert (Hx : length x = 0) by lia.
      rewrite Hx. cbn [replicate].
      pose proof (Hdec kv_cache' query (block_tables ip)
                    (context_lens ip) (max_context_len ip) []) as Hd.
      apply length_zero_iff_nil in Hd. now rewrite Hd.
Qed.

(** The cache a block leaves behind is its input cache after one store
    of one key row and one value row per token, into the batch's slots. *)
Lemma block_forward_cache l (x : list Row) positions kv ip :
  length positions = length x ->
  exists key value,
    (block_forward l x positions kv ip).2
    = set_kv_cache kv (slot_ids ip) key value
    /\ length key = length x /\ length value = length x.
Proof.
  intros Hpos. unfold Llama2.block_forward, Llama2.attention_forward.
  cbv zeta. cbn [snd].
  eexists _, _. split; [reflexivity|].
  rewrite length_zip_with, !length_map. lia.
Qed.

Lemma layers_forward_caches layers :
  forall i (h : list Row) positions kvs ip h' kvs',
  length positions = length h ->
  layers_forward layers i h positions kvs ip = Some (h', kvs') ->
  (layers <> [] -> i + length layers <= length kvs)
  /\ length kvs' = length kvs
  /\ (forall j, j < i \/ i + length layers <= j -> kvs' !! j = kvs !! j)
  /\ (forall j kv, i <= j < i + length layers -> kvs !! j = Some kv ->
        exists key value,
          kvs' !! j = Some (set_kv_cache kv (slot_ids ip) key value)
          /\ length key = length h /\ length value = length h).
Proof.
  induction layers as [|l layers IH];
    intros i h positions kvs ip h' kvs' Hpos;
    cbn -[Llama2.block_forward].
  - intros [= <- <-]. split; [congruence|]. split; [reflexivity|].
    split; [reflexivity|]. intros j kv Hj. lia.
  - destruct (kvs !! i) as [kv|] eqn:Ei; [|discriminate].
    cbn -[Llama2.block_forward].
    pose proof (block_forward_length zero add pos_emb set_kv_cache
                  varlen_masked_self_attention
                  single_token_masked_self_attention l h positions kv ip
                  Hpos) as Hlen.
    destruct (block_forward_cache l h positions kv ip Hpos)
      as (key & value & Hkv & Hkl & Hvl).
    destruct (block_forward l h positions kv ip) as [h1 kv1].
    cbn [fst snd] in Hlen, Hkv. intros H.
    apply IH in H as (Hle & Hl & Hout & Hin); [|lia].
    rewrite length_insert in Hle, Hl.
    pose proof (lookup_lt_Some _ _ _ Ei) as Hi.
    split.
    { intros _. cbn [length]. destruct layers as [|l' layers'].
      - cbn [length]. lia.
      - specialize (Hle ltac:(discriminate)). lia. }
    split; [assumption|]. split.
    + intros j Hj. cbn [length] in Hj.
      rewrite Hout by lia. apply list_lookup_insert_ne. lia.
    + intros j kvj Hj Hkvj. cbn [length] in Hj.
      destruct (decide (j = i)) as [->|Hne].
      * rewrite Hout by lia.
        rewrite list_lookup_insert_eq by assumption.
        rewrite Ei in Hkvj. injection Hkvj as <-.
        exists key, value. rewrite Hkv. auto.
      * destruct (Hin j kvj) as (key' & value' & E & Hk' & Hv');
          [lia|rewrite list_lookup_insert_ne by lia; assumption|].
        exists key', value'. split; [assumption|]. lia.
Qed.

(** X10. For a call with one position per token, [forward] returns a
    result only if there is a cache for every layer and every entry of
    [last_token_indicies] is a row of the token tensor: layer [i] reads
    [kv_caches[i]], and [index_select] raises for an index outside the
    hidden states, of which there is one row per token. *)
Theorem forward_needs_caches_and_rows (m : @Model Row Logits)
    (tokens positions : list Z) (kvs : list KVCache)
    (ip : InputParameters) :
  length positions = length tokens ->
  is_Some (forward m tokens positions kvs ip) ->
  length (layers_ m) <= length kvs
  /\ Forall (fun idx => (0 <= idx < Z.of_nat (length tokens))%Z)
       (last_token_indicies ip).
Proof.
  intros Hpos [[logits kvs'] H].
  destruct (forward_rows zero add pos_emb set_kv_cache
              varlen_masked_self_attention
              single_token_masked_self_attention m tokens positions kvs ip
              logits kvs' Hpos H) as (h & Hh & _ & _ & Hidx).
  split.
  - unfold Llama2.hidden_states in Hh.
    destruct (layers_forward _ _ _ _ _ _) as [[h1 kvs1]|] eqn:E;
      [|discriminate].
    apply layers_forward_caches in E as [E _];
      [|now rewrite length_map].
    destruct (layers_ m) as [|l0 ls]; [cbn [length]; lia|].
    specialize (E ltac:(discriminate)). lia.
  - apply Forall_forall. intros idx Hin.
    apply list_elem_of_lookup in Hin as [j Hj].
    apply (Hidx j idx Hj).
Qed.

(** X11. A forward pass changes only the caches of the model's own
    layers, each exactly once: the list of caches keeps its length, a
    cache beyond the last layer is returned as it was, and the cache of
    layer [j] is its input cache after a single store, into the batch's
    slots, of one key row and one value row per token. *)
Theorem forward_stores_once_per_layer (m : @Model Row Logits)
    (tokens positions : list Z) (kvs : list KVCache) (ip : InputParameters)
    (logits : list Logits) (kvs' : list KVCache) :
  length positions = length tokens ->
  forward m tokens positions kvs ip = Some (logits, kvs') ->
  length kvs' = length kvs
  /\ (forall j, length (layers_ m) <= j -> kvs' !! j = kvs !! j)
  /\ (forall j kv, j < length (layers_ m) -> kvs !! j = Some kv ->
        exists key value,
          kvs' !! j = Some (set_kv_cache kv (slot_ids ip) key value)
          /\ length key = length tokens /\ length value = length tokens).
Proof.
  intros Hpos H. unfold Llama2.forward, Llama2.hidden_states in H.
  destruct (layers_forward _ _ _ _ _ _) as [[h1 kvs1]|] eqn:E;
    [|discriminate].
  cbn in H.
  destruct (index_select _ _) as [rows|]; [|discriminate].
  cbn in H. injection H as _ <-.
  apply layers_forward_caches in E as (_ & Hl & Hout & Hin);
    [|now rewrite length_map].
  split; [assumption|]. split.
  - intros j Hj. apply Hout. lia.
  - intros j kv Hj Hkv.
    destruct (Hin j kv) as (key & value & Ek & Hk & Hv); [lia|assumption|].
    rewrite length_map in Hk, Hv. eauto.
Qed.

End Llama2AttentionFacts.

Section Llama2FeedForwardFacts.
Import Llama2FeedForward.

Context {float : Type}.
Variable one : float.
Variable scale : Z -> float -> option Z.

Lemma int64_Some (z : Z) :
  (- 2 ^ 63 <= z < 2 ^ 63)%Z -> int64 z = Some z.
Proof.
  intros H. unfold int64.
  destruct (Z.leb_spec (- 2 ^ 63) z); [|lia].
  destruct (Z.ltb_spec z (2 ^ 63)); [reflexivity|lia].
Qed.

(** X12. The feed-forward width is the scaled width rounded up to the
    next multiple of [multiple_of]: for a model dimension and a granule
    below 2^31 and a scaled width [h] that is not negative, the
    constructor's arithmetic stays inside [int64_t] and yields the least
    multiple of [multiple_of] that is at least [h]. *)
Theorem hidden_dim_rounds_up (dim multiple_of : Z)
    (ffn_dim_multiplier : option float) (h : Z) :
  (0 <= dim < 2 ^ 31)%Z ->
  (0 < multiple_of < 2 ^ 31)%Z ->
  scale (Z.quot (8 * dim) 3) (default one ffn_dim_multiplier) = Some h ->
  (0 <= h < 2 ^ 62)%Z ->
  exists r,
    hidden_dim one scale dim multiple_of ffn_dim_multiplier = Some r
    /\ (multiple_of | r)%Z
    /\ (h <= r < h + multiple_of)%Z
    /\ forall r', (multiple_of | r')%Z -> (h <= r')%Z -> (r <= r')%Z.
Proof.
  intros Hdim Hmo Hscale Hh.
  assert (P31 : (2 ^ 31 = 2147483648)%Z) by reflexivity.
  assert (P62 : (2 ^ 62 = 4611686018427387904)%Z) by reflexivity.
  assert (P63 : (2 ^ 63 = 9223372036854775808)%Z) by reflexivity.
  unfold hidden_dim. cbv zeta.
  rewrite (int64_Some (4 * dim)) by lia. cbn [mbind option_bind].
  rewrite (int64_Some (2 * (4 * dim))) by lia. cbn [mbind option_bind].
  unfold div64. cbn [Z.eqb].
  replace (2 * (4 * dim))%Z with (8 * dim)%Z by lia.
  rewrite (int64_Some (Z.quot (8 * dim) 3)).
  2:{ rewrite Z.quot_div_nonneg by lia.
      pose proof (Z.div_pos (8 * dim) 3 ltac:(lia) ltac:(lia)).
      pose proof (Z.div_le_upper_bound (8 * dim) 3 (8 * dim) ltac:(lia)
                    ltac:(lia)). lia. }
  cbn [mbind option_bind]. rewrite Hscale. cbn [mbind option_bind].
  rewrite (int64_Some (h + multiple_of)) by lia. cbn [mbind option_bind].
  rewrite (int64_Some (h + multiple_of - 1)) by lia.
  cbn [mbind option_bind].
  destruct (Z.eqb_spec multiple_of 0) as [|_]; [lia|].
  rewrite Z.quot_div_nonneg by lia.
  set (q := ((h + multiple_of - 1) / multiple_of)%Z).
  assert (Hq : (multiple_of * q <= h + multiple_of - 1
                < multiple_of * q + multiple_of)%Z).
  { unfold q.
    pose proof (Z.mul_div_le (h + multiple_of - 1) multiple_of ltac:(lia)).
    pose proof (Z.mul_succ_div_gt (h + multiple_of - 1) multiple_of
                  ltac:(lia)). lia. }
  assert (Hq0 : (0 <= q)%Z) by (unfold q; apply Z.div_pos; lia).
  rewrite (int64_Some q) by nia. cbn [mbind option_bind].
  rewrite (int64_Some (multiple_of * q)) by lia.
  exists (multiple_of * q)%Z. split; [reflexivity|].
  split; [exists q; lia|]. split; [lia|].
  intros r' [c ->] Hc.
  assert (q < c + 1)%Z
    by (apply (Z.mul_lt_mono_pos_l multiple_of); lia).
  assert (multiple_of * q <= multiple_of * c)%Z
    by (apply Z.mul_le_mono_nonneg_l; lia).
  lia.
Qed.

End Llama2FeedForwardFacts.

Lemma attention_rows_split_witness :
  Llama2Examples.marked_attention [10; 20; 30]%Z 2
  = ([1; 1; 2]%Z, [[10; 20; 30]%Z]).
Proof.
  refine (attention_rows_split 0%Z (fun r _ => r)
            Llama2Examples.record_keys Llama2Examples.mark_prefill
            Llama2Examples.mark_decode Examples.toy_block [10; 20; 30]%Z
            [0; 0; 0]%Z []
            (Llama2.mkInputParameters 2 [] 0 [] [] [] 0 []) _ _ _ _).
  - intros q k v cu m o. apply length_map.
  - intros kv q bt cl m o. apply length_map.
  - reflexivity.
  - cbn. lia.
Defined.

Lemma forward_needs_caches_and_rows_witness :
  length (Llama2.layers_ Llama2Examples.two_layer_model) <= 3
  /\ Forall (fun idx => (0 <= idx < 3)%Z) [1; 2]%Z.
Proof.
  apply (forward_needs_caches_and_rows 0%Z Z.add (fun r _ => r)
           Llama2Examples.record_keys Llama2Examples.mark_prefill
           Llama2Examples.mark_decode Llama2Examples.two_layer_model
           [5; 6; 7]%Z [0; 1; 0]%Z [[]; []; []]
           (Llama2.mkInputParameters 2 [] 0 [] [] [] 0 [1; 2]%Z)).
  - reflexivity.
  - vm_compute. eexists. reflexivity.
Defined.

(** One cache for two layers, and a last-token index beyond the three
    tokens: no result. *)
Example forward_without_result :
  Llama2Examples.two_layer_forward [[]] [1; 2]%Z = None
  /\ Llama2Examples.two_layer_forward [[]; []] [1; 3]%Z = None
  /\ is_Some (Llama2Examples.two_layer_forward [[]; []] [1; 2]%Z).
Proof. vm_compute. repeat split. eexists. reflexivity. Qed.

Lemma forward_stores_once_per_layer_witness :
  exists logits kvs',
    Llama2Examples.two_layer_forward [[]; []; [[9]%Z]] [1; 2]%Z
    = Some (logits, kvs')
    /\ length kvs' = 3
    /\ kvs' !! 2 = Some [[9]%Z].
Proof.
  eexists _, _. split; [vm_compute; reflexivity|].
  destruct (forward_stores_once_per_layer 0%Z Z.add (fun r _ => r)
              Llama2Examples.record_keys Llama2Examples.mark_prefill
              Llama2Examples.mark_decode Llama2Examples.two_layer_model
              [5; 6; 7]%Z [0; 1; 0]%Z [[]; []; [[9]%Z]]
              (Llama2.mkInputParameters 2 [] 0 [] [] [] 0 [1; 2]%Z)
              _ _ eq_refl eq_refl) as (Hl & Hout & _).
  split; [exact Hl|]. apply (Hout 2). cbn. lia.
Defined.

Lemma hidden_dim_rounds_up_witness :
  exists r,
    Llama2Examples.hidden_dim_7b = Some r
    /\ (256 | r)%Z /\ (10922 <= r < 10922 + 256)%Z.
Proof.
  destruct (@hidden_dim_rounds_up unit tt (fun h _ => Some h) 4096 256 None
              10922) as (r & E & D & B & _).
  - cbn. lia.
  - cbn. lia.
  - reflexivity.
  - cbn. lia.
  - exists r. auto.
Defined.

Example hidden_dim_llama2_7b : Llama2Examples.hidden_dim_7b = Some 11008%Z.
Proof. reflexivity. Qed.
Section Llama2StateDictFacts.
Import Llama2StateDict.
Local Open Scope list_scope.

Lemma string_of_uint_digits (d : Decimal.uint) :
  all_digits (NilEmpty.string_of_uint d) = true.
Proof. induction d; cbn; auto. Qed.

Lemma to_string_inj (i j : nat) : to_string i = to_string j -> i = j.
Proof.
  unfold to_string. intros E.
  assert (Hu : Nat.to_uint i = Nat.to_uint j).
  { apply (f_equal NilEmpty.uint_of_string) in E.
    rewrite !NilEmpty.usu in E. congruence. }
  apply (f_equal Nat.of_uint) in Hu.
  now rewrite !Unsigned.of_to in Hu.
Qed.

(** Two digit strings, each followed by a dot: the first is a prefix of
    the second only if they are equal. *)
Lemma append_cons (c : ascii) (a s : string) :
  String.append (String c a) s = String c (String.append a s).
Proof. reflexivity. Qed.

Lemma append_empty (s : string) : String.append "" s = s.
Proof. reflexivity. Qed.

Lemma prefix_cons (c c' : ascii) (a b : string) :
  String.prefix (String c a) (String c' b) = true ->
  c = c' /\ String.prefix a b = true.
Proof.
  cbn [String.prefix]. destruct (ascii_dec c c'); [auto|discriminate].
Qed.

Lemma digits_dot_prefix (a b : string) :
  all_digits a = true -> all_digits b = true ->
  String.prefix (a ++ ".") (b ++ ".") = true -> a = b.
Proof.
  revert b. induction a as [|c a IH]; intros [|c' b] Ha Hb Hp;
    rewrite ?append_cons, ?append_empty in Hp.
  - reflexivity.
  - apply prefix_cons in Hp as [<- _]. cbn in Hb. discriminate Hb.
  - apply prefix_cons in Hp as [-> _]. cbn in Ha. discriminate Ha.
  - apply prefix_cons in Hp as [<- Hp].
    cbn [all_digits] in Ha, Hb. apply andb_true_iff in Ha as [_ Ha].
    apply andb_true_iff in Hb as [_ Hb].
    f_equal. now apply IH.
Qed.

Lemma layer_prefix_prefix (i j : nat) :
  String.prefix (layer_prefix i) (layer_prefix j) = true -> i = j.
Proof.
  unfold layer_prefix. intros Hp.
  repeat (rewrite !append_cons in Hp; apply prefix_cons in Hp as [_ Hp]).
  rewrite !append_empty in Hp.
  apply to_string_inj.
  apply digits_dot_prefix; [apply string_of_uint_digits..|exact Hp].
Qed.

Lemma layer_prefix_head (i : nat) :
  exists rest, layer_prefix i = String "l" rest.
Proof. unfold layer_prefix. rewrite append_cons. eauto. Qed.

(** X13. No checkpoint entry can be claimed twice: the prefixes that
    [ModelImpl::load_state_dict] selects (the embeddings, one per
    layer, the norm and the output) are distinct and none is a prefix of
    another, for any number of layers; in particular the prefix of layer
    1 does not capture the entries of layers 10 to 19. *)
Theorem load_state_dict_prefixes_disjoint (n_layers : nat) (i j : nat)
    (p q : string) :
  load_state_dict_prefixes n_layers !! i = Some p ->
  load_state_dict_prefixes n_layers !! j = Some q ->
  String.prefix p q = true ->
  i = j.
Proof.
  unfold load_state_dict_prefixes.
  assert (Hlayer : forall k s,
            (layer_prefix <$> seq 0 n_layers) !! k = Some s ->
            k < n_layers /\ s = layer_prefix k).
  { intros k s Hk. rewrite list_lookup_fmap in Hk.
    destruct (seq 0 n_layers !! k) as [m|] eqn:Em; [|discriminate].
    apply lookup_seq in Em as [-> Hlt]. cbn in Hk.
    split; [exact Hlt|congruence]. }
  assert (Hcase : forall k s,
            (["tok_embeddings."] ++ (layer_prefix <$> seq 0 n_layers)
             ++ ["norm."; "output."]) !! k = Some s ->
            (k = 0 /\ s = "tok_embeddings.")
            \/ (1 <= k <= n_layers /\ s = layer_prefix (k - 1))
            \/ (k = S n_layers /\ s = "norm.")
            \/ (k = S (S n_layers) /\ s = "output.")).
  { intros k s Hk. destruct k as [|k]; [left; cbn in Hk; split; congruence|].
    cbn [app lookup list_lookup] in Hk. right.
    change (((layer_prefix <$> seq 0 n_layers) ++ ["norm."; "output."]) !! k
            = Some s) in Hk.
    apply lookup_app_Some in Hk as [Hk|[Hge Hk]].
    - left. apply Hlayer in Hk as [Hlt ->].
      split; [lia|]. f_equal. lia.
    - right. rewrite length_fmap, length_seq in Hge, Hk.
      destruct (k - n_layers) as [|[|m]] eqn:Ek; cbn in Hk.
      + left. split; [lia|congruence].
      + right. split; [lia|congruence].
      + discriminate. }
  intros Hi Hj Hp.
  apply Hcase in Hi as [[-> ->]|[[Hi ->]|[[-> ->]|[-> ->]]]];
    apply Hcase in Hj as [[-> ->]|[[Hj ->]|[[-> ->]|[-> ->]]]];
    try reflexivity;
    try (destruct (layer_prefix_head (i - 1)) as [rest Er];
         rewrite Er in Hp; cbn in Hp; discriminate Hp);
    try (destruct (layer_prefix_head (j - 1)) as [rest Er];
         rewrite Er in Hp; cbn in Hp; discriminate Hp);
    try (cbn in Hp; discriminate Hp).
  apply layer_prefix_prefix in Hp. lia.
Qed.

End Llama2StateDictFacts.

Lemma load_state_dict_prefixes_disjoint_witness :
  Llama2StateDict.load_state_dict_prefixes 12 !! 2 = Some "layers.1."
  /\ Llama2StateDict.load_state_dict_prefixes 12 !! 11 = Some "layers.10."
  /\ String.prefix "layers.1." "layers.10." = false.
Proof.
  split; [reflexivity|]. split; [reflexivity|].
  destruct (String.prefix "layers.1." "layers.10.") eqn:E; [|reflexivity].
  exfalso.
  assert (H : 2 = 11); [|discriminate H].
  exact (load_state_dict_prefixes_disjoint 12 2 11 "layers.1." "layers.10."
           eq_refl eq_refl E).
Defined.
Section InvFreqFacts.
Import PosEmbedding.
Local Open Scope list_scope.

(** Entry [i] of the default inverse frequencies, in exact arithmetic. *)
Lemma inv_freq_lookup (rotary_dim : Z) (theta : R) (i : nat) :
  Z.even rotary_dim = true -> (0 <= rotary_dim)%Z ->
  i < Z.to_nat (rotary_dim / 2) ->
  exists freqs,
    compute_default_inv_freq rotary_dim theta = Returned freqs
    /\ length freqs = Z.to_nat (rotary_dim / 2)
    /\ freqs !! i = Some (Rpower theta (- (2 * INR i) / IZR rotary_dim)%R).
Proof.
  intros Heven Hd Hi.
  rewrite compute_default_inv_freq_even by assumption.
  eexists. split; [reflexivity|].
  rewrite length_fmap, length_seq. split; [reflexivity|].
  rewrite list_lookup_fmap, lookup_seq_lt by assumption.
  cbn [fdiv fone fpow of_int RealOps Nat.add fmap option_fmap option_map].
  f_equal. unfold Rdiv at 1. rewrite Rmult_1_l, <- Rpower_Ropp. f_equal.
  rewrite mult_IZR, <- INR_IZR_INZ. unfold Rdiv. ring.
Qed.

(** X14. For [theta > 1] and an even [rotary_dim >= 2] the default
    inverse frequencies, in exact arithmetic, start at exactly 1 and
    decrease strictly from one entry to the next, and every entry stays
    above [1 / theta]. *)
Theorem inv_freq_decreasing (rotary_dim : Z) (theta : R) :
  Z.even rotary_dim = true -> (2 <= rotary_dim)%Z -> (1 < theta)%R ->
  exists freqs : list R,
    compute_default_inv_freq rotary_dim theta = Returned freqs
    /\ freqs !! 0 = Some 1%R
    /\ (forall i j a b, i < j -> freqs !! i = Some a -> freqs !! j = Some b ->
          (b < a)%R)
    /\ Forall (fun a => (1 / theta < a <= 1)%R) freqs.
Proof.
  intros Heven Hd Htheta.
  assert (Hd0 : (0 <= rotary_dim)%Z) by lia.
  assert (Hn : 0 < Z.to_nat (rotary_dim / 2)).
  { pose proof (Z.div_le_lower_bound rotary_dim 2 1 ltac:(lia) ltac:(lia)).
    lia. }
  assert (Hdpos : (0 < IZR rotary_dim)%R) by (apply IZR_lt; lia).
  destruct (inv_freq_lookup rotary_dim theta 0 Heven Hd0 Hn)
    as (freqs & E & Hlen & H0).
  exists freqs. split; [exact E|].
  assert (Hat : forall i a, freqs !! i = Some a ->
            i < Z.to_nat (rotary_dim / 2)
            /\ a = Rpower theta (- (2 * INR i) / IZR rotary_dim)%R).
  { intros i a Hi. pose proof (lookup_lt_Some _ _ _ Hi) as Hlt.
    rewrite Hlen in Hlt. split; [exact Hlt|].
    destruct (inv_freq_lookup rotary_dim theta i Heven Hd0 Hlt)
      as (freqs' & E' & _ & Hi').
    rewrite E in E'. injection E' as <-. congruence. }
  split; [|split].
  - rewrite H0. f_equal. cbn [INR].
    replace (- (2 * 0) / IZR rotary_dim)%R with 0%R by (unfold Rdiv; ring).
    apply Rpower_O. lra.
  - intros i j a b Hij Hi Hj.
    apply Hat in Hi as [_ ->]. apply Hat in Hj as [_ ->].
    apply Rpower_lt; [assumption|].
    unfold Rdiv. apply Rmult_lt_compat_r; [now apply Rinv_0_lt_compat|].
    apply lt_INR in Hij. lra.
  - apply Forall_forall. intros a Ha.
    apply list_elem_of_lookup in Ha as [i Hi].
    apply Hat in Hi as [Hlt ->].
    assert (Hi2 : (2 * INR i < IZR rotary_dim)%R).
    { assert (2 * Z.of_nat i < rotary_dim)%Z.
      { pose proof (Z.mul_div_le rotary_dim 2 ltac:(lia)). lia. }
      rewrite INR_IZR_INZ, <- mult_IZR. now apply IZR_lt. }
    pose proof (pos_INR i) as Hi0.
    split.
    + replace (1 / theta)%R with (Rpower theta (Ropp 1)).
      * apply Rpower_lt; [assumption|].
        apply Rmult_lt_reg_r with (IZR rotary_dim); [assumption|].
        unfold Rdiv. rewrite Rmult_assoc, Rinv_l by lra. lra.
      * rewrite Rpower_Ropp, Rpower_1 by lra. unfold Rdiv. ring.
    + rewrite <- (Rpower_O theta) by lra.
      apply Rle_Rpower; [lra|].
      unfold Rdiv. rewrite <- Ropp_mult_distr_l.
      assert (0 <= 2 * INR i * / IZR rotary_dim)%R; [|lra].
      apply Rmult_le_pos; [lra|]. left. now apply Rinv_0_lt_compat.
Qed.

End InvFreqFacts.

Lemma inv_freq_decreasing_witness :
  exists freqs : list R,
    PosEmbedding.compute_default_inv_freq 128 10000%R
    = PosEmbedding.Returned freqs
    /\ freqs !! 0 = Some 1%R
    /\ Forall (fun a => (1 / 10000 < a <= 1)%R) freqs.
Proof.
  destruct (inv_freq_decreasing 128 10000%R) as (freqs & E & H0 & _ & Hb).
  - reflexivity.
  - lia.
  - lra.
  - exists freqs. auto.
Defined.

Section Llama3ScalingFacts.
Import PosEmbedding Rotary.
Local Open Scope list_scope.
Local Open Scope R_scope.

Lemma flt_spec (a b : R) : flt a b = true <-> a < b.
Proof. cbn. destruct (Rlt_dec a b); split; (easy || discriminate). Qed.

Lemma flt_false (a b : R) : flt a b = false <-> b <= a.
Proof.
  cbn. destruct (Rlt_dec a b) as [Hlt|Hge]; split; intros H.
  - discriminate.
  - exfalso. lra.
  - lra.
  - reflexivity.
Qed.

Lemma feqb_spec (a b : R) : feqb a b = true <-> a = b.
Proof. cbn. destruct (Req_dec_T a b); split; (easy || discriminate). Qed.

Variables (factor low_freq_factor high_freq_factor : R).
Variable old_context_len : Z.

Local Abbreviation low_freq_wavelen := (IZR old_context_len / low_freq_factor).
Local Abbreviation high_freq_wavelen :=
  (IZR old_context_len / high_freq_factor).
Local Abbreviation wavelen freq := (2 * PI / freq).
Local Abbreviation loop :=
  (llama3_loop factor low_freq_factor high_freq_factor old_context_len
     low_freq_wavelen high_freq_wavelen).

Local Abbreviation llama3_new_freq :=
  (llama3_new_freq factor low_freq_factor high_freq_factor old_context_len).
Local Abbreviation llama3_stops_at :=
  (llama3_stops_at low_freq_factor high_freq_factor old_context_len).

Lemma llama3_loop_step (freq : R) (rest acc : list R) :
  (llama3_stops_at freq /\ exists msg, loop (freq :: rest) acc = CheckFailed msg)
  \/ (~ llama3_stops_at freq
      /\ loop (freq :: rest) acc = loop rest (acc ++ [llama3_new_freq freq])).
Proof.
  unfold Rotary.llama3_stops_at, Rotary.llama3_new_freq. cbv zeta.
  cbn [llama3_loop]. cbn [fdiv fmul of_int fpi fone fadd fsub RealOps RealRopeOps].
  destruct (flt (2 * PI / freq) high_freq_wavelen) eqn:E1.
  - right. apply flt_spec in E1. split; [lra|reflexivity].
  - destruct (flt low_freq_wavelen (2 * PI / freq)) eqn:E2.
    + right. apply flt_spec in E2. split; [lra|reflexivity].
    + apply flt_false in E1, E2.
      destruct (feqb low_freq_wavelen high_freq_wavelen) eqn:E3.
      * left. apply feqb_spec in E3. split; [split; lra|eauto].
      * right. split; [|reflexivity].
        intros [_ Heq]. apply feqb_spec in Heq. congruence.
Qed.

Lemma llama3_loop_spec (inv_freq : list R) : forall acc,
  (Exists llama3_stops_at inv_freq
   /\ exists msg, loop inv_freq acc = CheckFailed msg)
  \/ (Forall (fun f => ~ llama3_stops_at f) inv_freq
      /\ loop inv_freq acc = Returned (acc ++ (llama3_new_freq <$> inv_freq))).
Proof.
  induction inv_freq as [|freq rest IH]; intros acc.
  - right. split; [constructor|]. cbn. now rewrite app_nil_r.
  - destruct (llama3_loop_step freq rest acc) as [[Hs Hc]|[Hn ->]].
    + left. split; [now left|exact Hc].
    + destruct (IH (acc ++ [llama3_new_freq freq])) as [[Hs Hc]|[Hall ->]].
      * left. split; [now right|exact Hc].
      * right. split; [now constructor|].
        rewrite <- app_assoc. reflexivity.
Qed.

(** X15. Llama-3 scaling never raises a frequency and never lowers it by
    more than [factor]: in exact arithmetic, for [factor >= 1],
    [0 < low_freq_factor < high_freq_factor], a positive context length
    and positive frequencies, the call returns one new frequency per
    input frequency, each between [freq / factor] and [freq]; a
    frequency whose wavelength is below [old_context_len /
    high_freq_factor] is returned unchanged and one whose wavelength is
    above [old_context_len / low_freq_factor] is divided by [factor]. *)
Theorem llama3_scaling_bounds (inv_freq : list R) :
  1 <= factor ->
  0 < low_freq_factor < high_freq_factor ->
  (0 < old_context_len)%Z ->
  Forall (fun f => 0 < f) inv_freq ->
  exists new_inv_freq,
    apply_llama3_rope_scaling inv_freq factor low_freq_factor
      high_freq_factor old_context_len = Returned new_inv_freq
    /\ Forall2
         (fun freq new_freq =>
            freq / factor <= new_freq <= freq
            /\ (wavelen freq < high_freq_wavelen -> new_freq = freq)
            /\ (low_freq_wavelen < wavelen freq -> new_freq = freq / factor))
         inv_freq new_inv_freq.
Proof.
  intros Hfac [Hlow Hhigh] Hctx Hpos.
  assert (Hc : 0 < IZR old_context_len) by (now apply IZR_lt).
  assert (Hhl : high_freq_wavelen < low_freq_wavelen).
  { unfold Rdiv. apply Rmult_lt_compat_l; [assumption|].
    apply Rinv_lt_contravar; [nra|assumption]. }
  unfold apply_llama3_rope_scaling.
  cbn [fdiv of_int RealOps].
  destruct (llama3_loop_spec inv_freq []) as [[Hs _]|[_ ->]].
  { exfalso. apply Exists_exists in Hs as (f & _ & _ & Heq). lra. }
  eexists. split; [reflexivity|]. cbn [app].
  apply Forall2_fmap_r, Forall_Forall2_diag.
  eapply Forall_impl; [exact Hpos|]. intros freq Hf. cbn beta.
  assert (Hu : 0 < / factor <= 1).
  { split; [apply Rinv_0_lt_compat; lra|].
    rewrite <- Rinv_1. apply Rinv_le_contravar; lra. }
  assert (Hw : 0 < wavelen freq).
  { unfold Rdiv. apply Rmult_lt_0_compat; [|now apply Rinv_0_lt_compat].
    pose proof PI_RGT_0. lra. }
  unfold compose, Rotary.llama3_new_freq. cbv beta zeta.
  destruct (flt (wavelen freq) high_freq_wavelen) eqn:E1.
  { apply flt_spec in E1. split; [|split; [reflexivity|lra]].
    unfold Rdiv. nra. }
  apply flt_false in E1.
  destruct (flt low_freq_wavelen (wavelen freq)) eqn:E2.
  { apply flt_spec in E2. split; [|split; [lra|reflexivity]].
    unfold Rdiv. nra. }
  apply flt_false in E2.
  cbv zeta.
  set (smooth := (IZR old_context_len / wavelen freq - low_freq_factor)
                 / (high_freq_factor - low_freq_factor)).
  assert (Hcw : low_freq_factor <= IZR old_context_len / wavelen freq
                <= high_freq_factor).
  { split.
    - apply Rmult_le_reg_r with (wavelen freq); [assumption|].
      unfold Rdiv at 2. rewrite Rmult_assoc, Rinv_l, Rmult_1_r by lra.
      apply Rmult_le_reg_r with (/ low_freq_factor);
        [now apply Rinv_0_lt_compat|].
      replace (low_freq_factor * wavelen freq * / low_freq_factor)
        with (wavelen freq) by (field; lra).
      exact E2.
    - apply Rmult_le_reg_r with (wavelen freq); [assumption|].
      unfold Rdiv at 1. rewrite Rmult_assoc, Rinv_l, Rmult_1_r by lra.
      apply Rmult_le_reg_r with (/ high_freq_factor);
        [apply Rinv_0_lt_compat; lra|].
      replace (high_freq_factor * wavelen freq * / high_freq_factor)
        with (wavelen freq) by (field; lra).
      exact E1. }
  assert (Hs : 0 <= smooth <= 1).
  { unfold smooth. split.
    - apply Rmult_le_pos; [lra|]. left. apply Rinv_0_lt_compat. lra.
    - apply Rmult_le_reg_r with (high_freq_factor - low_freq_factor);
        [lra|].
      unfold Rdiv. rewrite Rmult_assoc, Rinv_l by lra. lra. }
  split; [|split; intros; lra].
  clearbody smooth. cbv beta in Hf. unfold Rdiv.
  set (u := / factor) in *. clearbody u.
  assert (0 <= smooth * freq) by nra.
  assert (0 <= (1 - smooth) * freq) by nra.
  assert (0 <= smooth * freq * (1 - u)) by (apply Rmult_le_pos; lra).
  assert (0 <= (1 - smooth) * freq * (1 - u)) by (apply Rmult_le_pos; lra).
  split; lra.
Qed.

(** X16. The scaling aborts in its [CHECK_NE] exactly when the two
    wavelength bounds coincide and some frequency has exactly that
    wavelength; for positive factors and context length the bounds
    coincide exactly when [low_freq_factor = high_freq_factor]. In
    every other case it returns one frequency per input frequency. *)
Theorem llama3_scaling_check (inv_freq : list R) :
  0 < low_freq_factor -> 0 < high_freq_factor ->
  (0 < old_context_len)%Z ->
  ((exists msg,
      apply_llama3_rope_scaling inv_freq factor low_freq_factor
        high_freq_factor old_context_len = CheckFailed msg)
   <-> low_freq_factor = high_freq_factor
       /\ Exists (fun freq => wavelen freq = low_freq_wavelen) inv_freq)
  /\ ((exists new_inv_freq,
         apply_llama3_rope_scaling inv_freq factor low_freq_factor
           high_freq_factor old_context_len = Returned new_inv_freq
         /\ length new_inv_freq = length inv_freq)
      <-> ~ (low_freq_factor = high_freq_factor
             /\ Exists (fun freq => wavelen freq = low_freq_wavelen)
                  inv_freq)).
Proof.
  intros Hlow Hhigh Hctx.
  assert (Hc : 0 < IZR old_context_len) by (now apply IZR_lt).
  assert (Heq : low_freq_wavelen = high_freq_wavelen
                <-> low_freq_factor = high_freq_factor).
  { split; [|now intros ->]. intros H.
    apply Rmult_eq_reg_l in H; [|lra].
    apply Rinv_eq_reg in H. exact H. }
  assert (Hstop : Exists llama3_stops_at inv_freq
                  <-> low_freq_factor = high_freq_factor
                      /\ Exists (fun freq => wavelen freq = low_freq_wavelen)
                           inv_freq).
  { rewrite !Exists_exists. unfold Rotary.llama3_stops_at. split.
    - intros (f & Hin & Hw & Hlh). split; [now apply Heq|eauto].
    - intros (Hlh & f & Hin & Hw). exists f. split; [exact Hin|].
      split; [exact Hw|now apply Heq]. }
  unfold apply_llama3_rope_scaling. cbn [fdiv of_int RealOps].
  rewrite <- Hstop.
  destruct (llama3_loop_spec inv_freq []) as [[Hs [msg ->]]|[Hall ->]].
  - split.
    + split; [intros _; exact Hs|intros _; eauto].
    + split.
      * intros (new & Hnew & _). discriminate Hnew.
      * intros Hn. now destruct Hn.
  - assert (Hn : ~ Exists llama3_stops_at inv_freq).
    { rewrite Exists_exists. intros (f & Hin & Hf).
      exact (proj1 (Forall_forall _ _) Hall f Hin Hf). }
    split.
    + split.
      * intros [msg Hmsg]. discriminate Hmsg.
      * intros Hs. now destruct Hn.
    + split; [intros _; exact Hn|].
      intros _. eexists. split; [reflexivity|]. cbn [app].
      apply length_fmap.
Qed.

End Llama3ScalingFacts.

Lemma llama3_scaling_bounds_witness :
  exists new_inv_freq,
    Rotary.apply_llama3_rope_scaling [1; / 1000]%R 8%R 1%R 4%R 8192
    = PosEmbedding.Returned new_inv_freq
    /\ length new_inv_freq = 2.
Proof.
  destruct (llama3_scaling_bounds 8%R 1%R 4%R 8192 [1; / 1000]%R)
    as (new & E & H).
  - lra.
  - lra.
  - lia.
  - repeat constructor; lra.
  - exists new. split; [exact E|].
    apply Forall2_length in H. now rewrite <- H.
Defined.

Lemma llama3_scaling_check_witness :
  (exists msg,
     Rotary.apply_llama3_rope_scaling [(2 * PI / 8192)%R] 8%R 1%R 1%R 8192
     = PosEmbedding.CheckFailed msg).
Proof.
  apply (llama3_scaling_check 8%R 1%R 1%R 8192 [(2 * PI / 8192)%R]).
  - lra.
  - lra.
  - lia.
  - split; [reflexivity|]. constructor.
    pose proof PI_RGT_0. field. lra.
Defined.
Section TensorFacts.
Import PosEmbedding Rotary.
Local Open Scope list_scope.

Context {F : Type}.

Lemma broadcast_dim_refl (a : nat) : broadcast_dim a a = Some a.
Proof. unfold broadcast_dim. now rewrite Nat.eqb_refl. Qed.

Lemma broadcast_dim_1_r (a : nat) : broadcast_dim a 1 = Some a.
Proof.
  unfold broadcast_dim. destruct (Nat.eqb_spec a 1) as [->|_]; [reflexivity|].
  reflexivity.
Qed.

Lemma bidx_lt (size i : nat) : i < size -> bidx size i = i.
Proof.
  unfold bidx. destruct (Nat.eqb_spec size 1) as [->|_]; [lia|reflexivity].
Qed.

(** An operator applied to two tensors of one shape. *)
Lemma binop_same (f : F -> F -> F) (x y : Tensor3 F) :
  same_shape x y ->
  exists r,
    binop f x y = Returned r /\ same_shape r x
    /\ forall i j k, i < size0 x -> j < size1 x -> k < size2 x ->
         at3 r i j k = f (at3 x i j k) (at3 y i j k).
Proof.
  intros (H0 & H1 & H2). unfold binop.
  rewrite <- H0, <- H1, <- H2, !broadcast_dim_refl.
  eexists. split; [reflexivity|]. split; [repeat split|].
  intros i j k Hi Hj Hk. cbn [at3]. now rewrite !bidx_lt.
Qed.

(** An operator applied to a tensor and to one row per token, the same
    for every head. *)
Lemma binop_heads (f : F -> F -> F) (x y : Tensor3 F) :
  size0 x = size0 y -> size1 y = 1 -> size2 x = size2 y ->
  exists r,
    binop f x y = Returned r /\ same_shape r x
    /\ forall i j k, i < size0 x -> j < size1 x -> k < size2 x ->
         at3 r i j k = f (at3 x i j k) (at3 y i 0 k).
Proof.
  intros H0 H1 H2. unfold binop.
  rewrite <- H0, H1, <- H2, !broadcast_dim_refl, broadcast_dim_1_r.
  eexists. split; [reflexivity|]. split; [repeat split|].
  intros i j k Hi Hj Hk. cbn [at3]. change (bidx 1 j) with 0.
  now rewrite !bidx_lt.
Qed.

Lemma cat_last_spec (a b : Tensor3 F) :
  size0 a = size0 b -> size1 a = size1 b ->
  exists r,
    cat_last a b = Returned r
    /\ size0 r = size0 a /\ size1 r = size1 a
    /\ size2 r = size2 a + size2 b
    /\ forall i j k,
         at3 r i j k
         = if (k <? size2 a)%nat then at3 a i j k
           else at3 b i j (k - size2 a).
Proof.
  intros H0 H1. unfold cat_last. rewrite H0, H1, !Nat.eqb_refl.
  eexists. split; [reflexivity|]. repeat split; cbn; congruence.
Qed.
Lemma chunk_at_0 (a b : Tensor3 F) : chunk_at [a; b] 0 = Returned a.
Proof. reflexivity. Qed.

Lemma chunk_at_1 (a b : Tensor3 F) : chunk_at [a; b] 1 = Returned b.
Proof. reflexivity. Qed.
End TensorFacts.

Section RotateFacts.
Import PosEmbedding Rotary.
Local Open Scope list_scope.

Context {F : Type} `{RopeOps F}.

Lemma even_half_sizes (s : nat) :
  Nat.even s = true -> (s + 1 - 1) / 2 = (s + 1 - 0) / 2 /\ 2 * ((s + 1 - 1) / 2) = s.
Proof.
  intros He. apply Nat.even_spec in He as [m ->].
  replace (2 * m + 1 - 1) with (m * 2) by lia.
  replace (2 * m + 1 - 0) with (1 + m * 2) by lia.
  rewrite Nat.div_mul, Nat.div_add by lia. cbn. lia.
Qed.

Lemma odd_half_sizes (s : nat) :
  Nat.even s = false -> (s + 1 - 1) / 2 <> (s + 1 - 0) / 2.
Proof.
  intros Ho. rewrite <- Nat.negb_odd in Ho. apply negb_false_iff in Ho.
  apply Nat.odd_spec in Ho as [m ->].
  replace (2 * m + 1 + 1 - 1) with (1 + m * 2) by lia.
  replace (2 * m + 1 + 1 - 0) with ((m + 1) * 2) by lia.
  rewrite Nat.div_mul, Nat.div_add by lia. cbn. lia.
Qed.

Lemma rotate_every_two_spec (x : Tensor3 F) :
  Nat.even (size2 x) = true ->
  exists r,
    rotate_every_two x = Returned r /\ same_shape r x
    /\ forall i j k,
         at3 r i j k
         = if Nat.even k then fneg (at3 x i j (k + 1))
           else at3 x i j (k - 1).
Proof.
  intros He. destruct (even_half_sizes _ He) as [Hh Hs].
  unfold rotate_every_two, stack_flatten, every_second, map3.
  cbn [size0 size1 size2 at3]. rewrite !Nat.eqb_refl, Hh, Nat.eqb_refl.
  cbn [andb]. eexists. split; [reflexivity|].
  split; [repeat split; cbn [size2]; lia|].
  intros i j k. cbn [at3].
  destruct (Nat.even k) eqn:Ek.
  - apply Nat.even_spec in Ek as [m ->].
    replace (2 * m) with (m * 2) at 1 by lia. rewrite Nat.div_mul by lia.
    f_equal. f_equal. lia.
  - rewrite <- Nat.negb_odd in Ek. apply negb_false_iff in Ek.
    apply Nat.odd_spec in Ek as [m ->].
    replace (2 * m + 1) with (1 + m * 2) at 1 by lia.
    rewrite Nat.div_add by lia. cbn [Nat.div Nat.divmod fst Nat.add].
    f_equal. lia.
Qed.

Lemma rotate_every_two_odd (x : Tensor3 F) :
  Nat.even (size2 x) = false ->
  rotate_every_two x = Raised "stack expects each tensor to be equal size".
Proof.
  intros Ho. apply odd_half_sizes in Ho.
  unfold rotate_every_two, stack_flatten, every_second, map3.
  cbn [size0 size1 size2 at3]. rewrite !Nat.eqb_refl. cbn [andb].
  destruct (Nat.eqb_spec ((size2 x + 1 - 1) / 2) ((size2 x + 1 - 0) / 2));
    [contradiction|reflexivity].
Qed.

Lemma rotate_half_spec (x : Tensor3 F) (n : nat) :
  size2 x = 2 * n ->
  exists r,
    rotate_half x = Returned r /\ same_shape r x
    /\ forall i j k,
         at3 r i j k
         = if (k <? n)%nat then fneg (at3 x i j (k + n))
           else at3 x i j (k - n).
Proof.
  intros Hs. unfold rotate_half, chunk2. rewrite Hs.
  destruct n as [|n].
  - change (2 * 0) with 0 in *. cbn [Nat.eqb].
    rewrite chunk_at_0, chunk_at_1. cbn [bind].
    unfold cat_last, map3. cbn [size0 size1 size2 at3].
    rewrite !Nat.eqb_refl. cbn [andb].
    eexists. split; [reflexivity|].
    split; [repeat split; cbn [size2]; lia|].
    intros i j k. cbn [at3]. rewrite Hs. reflexivity.
  - replace (2 * S n =? 0)%nat with false
      by (symmetry; apply Nat.eqb_neq; lia).
    replace (2 * S n =? 1)%nat with false
      by (symmetry; apply Nat.eqb_neq; lia).
    replace ((2 * S n + 1) / 2) with (S n).
    2:{ replace (2 * S n + 1) with (1 + S n * 2) by lia.
        rewrite Nat.div_add by lia. reflexivity. }
    replace (2 * S n - S n) with (S n) by lia.
    rewrite chunk_at_0, chunk_at_1. cbn [bind].
    unfold cat_last, map3. cbn [size0 size1 size2 at3].
    rewrite !Nat.eqb_refl. cbn [andb].
    eexists. split; [reflexivity|].
    split; [repeat split; cbn [size2]; lia|].
    intros i j k. cbn [at3].
    destruct (Nat.ltb_spec k (S n)); [|reflexivity].
    f_equal. f_equal. lia.
Qed.

(** X17. Both rotations turn each pair by a quarter turn, so applying
    one twice negates the tensor: [rotate_every_two] returns exactly for
    an even last dimension (an odd one makes [stack] raise), and for an
    even last dimension [rotate_every_two] and [rotate_half], applied
    twice, return the input with every element negated. *)
Theorem rotate_twice_negates (x : Tensor3 F) :
  ((exists r, rotate_every_two x = Returned r)
   <-> Nat.even (size2 x) = true)
  /\ (Nat.even (size2 x) = true ->
      (exists r rr,
         rotate_every_two x = Returned r /\ rotate_every_two r = Returned rr
         /\ same_shape rr x
         /\ forall i j k, k < size2 x -> at3 rr i j k = fneg (at3 x i j k))
      /\ (exists r rr,
            rotate_half x = Returned r /\ rotate_half r = Returned rr
            /\ same_shape rr x
            /\ forall i j k, k < size2 x ->
                 at3 rr i j k = fneg (at3 x i j k))).
Proof.
  split.
  - split.
    + intros [r Hr]. destruct (Nat.even (size2 x)) eqn:E; [reflexivity|].
      rewrite rotate_every_two_odd in Hr by assumption. discriminate.
    + intros He. destruct (rotate_every_two_spec x He) as (r & Hr & _).
      eauto.
  - intros He. split.
    + destruct (rotate_every_two_spec x He) as (r & Hr & Hsh & Hat).
      assert (He' : Nat.even (size2 r) = true)
        by (destruct Hsh as (_ & _ & ->); exact He).
      destruct (rotate_every_two_spec r He') as (rr & Hrr & Hsh' & Hat').
      exists r, rr. split; [exact Hr|]. split; [exact Hrr|].
      split.
      { destruct Hsh as (? & ? & ?), Hsh' as (? & ? & ?).
        repeat split; congruence. }
      intros i j k Hk. rewrite Hat'.
      destruct (Nat.even k) eqn:Ek.
      * rewrite Hat. replace (Nat.even (k + 1)) with false.
        -- f_equal. f_equal. lia.
        -- rewrite Nat.even_add, Ek. reflexivity.
      * rewrite Hat.
        assert (k <> 0) by (intros ->; discriminate).
        replace (Nat.even (k - 1)) with true.
        -- f_equal. f_equal. lia.
        -- symmetry. rewrite Nat.even_sub by lia. rewrite Ek. reflexivity.
    + apply Nat.even_spec in He as [n Hn].
      destruct (rotate_half_spec x n Hn) as (r & Hr & Hsh & Hat).
      assert (Hn' : size2 r = 2 * n)
        by (destruct Hsh as (_ & _ & ->); exact Hn).
      destruct (rotate_half_spec r n Hn') as (rr & Hrr & Hsh' & Hat').
      exists r, rr. split; [exact Hr|]. split; [exact Hrr|].
      split.
      { destruct Hsh as (? & ? & ?), Hsh' as (? & ? & ?).
        repeat split; congruence. }
      intros i j k Hk. rewrite Hat'.
      destruct (Nat.ltb_spec k n).
      * rewrite Hat. destruct (Nat.ltb_spec (k + n) n); [lia|].
        f_equal. f_equal. lia.
      * rewrite Hat. destruct (Nat.ltb_spec (k - n) n); [|lia].
        f_equal. f_equal. lia.
Qed.

End RotateFacts.
Section RopeForwardFacts.
Import PosEmbedding Rotary.
Local Open Scope list_scope.

Context {F : Type} `{RopeOps F}.

Lemma Returned_inj {A : Type} (a b : A) :
  @Returned A a = Returned b -> a = b.
Proof. congruence. Qed.

Lemma arange_unit (m : Z) (t : list Z) :
  arange 0 m 1 = Some t ->
  length t = Z.to_nat m
  /\ forall p, (0 <= p < m)%Z -> nth (Z.to_nat p) t 0%Z = p.
Proof.
  unfold arange. cbn [Z.eqb Z.ltb Z.compare andb].
  destruct (m <? 0)%Z; [discriminate|]. intros [= <-].
  change (Z.sgn 1) with 1%Z. rewrite Z.div_1_r.
  replace (m - 0 + 1 - 1)%Z with m by lia.
  rewrite length_fmap, length_seq. split; [reflexivity|].
  intros p Hp.
  rewrite (nth_lookup_Some _ _ _ (Z.of_nat (Z.to_nat p))); [lia|].
  rewrite list_lookup_fmap, lookup_seq_lt by lia. cbn. f_equal. lia.
Qed.

Lemma slice_last_rotary (x : Tensor3 F) (n : nat) :
  n <= size2 x ->
  slice_last x 0 (Some (Z.of_nat n))
  = mkTensor3 (size0 x) (size1 x) n (fun i j k => at3 x i j (0 + k)).
Proof.
  intros Hn. unfold slice_last.
  rewrite slice_bounds_nonneg by (try lia; intros e [= <-]; lia).
  simpl default.
  replace (Z.to_nat (Z.min 0 (Z.of_nat (size2 x)))) with 0 by lia.
  f_equal. lia.
Qed.

Lemma slice_last_pass (x : Tensor3 F) (n : nat) :
  n <= size2 x ->
  slice_last x (Z.of_nat n) None
  = mkTensor3 (size0 x) (size1 x) (size2 x - n)
      (fun i j k => at3 x i j (n + k)).
Proof.
  intros Hn. unfold slice_last.
  rewrite slice_bounds_nonneg by (try lia; discriminate).
  simpl default.
  replace (Z.to_nat (Z.min (Z.of_nat n) (Z.of_nat (size2 x)))) with n by lia.
  f_equal. lia.
Qed.

(** The two halves of a row of [cos_sin]. *)
Lemma chunk2_cos_sin (cs : Tensor3 F) (n : nat) :
  size2 cs = 2 * n + 2 * n ->
  exists c s,
    chunk_at (chunk2 cs) 0 = Returned c /\ chunk_at (chunk2 cs) 1 = Returned s
    /\ size0 c = size0 cs /\ size1 c = size1 cs /\ size2 c = 2 * n
    /\ size0 s = size0 cs /\ size1 s = size1 cs /\ size2 s = 2 * n
    /\ (forall i j k, at3 c i j k = at3 cs i j k)
    /\ (forall i j k, at3 s i j k = at3 cs i j (2 * n + k)).
Proof.
  intros Hs. unfold chunk2. rewrite Hs. destruct n as [|n].
  - change (2 * 0 + 2 * 0) with 0. cbn [Nat.eqb].
    rewrite chunk_at_0, chunk_at_1. exists cs, cs.
    change (2 * 0 + 2 * 0) with 0 in Hs.
    repeat split; try assumption. 
  - replace (2 * S n + 2 * S n =? 0)%nat with false
      by (symmetry; apply Nat.eqb_neq; lia).
    replace (2 * S n + 2 * S n =? 1)%nat with false
      by (symmetry; apply Nat.eqb_neq; lia).
    replace ((2 * S n + 2 * S n + 1) / 2) with (2 * S n).
    2:{ replace (2 * S n + 2 * S n + 1) with (1 + (2 * S n) * 2) by lia.
        rewrite Nat.div_add by lia. reflexivity. }
    rewrite chunk_at_0, chunk_at_1. eexists _, _.
    split; [reflexivity|]. split; [reflexivity|].
    cbn [size0 size1 size2 at3]. repeat split; lia.
Qed.

(** [detail::apply_rotary_pos_emb] on one tensor of [n] pairs per row:
    the closed form of one of its two results. *)
Lemma rotate_embed_spec (interleaved : bool) (n : nat)
    (q c s : Tensor3 F) :
  size2 q = 2 * n ->
  size0 c = size0 q -> size1 c = 1 -> size2 c = 2 * n ->
  size0 s = size0 q -> size1 s = 1 -> size2 s = 2 * n ->
  exists e,
    bind (binop fmul q c) (fun qc =>
      bind (bind (if interleaved then rotate_every_two q else rotate_half q)
              (fun r => binop fmul r s))
        (fun rs => binop fadd qc rs)) = Returned e
    /\ same_shape e q
    /\ forall i j k, i < size0 q -> j < size1 q -> k < 2 * n ->
         at3 e i j k
         = fadd (fmul (at3 q i j k) (at3 c i 0 k))
             (fmul (if interleaved
                    then (if Nat.even k then fneg (at3 q i j (k + 1))
                          else at3 q i j (k - 1))
                    else (if (k <? n)%nat then fneg (at3 q i j (k + n))
                          else at3 q i j (k - n)))
                   (at3 s i 0 k)).
Proof.
  intros Hq Hc0 Hc1 Hc2 Hs0 Hs1 Hs2.
  destruct (binop_heads fmul q c) as (qc & -> & Hqc & Hqcat);
    [congruence..|]. cbn [bind].
  assert (Hr : exists r,
            (if interleaved then rotate_every_two q else rotate_half q)
            = Returned r
            /\ same_shape r q
            /\ forall i j k,
                 at3 r i j k
                 = if interleaved
                   then (if Nat.even k then fneg (at3 q i j (k + 1))
                         else at3 q i j (k - 1))
                   else (if (k <? n)%nat then fneg (at3 q i j (k + n))
                         else at3 q i j (k - n))).
  { destruct interleaved.
    - apply rotate_every_two_spec. rewrite Hq.
      apply Nat.even_spec. now exists n.
    - now apply rotate_half_spec. }
  destruct Hr as (r & -> & (Hr0 & Hr1 & Hr2) & Hrat). cbn [bind].
  destruct (binop_heads fmul r s) as (rs & -> & (Hrs0 & Hrs1 & Hrs2) & Hrsat);
    [congruence..|]. cbn [bind].
  destruct Hqc as (Hqc0 & Hqc1 & Hqc2).
  destruct (binop_same fadd qc rs) as (e & -> & (He0 & He1 & He2) & Heat).
  { repeat split; congruence. }
  exists e. split; [reflexivity|]. split; [repeat split; congruence|].
  intros i j k Hi Hj Hk.
  rewrite Heat by lia. rewrite Hqcat by lia. rewrite Hrsat by lia.
  rewrite Hrat. reflexivity.
Qed.

Variable dchecks : bool.
Variables (rotary_dim max_position_embeddings : Z) (inv_freq : list F).
Variable interleaved : bool.
Variable self : @RotaryEmbeddingGeneric F.

Local Abbreviation n := (length inv_freq).
(** The angles of the token at position [p]. *)
Local Abbreviation angle p :=
  (fun m => fmul (of_int p) (nth m inv_freq (of_int 0))).

Hypothesis Hnew :
  RotaryEmbeddingGeneric_new rotary_dim max_position_embeddings inv_freq
    interleaved = Returned self.
Hypothesis Hdim : rotary_dim = Z.of_nat (2 * n).

(** One of the two results of [forward]. *)
Lemma cache_row (positions : list Z) (T : nat) :
  length positions = T ->
  Forall (fun p => (0 <= p < max_position_embeddings)%Z) positions ->
  exists cs c s,
    embedding_unsqueeze positions (cos_sin_cache_ self) = Returned cs
    /\ chunk_at (chunk2 cs) 0 = Returned c
    /\ chunk_at (chunk2 cs) 1 = Returned s
    /\ size0 c = T /\ size1 c = 1 /\ size2 c = 2 * n
    /\ size0 s = T /\ size1 s = 1 /\ size2 s = 2 * n
    /\ forall i k, i < T -> k < 2 * n ->
         at3 c i 0 k
         = fcos (angle (nth i positions 0%Z)
                   (if interleaved then k / 2
                    else if (k <? n)%nat then k else k - n))
         /\ at3 s i 0 k
            = fsin (angle (nth i positions 0%Z)
                      (if interleaved then k / 2
                       else if (k <? n)%nat then k else k - n)).
Proof.
  intros Hlen Hrng. revert Hnew. unfold RotaryEmbeddingGeneric_new.
  destruct (arange 0 max_position_embeddings 1) as [t|] eqn:Et;
    [|discriminate].
  intros E. apply Returned_inj in E. subst self.
  destruct (arange_unit _ _ Et) as [Htl Hnth].
  unfold embedding_unsqueeze. cbn [cos_sin_cache_ rows cols].
  replace (forallb _ positions) with true.
  2:{ symmetry. apply forallb_forall. intros p Hp.
      apply list_elem_of_In in Hp.
      pose proof (proj1 (Forall_forall _ _) Hrng p Hp) as Hr.
      cbn beta in Hr. rewrite Htl.
      apply andb_true_iff. split; [apply Z.leb_le|apply Z.ltb_lt]; lia. }
  eexists. 
  match goal with
  | |- exists c s, Returned ?x = Returned _ /\ _ =>
      destruct (chunk2_cos_sin x n eq_refl)
        as (c & s & Hc & Hs & Hc0 & Hc1 & Hc2 & Hs0 & Hs1 & Hs2 & Hcat & Hsat)
  end.
  exists c, s. split; [reflexivity|]. split; [exact Hc|]. split; [exact Hs|].
  cbn [size0 size1 size2] in *.
  repeat (split; [lia|]).
  intros i k Hi Hk. rewrite Hcat, Hsat. cbn [at3 at2].
  assert (Hp : (0 <= nth i positions 0 < max_position_embeddings)%Z).
  { apply (proj1 (Forall_forall _ _) Hrng). apply list_elem_of_In.
    apply nth_In. lia. }
  rewrite (Hnth _ Hp).
  destruct (Nat.ltb_spec k (2 * n)) as [_|]; [|lia].
  destruct (Nat.ltb_spec (2 * n + k) (2 * n)) as [|_]; [lia|].
  replace (2 * n + k - 2 * n) with k by lia.
  destruct interleaved; [split; reflexivity|].
  destruct (k <? n)%nat; split; reflexivity.
Qed.

Lemma forward_one (x : Tensor3 F) (c s : Tensor3 F) (positions : list Z) :
  2 * n <= size2 x ->
  size0 c = size0 x -> size1 c = 1 -> size2 c = 2 * n ->
  size0 s = size0 x -> size1 s = 1 -> size2 s = 2 * n ->
  (forall i k, i < size0 x -> k < 2 * n ->
     at3 c i 0 k
     = fcos (angle (nth i positions 0%Z)
               (if interleaved then k / 2
                else if (k <? n)%nat then k else k - n))
     /\ at3 s i 0 k
        = fsin (angle (nth i positions 0%Z)
                  (if interleaved then k / 2
                   else if (k <? n)%nat then k else k - n))) ->
  exists o,
    bind (bind (binop fmul (slice_last x 0 (Some rotary_dim)) c) (fun qc =>
      bind (bind (if interleaved
                  then rotate_every_two (slice_last x 0 (Some rotary_dim))
                  else rotate_half (slice_last x 0 (Some rotary_dim)))
              (fun r => binop fmul r s))
        (fun rs => binop fadd qc rs)))
      (fun e => cat_last e (slice_last x rotary_dim None)) = Returned o
    /\ same_shape o x
    /\ forall i j k, i < size0 x -> j < size1 x -> k < size2 x ->
         at3 o i j k
         = rope_elem interleaved n (angle (nth i positions 0%Z))
             (at3 x i j) k.
Proof.
  intros Hx Hc0 Hc1 Hc2 Hs0 Hs1 Hs2 Hcs.
  rewrite Hdim, slice_last_rotary, slice_last_pass by assumption.
  set (xr := mkTensor3 (size0 x) (size1 x) (2 * n)
               (fun i j k => at3 x i j (0 + k))).
  destruct (rotate_embed_spec interleaved n xr c s)
    as (e & -> & (He0 & He1 & He2) & Heat); try assumption; try reflexivity.
  cbn [bind].
  destruct (cat_last_spec e
              (mkTensor3 (size0 x) (size1 x) (size2 x - 2 * n)
                 (fun i j k => at3 x i j (2 * n + k))))
    as (o & -> & Ho0 & Ho1 & Ho2 & Hoat); [exact He0|exact He1|].
  exists o. split; [reflexivity|].
  unfold xr in He0, He1, He2, Heat. cbn [size0 size1 size2 at3] in *.
  split; [unfold same_shape; repeat split; lia|].
  intros i j k Hi Hj Hk. rewrite Hoat, He2. unfold rope_elem.
  destruct (Nat.ltb_spec k (2 * n)) as [Hlt|Hge].
  - rewrite Heat by lia.
    destruct (Hcs i k Hi Hlt) as [-> ->]. cbn [Nat.add].
    destruct interleaved; reflexivity.
  - f_equal. lia.
Qed.

(** The closed form of [forward]: under the shape conditions it
    returns, and every element of its results is [rope_elem] of the
    input row. *)
Lemma forward_closed_form (query key : Tensor3 F) (positions : list Z) :
  2 * n <= size2 query -> 2 * n <= size2 key ->
  length positions = size0 query -> size0 key = size0 query ->
  Forall (fun p => (0 <= p < max_position_embeddings)%Z) positions ->
  exists q k,
    RotaryEmbeddingGeneric_forward dchecks self query key positions
    = Returned (q, k)
    /\ same_shape q query /\ same_shape k key
    /\ (forall i j d, i < size0 query -> j < size1 query -> d < size2 query ->
          at3 q i j d
          = rope_elem interleaved n (angle (nth i positions 0%Z))
              (at3 query i j) d)
    /\ (forall i j d, i < size0 key -> j < size1 key -> d < size2 key ->
          at3 k i j d
          = rope_elem interleaved n (angle (nth i positions 0%Z))
              (at3 key i j) d).
Proof.
  intros Hq Hk Hlen Hk0 Hrng.
  destruct (cache_row positions (size0 query) Hlen Hrng)
    as (cs & c & s & Hcs & Hc & Hs & Hc0 & Hc1 & Hc2 & Hs0 & Hs1 & Hs2 & Hat).
  assert (Hself : rotary_dim_ self = rotary_dim
                  /\ interleaved_ self = interleaved).
  { revert Hnew. unfold RotaryEmbeddingGeneric_new.
    destruct (arange 0 max_position_embeddings 1); [|discriminate].
    intros E. apply Returned_inj in E. rewrite <- E. split; reflexivity. }
  destruct Hself as [Hrd Hil].
  unfold RotaryEmbeddingGeneric_forward. rewrite Hrd, Hil.
  replace (Z.of_nat (size2 query) <? rotary_dim)%Z with false
    by (symmetry; apply Z.ltb_ge; lia).
  rewrite andb_false_r, Hcs. cbn [bind].
  unfold apply_rotary_pos_emb. rewrite Hc, Hs. cbn [bind].
  destruct (forward_one query c s positions)
    as (q & Eq & Hqs & Hqat); try assumption.
  destruct (forward_one key c s positions)
    as (k & Ek & Hks & Hkat); try assumption; try congruence.
  { intros i d Hi Hd. apply Hat; congruence. }
  exists q, k. split.
  - unfold apply_interleaved_rotary_pos_emb, apply_rotated_rotary_pos_emb.
    destruct interleaved.
    + destruct (bind (binop fmul (slice_last query 0 (Some rotary_dim)) c) _)
        as [e| |] eqn:E1; cbn [bind] in Eq |- *; try discriminate.
      destruct (bind (binop fmul (slice_last key 0 (Some rotary_dim)) c) _)
        as [e'| |] eqn:E2; cbn [bind] in Ek |- *; try discriminate.
      rewrite Eq. cbn [bind]. rewrite Ek. reflexivity.
    + destruct (bind (binop fmul (slice_last query 0 (Some rotary_dim)) c) _)
        as [e| |] eqn:E1; cbn [bind] in Eq |- *; try discriminate.
      destruct (bind (binop fmul (slice_last key 0 (Some rotary_dim)) c) _)
        as [e'| |] eqn:E2; cbn [bind] in Ek |- *; try discriminate.
      rewrite Eq. cbn [bind]. rewrite Ek. reflexivity.
  - repeat split; try apply Hqs; try apply Hks; assumption.
Qed.

End RopeForwardFacts.
Section RopeGenericTheorems.
Import PosEmbedding Rotary.
Local Open Scope list_scope.

Context {F : Type} `{RopeOps F}.

(** X18. Rotary embedding leaves the shape and the pass-through part
    alone: for a module built by the constructor and a well-shaped call,
    [forward] returns, with or without [DCHECK]s, a query and a key of
    the shapes of its inputs in which every element at or beyond
    [rotary_dim] in the last dimension is the input element. *)
Theorem forward_keeps_pass_through (dchecks : bool)
    (rotary_dim max_position_embeddings : Z) (inv_freq : list F)
    (interleaved : bool) (self : @RotaryEmbeddingGeneric F)
    (query key : Tensor3 F) (positions : list Z) :
  RotaryEmbeddingGeneric_new rotary_dim max_position_embeddings inv_freq
    interleaved = Returned self ->
  well_shaped_call (length inv_freq) rotary_dim max_position_embeddings
    query key positions ->
  exists q k,
    RotaryEmbeddingGeneric_forward dchecks self query key positions
    = Returned (q, k)
    /\ same_shape q query /\ same_shape k key
    /\ (forall i j d, i < size0 query -> j < size1 query ->
          2 * length inv_freq <= d < size2 query ->
          at3 q i j d = at3 query i j d)
    /\ (forall i j d, i < size0 key -> j < size1 key ->
          2 * length inv_freq <= d < size2 key ->
          at3 k i j d = at3 key i j d).
Proof.
  intros Hnew (Hdim & Hq & Hk & Hlen & Hk0 & Hrng).
  destruct (forward_closed_form dchecks rotary_dim max_position_embeddings
              inv_freq interleaved self Hnew Hdim query key positions
              Hq Hk Hlen Hk0 Hrng)
    as (q & k & E & Hqs & Hks & Hqat & Hkat).
  exists q, k. split; [exact E|]. split; [exact Hqs|]. split; [exact Hks|].
  split.
  - intros i j d Hi Hj Hd. rewrite Hqat by lia. unfold rope_elem.
    destruct (Nat.ltb_spec d (2 * length inv_freq)); [lia|reflexivity].
  - intros i j d Hi Hj Hd. rewrite Hkat by lia. unfold rope_elem.
    destruct (Nat.ltb_spec d (2 * length inv_freq)); [lia|reflexivity].
Qed.

(** X19. A position without a row in the cache makes [forward] raise:
    on a module built by the constructor, in a build without [DCHECK]s or
    with heads at least [rotary_dim] wide, a call whose positions include
    a negative one or one at or beyond [max_position_embeddings] raises
    the index error of the embedding lookup; positions are never wrapped
    around or clamped. *)
Theorem forward_position_out_of_range (dchecks : bool)
    (rotary_dim max_position_embeddings : Z) (inv_freq : list F)
    (interleaved : bool) (self : @RotaryEmbeddingGeneric F)
    (query key : Tensor3 F) (positions : list Z) :
  RotaryEmbeddingGeneric_new rotary_dim max_position_embeddings inv_freq
    interleaved = Returned self ->
  dchecks = false \/ (rotary_dim <= Z.of_nat (size2 query))%Z ->
  Exists (fun p => (p < 0 \/ max_position_embeddings <= p)%Z) positions ->
  RotaryEmbeddingGeneric_forward dchecks self query key positions
  = Raised "index out of range in self".
Proof.
  intros Hnew Hd Hex. revert Hnew. unfold RotaryEmbeddingGeneric_new.
  destruct (arange 0 max_position_embeddings 1) as [t|] eqn:Et;
    [|discriminate].
  intros E. apply Returned_inj in E. subst self.
  destruct (arange_unit _ _ Et) as [Htl _].
  assert (Hm : (0 <= max_position_embeddings)%Z).
  { unfold arange in Et. cbn [Z.eqb Z.ltb Z.compare andb] in Et.
    destruct (Z.ltb_spec max_position_embeddings 0); [discriminate|lia]. }
  unfold RotaryEmbeddingGeneric_forward.
  cbn [rotary_dim_ interleaved_ cos_sin_cache_].
  replace (dchecks && (Z.of_nat (size2 query) <? rotary_dim)%Z) with false.
  2:{ destruct Hd as [->|Hd]; [reflexivity|].
      symmetry. apply andb_false_iff. right. apply Z.ltb_ge. lia. }
  unfold embedding_unsqueeze. cbn [rows].
  replace (forallb _ positions) with false; [reflexivity|].
  symmetry. apply not_true_is_false. intros Hall.
  rewrite forallb_forall in Hall.
  apply Exists_exists in Hex as (p & Hin & Hp).
  apply list_elem_of_In in Hin. specialize (Hall p Hin).
  apply andb_true_iff in Hall as [H1 H2].
  apply Z.leb_le in H1. apply Z.ltb_lt in H2. lia.
Qed.

End RopeGenericTheorems.
Section RopeRealFacts.
Import PosEmbedding Rotary.
Local Open Scope list_scope.
Local Open Scope R_scope.

Lemma sum_to_ext (n : nat) (f g : nat -> R) :
  (forall k, (k < n)%nat -> f k = g k) -> sum_to n f = sum_to n g.
Proof.
  induction n as [|n IH]; intros Hfg; cbn [sum_to]; [reflexivity|].
  rewrite IH by (intros k Hk; apply Hfg; lia).
  rewrite (Hfg n) by lia. reflexivity.
Qed.

Lemma sum_to_plus (n : nat) (f g : nat -> R) :
  sum_to n (fun k => f k + g k) = sum_to n f + sum_to n g.
Proof.
  induction n as [|n IH]; cbn [sum_to]; [ring|]. rewrite IH. ring.
Qed.

Lemma sum_to_app (a b : nat) (f : nat -> R) :
  sum_to (a + b) f = sum_to a f + sum_to b (fun k => f (a + k)%nat).
Proof.
  induction b as [|b IH].
  - rewrite Nat.add_0_r. cbn [sum_to]. ring.
  - replace (a + S b)%nat with (S (a + b)) by lia. cbn [sum_to].
    rewrite IH. ring.
Qed.

(** Summing a row by neighbouring pairs. *)
Lemma sum_to_pairs (n : nat) (f : nat -> R) :
  sum_to (2 * n) f = sum_to n (fun m => f (2 * m)%nat + f (2 * m + 1)%nat).
Proof.
  induction n as [|n IH]; [reflexivity|].
  replace (2 * S n)%nat with (S (S (2 * n))) by lia. cbn [sum_to].
  rewrite IH. replace (S (2 * n)) with (2 * n + 1)%nat by lia. ring.
Qed.

(** Summing a row by pairs that are half a row apart. *)
Lemma sum_to_halves (n : nat) (f : nat -> R) :
  sum_to (2 * n) f = sum_to n (fun m => f m + f (m + n)%nat).
Proof.
  replace (2 * n)%nat with (n + n)%nat by lia.
  rewrite sum_to_app, sum_to_plus. f_equal.
  apply sum_to_ext. intros k _. f_equal. lia.
Qed.

(** The two elements of pair [m] of a row. *)
Local Abbreviation fst_of il row m :=
  (row (if il then 2 * m else m)%nat).
Local Abbreviation snd_of il n row m :=
  (row (if il then 2 * m + 1 else m + n)%nat).

(** The product of two rotated pairs depends on the difference of the
    two angles only. *)
Lemma rotated_pair_product (a b a' b' x y : R) :
  (a * cos x + - b * sin x) * (a' * cos y + - b' * sin y)
  + (b * cos x + a * sin x) * (b' * cos y + a' * sin y)
  = (a * a' + b * b') * cos (x - y) + (a * b' - b * a') * sin (x - y).
Proof. rewrite cos_minus, sin_minus. ring. Qed.

Lemma rope_elem_fst (il : bool) (n : nat) (angle row : nat -> R) (m : nat) :
  (m < n)%nat ->
  rope_elem il n angle row (if il then 2 * m else m)%nat
  = fst_of il row m * cos (angle m)
    + - snd_of il n row m * sin (angle m).
Proof.
  intros Hm. unfold rope_elem.
  cbn [fadd fmul fneg fcos fsin RealRopeOps]. destruct il.
  - destruct (Nat.ltb_spec (2 * m) (2 * n)); [|lia].
    replace (Nat.even (2 * m)) with true
      by (symmetry; apply Nat.even_spec; now exists m).
    replace (2 * m / 2)%nat with m
      by (rewrite Nat.mul_comm, Nat.div_mul; lia).
    reflexivity.
  - destruct (Nat.ltb_spec m (2 * n)); [|lia].
    destruct (Nat.ltb_spec m n); [|lia]. reflexivity.
Qed.

Lemma rope_elem_snd (il : bool) (n : nat) (angle row : nat -> R) (m : nat) :
  (m < n)%nat ->
  rope_elem il n angle row (if il then 2 * m + 1 else m + n)%nat
  = snd_of il n row m * cos (angle m)
    + fst_of il row m * sin (angle m).
Proof.
  intros Hm. unfold rope_elem.
  cbn [fadd fmul fneg fcos fsin RealRopeOps]. destruct il.
  - destruct (Nat.ltb_spec (2 * m + 1) (2 * n)); [|lia].
    replace (Nat.even (2 * m + 1)) with false.
    2:{ symmetry. rewrite Nat.even_add.
        replace (Nat.even (2 * m)) with true
          by (symmetry; apply Nat.even_spec; now exists m).
        reflexivity. }
    replace ((2 * m + 1) / 2)%nat with m.
    2:{ replace (2 * m + 1)%nat with (1 + m * 2)%nat by lia.
        rewrite Nat.div_add by lia. reflexivity. }
    replace (2 * m + 1 - 1)%nat with (2 * m)%nat by lia. reflexivity.
  - destruct (Nat.ltb_spec (m + n) (2 * n)); [|lia].
    destruct (Nat.ltb_spec (m + n) n); [lia|].
    replace (m + n - n)%nat with m by lia. reflexivity.
Qed.

(** The dot product of two rotated rows: a sum over the pairs, in which
    the angles enter by their differences, and the dot product of what
    lies beyond the pairs. *)
Lemma rope_dot (il : bool) (n d : nat) (angle angle' row row' : nat -> R) :
  (2 * n <= d)%nat ->
  sum_to d (fun k => rope_elem il n angle row k
                     * rope_elem il n angle' row' k)
  = sum_to n (fun m =>
      (fst_of il row m * fst_of il row' m
       + snd_of il n row m * snd_of il n row' m)
      * cos (angle m - angle' m)
      + (fst_of il row m * snd_of il n row' m
         - snd_of il n row m * fst_of il row' m)
        * sin (angle m - angle' m))
    + sum_to (d - 2 * n) (fun k => row (2 * n + k)%nat * row' (2 * n + k)%nat).
Proof.
  intros Hd. replace d with (2 * n + (d - 2 * n))%nat at 1 by lia.
  rewrite sum_to_app. f_equal.
  - destruct il.
    + rewrite sum_to_pairs. apply sum_to_ext. intros m Hm.
      rewrite !(rope_elem_fst true n _ _ m Hm),
        !(rope_elem_snd true n _ _ m Hm).
      apply rotated_pair_product.
    + rewrite sum_to_halves. apply sum_to_ext. intros m Hm.
      rewrite !(rope_elem_fst false n _ _ m Hm),
        !(rope_elem_snd false n _ _ m Hm).
      apply rotated_pair_product.
  - apply sum_to_ext. intros k Hk. unfold rope_elem.
    destruct (Nat.ltb_spec (2 * n + k) (2 * n)); [lia|reflexivity].
Qed.

(** A row summed by its pairs and its remainder. *)
Lemma sum_by_pairs (il : bool) (n d : nat) (f : nat -> R) :
  (2 * n <= d)%nat ->
  sum_to d f
  = sum_to n (fun m => f (if il then 2 * m else m)%nat
                       + f (if il then 2 * m + 1 else m + n)%nat)
    + sum_to (d - 2 * n) (fun k => f (2 * n + k)%nat).
Proof.
  intros Hd. replace d with (2 * n + (d - 2 * n))%nat at 1 by lia.
  rewrite sum_to_app. f_equal.
  destruct il; [apply sum_to_pairs|apply sum_to_halves].
Qed.

(** X20. Rotary embedding preserves the length of every row: in exact
    arithmetic, for a module built by the constructor and a well-shaped
    call, the sum of squares over the last dimension of each returned
    query row and key row equals that of the input row, in both
    layouts. *)
Theorem forward_preserves_norm (dchecks : bool)
    (rotary_dim max_position_embeddings : Z) (inv_freq : list R)
    (interleaved : bool) (self : @RotaryEmbeddingGeneric R)
    (query key : Tensor3 R) (positions : list Z) :
  RotaryEmbeddingGeneric_new rotary_dim max_position_embeddings inv_freq
    interleaved = Returned self ->
  well_shaped_call (length inv_freq) rotary_dim max_position_embeddings
    query key positions ->
  exists q k,
    RotaryEmbeddingGeneric_forward dchecks self query key positions
    = Returned (q, k)
    /\ (forall i j, (i < size0 query)%nat -> (j < size1 query)%nat ->
          dot q q i j i j = dot query query i j i j)
    /\ (forall i j, (i < size0 key)%nat -> (j < size1 key)%nat ->
          dot k k i j i j = dot key key i j i j).
Proof.
  intros Hnew (Hdim & Hq & Hk & Hlen & Hk0 & Hrng).
  destruct (forward_closed_form dchecks rotary_dim max_position_embeddings
              inv_freq interleaved self Hnew Hdim query key positions
              Hq Hk Hlen Hk0 Hrng)
    as (q & k & E & (_ & _ & Hq2) & (_ & _ & Hk2) & Hqat & Hkat).
  exists q, k. split; [exact E|].
  assert (Hnorm : forall (x o : Tensor3 R) i j,
            (2 * length inv_freq <= size2 x)%nat -> size2 o = size2 x ->
            (forall d, (d < size2 x)%nat ->
               at3 o i j d
               = rope_elem interleaved (length inv_freq)
                   (fun m => fmul (of_int (nth i positions 0%Z))
                               (nth m inv_freq (of_int 0)))
                   (at3 x i j) d) ->
            dot o o i j i j = dot x x i j i j).
  { intros x o i j Hx Ho Hat. unfold dot. rewrite Ho.
    rewrite (sum_to_ext _ _
               (fun d => rope_elem interleaved (length inv_freq)
                           (fun m => fmul (of_int (nth i positions 0%Z))
                                       (nth m inv_freq (of_int 0)))
                           (at3 x i j) d
                         * rope_elem interleaved (length inv_freq)
                             (fun m => fmul (of_int (nth i positions 0%Z))
                                         (nth m inv_freq (of_int 0)))
                             (at3 x i j) d))
      by (intros d Hd; now rewrite Hat).
    rewrite rope_dot by assumption.
    rewrite (sum_by_pairs interleaved (length inv_freq) (size2 x)
               (fun d => at3 x i j d * at3 x i j d)) by assumption.
    f_equal. apply sum_to_ext. intros m Hm.
    rewrite Rminus_diag, cos_0, sin_0. ring. }
  split.
  - intros i j Hi Hj. apply Hnorm; [assumption..|].
    intros d Hd. now apply Hqat.
  - intros i j Hi Hj. apply Hnorm; [assumption..|].
    intros d Hd. now apply Hkat.
Qed.

(** X21. Attention scores depend on relative positions only: in exact
    arithmetic, moving every position of a well-shaped call by the same
    amount (inside the cache) leaves the dot product of every returned
    query row with every returned key row unchanged. *)
Theorem forward_scores_shift_invariant (dchecks : bool)
    (rotary_dim max_position_embeddings : Z) (inv_freq : list R)
    (interleaved : bool) (self : @RotaryEmbeddingGeneric R)
    (query key : Tensor3 R) (positions : list Z) (shift : Z) :
  RotaryEmbeddingGeneric_new rotary_dim max_position_embeddings inv_freq
    interleaved = Returned self ->
  well_shaped_call (length inv_freq) rotary_dim max_position_embeddings
    query key positions ->
  size2 key = size2 query ->
  Forall (fun p => (0 <= p + shift < max_position_embeddings)%Z) positions ->
  exists q k q' k',
    RotaryEmbeddingGeneric_forward dchecks self query key positions
    = Returned (q, k)
    /\ RotaryEmbeddingGeneric_forward dchecks self query key
         ((fun p => (p + shift)%Z) <$> positions)
       = Returned (q', k')
    /\ forall i j i' j',
         (i < size0 query)%nat -> (j < size1 query)%nat ->
         (i' < size0 key)%nat -> (j' < size1 key)%nat ->
         dot q k i j i' j' = dot q' k' i j i' j'.
Proof.
  intros Hnew (Hdim & Hq & Hk & Hlen & Hk0 & Hrng) Hkq Hshift.
  destruct (forward_closed_form dchecks rotary_dim max_position_embeddings
              inv_freq interleaved self Hnew Hdim query key positions
              Hq Hk Hlen Hk0 Hrng)
    as (q & k & E & (_ & _ & Hq2) & (_ & _ & Hk2) & Hqat & Hkat).
  destruct (forward_closed_form dchecks rotary_dim max_position_embeddings
              inv_freq interleaved self Hnew Hdim query key
              ((fun p => (p + shift)%Z) <$> positions) Hq Hk)
    as (q' & k' & E' & (_ & _ & Hq2') & (_ & _ & Hk2') & Hqat' & Hkat').
  { now rewrite length_fmap. }
  { exact Hk0. }
  { apply Forall_fmap. exact Hshift. }
  exists q, k, q', k'. split; [exact E|]. split; [exact E'|].
  intros i j i' j' Hi Hj Hi' Hj'. unfold dot. rewrite Hq2, Hq2'.
  assert (Hsh : forall i0, (i0 < size0 query)%nat ->
            nth i0 ((fun p => (p + shift)%Z) <$> positions) 0%Z
            = (nth i0 positions 0 + shift)%Z).
  { intros i0 Hi0. rewrite <- Hlen in Hi0.
    destruct (lookup_lt_is_Some_2 positions i0 Hi0) as [p Hp].
    rewrite (nth_lookup_Some _ _ _ _ Hp).
    apply nth_lookup_Some. now rewrite list_lookup_fmap, Hp. }
  rewrite (sum_to_ext _ _
             (fun d => rope_elem interleaved (length inv_freq)
                         (fun m => fmul (of_int (nth i positions 0%Z))
                                     (nth m inv_freq (of_int 0)))
                         (at3 query i j) d
                       * rope_elem interleaved (length inv_freq)
                           (fun m => fmul (of_int (nth i' positions 0%Z))
                                       (nth m inv_freq (of_int 0)))
                           (at3 key i' j') d))
    by (intros d Hd; rewrite Hqat, Hkat by lia; reflexivity).
  rewrite (sum_to_ext (size2 query) (fun d => at3 q' i j d * at3 k' i' j' d)
             (fun d => rope_elem interleaved (length inv_freq)
                         (fun m => fmul (of_int (nth i positions 0 + shift)%Z)
                                     (nth m inv_freq (of_int 0)))
                         (at3 query i j) d
                       * rope_elem interleaved (length inv_freq)
                           (fun m =>
                              fmul (of_int (nth i' positions 0 + shift)%Z)
                                (nth m inv_freq (of_int 0)))
                           (at3 key i' j') d))
    by (intros d Hd; rewrite Hqat', Hkat', !Hsh by lia; reflexivity).
  rewrite !rope_dot by assumption. f_equal.
  apply sum_to_ext. intros m Hm.
  cbn [fmul of_int RealRopeOps RealOps].
  replace (IZR (nth i positions 0%Z + shift) * nth m inv_freq (IZR 0)
           - IZR (nth i' positions 0%Z + shift) * nth m inv_freq (IZR 0))
    with (IZR (nth i positions 0%Z) * nth m inv_freq (IZR 0)
          - IZR (nth i' positions 0%Z) * nth m inv_freq (IZR 0))
    by (rewrite !plus_IZR; ring).
  reflexivity.
Qed.

(** X22. The token at position 0 is not rotated: in exact arithmetic,
    every row of a token whose position is 0 is returned as it came
    in. *)
Theorem forward_position_zero_identity (dchecks : bool)
    (rotary_dim max_position_embeddings : Z) (inv_freq : list R)
    (interleaved : bool) (self : @RotaryEmbeddingGeneric R)
    (query key : Tensor3 R) (positions : list Z) :
  RotaryEmbeddingGeneric_new rotary_dim max_position_embeddings inv_freq
    interleaved = Returned self ->
  well_shaped_call (length inv_freq) rotary_dim max_position_embeddings
    query key positions ->
  exists q k,
    RotaryEmbeddingGeneric_forward dchecks self query key positions
    = Returned (q, k)
    /\ forall i, positions !! i = Some 0%Z ->
         (forall j d, (j < size1 query)%nat -> (d < size2 query)%nat ->
            at3 q i j d = at3 query i j d)
         /\ (forall j d, (j < size1 key)%nat -> (d < size2 key)%nat ->
               at3 k i j d = at3 key i j d).
Proof.
  intros Hnew (Hdim & Hq & Hk & Hlen & Hk0 & Hrng).
  destruct (forward_closed_form dchecks rotary_dim max_position_embeddings
              inv_freq interleaved self Hnew Hdim query key positions
              Hq Hk Hlen Hk0 Hrng)
    as (q & k & E & _ & _ & Hqat & Hkat).
  exists q, k. split; [exact E|].
  intros i Hi. pose proof (lookup_lt_Some _ _ _ Hi) as Hlt.
  assert (Hz : forall row d,
            rope_elem interleaved (length inv_freq)
              (fun m => fmul (of_int (nth i positions 0%Z))
                          (nth m inv_freq (of_int 0))) row d
            = row d).
  { intros row d. rewrite (nth_lookup_Some _ _ _ _ Hi). unfold rope_elem.
    cbn [fadd fmul fneg fcos fsin of_int RealRopeOps RealOps].
    destruct (d <? 2 * length inv_freq)%nat; [|reflexivity].
    destruct interleaved; rewrite !Rmult_0_l, cos_0, sin_0; ring. }
  split.
  - intros j d Hj Hd. rewrite Hqat by lia. apply Hz.
  - intros j d Hj Hd. rewrite Hkat by lia. apply Hz.
Qed.

End RopeRealFacts.
Lemma rotate_twice_negates_witness :
  exists r rr,
    Rotary.rotate_every_two RotaryExamples.head4 = PosEmbedding.Returned r
    /\ Rotary.rotate_every_two r = PosEmbedding.Returned rr
    /\ Rotary.at3 rr 0 0 2 = (- 3)%R.
Proof.
  destruct (proj2 (rotate_twice_negates RotaryExamples.head4) eq_refl)
    as [(r & rr & Hr & Hrr & _ & Hat) _].
  exists r, rr. split; [exact Hr|]. split; [exact Hrr|].
  rewrite Hat by (cbn; lia). reflexivity.
Defined.

Lemma rotary_module_built (interleaved : bool) :
  exists self, RotaryExamples.module interleaved = PosEmbedding.Returned self.
Proof. eexists. reflexivity. Qed.

Lemma rotary_example_well_shaped (positions : list Z) :
  length positions = 2 ->
  Forall (fun p => (0 <= p < 8)%Z) positions ->
  Rotary.well_shaped_call 1 2 8 RotaryExamples.query RotaryExamples.key
    positions.
Proof.
  intros Hlen Hrng. unfold Rotary.well_shaped_call.
  split; [reflexivity|]. split; [cbn; lia|]. split; [cbn; lia|].
  split; [exact Hlen|]. split; [reflexivity|exact Hrng].
Qed.

Lemma forward_keeps_pass_through_witness :
  exists self q k,
    RotaryExamples.module true = PosEmbedding.Returned self
    /\ Rotary.RotaryEmbeddingGeneric_forward true self RotaryExamples.query
         RotaryExamples.key [2; 4]%Z = PosEmbedding.Returned (q, k)
    /\ Rotary.at3 q 0 0 2 = 5%R.
Proof.
  destruct (rotary_module_built true) as [self Hself].
  destruct (forward_keeps_pass_through true 2 8 [1%R] true self
              RotaryExamples.query RotaryExamples.key [2; 4]%Z Hself)
    as (q & k & E & _ & _ & Hq & _).
  - apply rotary_example_well_shaped; [reflexivity|].
    repeat (apply List.Forall_cons; [lia|]). apply List.Forall_nil.
  - exists self, q, k. split; [exact Hself|]. split; [exact E|].
    rewrite Hq by (cbn; lia). reflexivity.
Defined.

Lemma forward_position_out_of_range_witness :
  exists self,
    RotaryExamples.module false = PosEmbedding.Returned self
    /\ Rotary.RotaryEmbeddingGeneric_forward false self RotaryExamples.query
         RotaryExamples.key [2; 8]%Z
       = PosEmbedding.Raised "index out of range in self".
Proof.
  destruct (rotary_module_built false) as [self Hself].
  exists self. split; [exact Hself|].
  apply (forward_position_out_of_range false 2 8 [1%R] false self
           RotaryExamples.query RotaryExamples.key [2; 8]%Z Hself).
  - left. reflexivity.
  - apply List.Exists_cons_tl, List.Exists_cons_hd. lia.
Defined.

Lemma forward_preserves_norm_witness :
  exists self q k,
    RotaryExamples.module false = PosEmbedding.Returned self
    /\ Rotary.RotaryEmbeddingGeneric_forward false self RotaryExamples.query
         RotaryExamples.key [2; 4]%Z = PosEmbedding.Returned (q, k)
    /\ Rotary.dot q q 0 0 0 0
       = Rotary.dot RotaryExamples.query RotaryExamples.query 0 0 0 0.
Proof.
  destruct (rotary_module_built false) as [self Hself].
  destruct (forward_preserves_norm false 2 8 [1%R] false self
              RotaryExamples.query RotaryExamples.key [2; 4]%Z Hself)
    as (q & k & E & Hq & _).
  - apply rotary_example_well_shaped; [reflexivity|].
    repeat (apply List.Forall_cons; [lia|]). apply List.Forall_nil.
  - exists self, q, k. split; [exact Hself|]. split; [exact E|].
    apply Hq; cbn; lia.
Defined.

Lemma forward_scores_shift_invariant_witness :
  exists self q k q' k',
    RotaryExamples.module true = PosEmbedding.Returned self
    /\ Rotary.RotaryEmbeddingGeneric_forward false self RotaryExamples.query
         RotaryExamples.key [2; 4]%Z = PosEmbedding.Returned (q, k)
    /\ Rotary.RotaryEmbeddingGeneric_forward false self RotaryExamples.query
         RotaryExamples.key [5; 7]%Z = PosEmbedding.Returned (q', k')
    /\ Rotary.dot q k 0 0 1 0 = Rotary.dot q' k' 0 0 1 0.
Proof.
  destruct (rotary_module_built true) as [self Hself].
  destruct (forward_scores_shift_invariant false 2 8 [1%R] true self
              RotaryExamples.query RotaryExamples.key [2; 4]%Z 3 Hself)
    as (q & k & q' & k' & E & E' & Hdot).
  - apply rotary_example_well_shaped; [reflexivity|].
    repeat (apply List.Forall_cons; [lia|]). apply List.Forall_nil.
  - reflexivity.
  - repeat (apply List.Forall_cons; [lia|]). apply List.Forall_nil.
  - exists self, q, k, q', k'. split; [exact Hself|]. split; [exact E|].
    split; [exact E'|]. apply Hdot; cbn; lia.
Defined.

Lemma forward_position_zero_identity_witness :
  exists self q k,
    RotaryExamples.module true = PosEmbedding.Returned self
    /\ Rotary.RotaryEmbeddingGeneric_forward false self RotaryExamples.query
         RotaryExamples.key [0; 4]%Z = PosEmbedding.Returned (q, k)
    /\ Rotary.at3 q 0 0 1 = 4%R.
Proof.
  destruct (rotary_module_built true) as [self Hself].
  destruct (forward_position_zero_identity false 2 8 [1%R] true self
              RotaryExamples.query RotaryExamples.key [0; 4]%Z Hself)
    as (q & k & E & Hid).
  - apply rotary_example_well_shaped; [reflexivity|].
    repeat (apply List.Forall_cons; [lia|]). apply List.Forall_nil.
  - exists self, q, k. split; [exact Hself|]. split; [exact E|].
    destruct (Hid 0 eq_refl) as [Hq _].
    rewrite Hq by (cbn; lia). reflexivity.
Defined.

(** The two rotations on [[1, 2, 3, 4]], as the comments in the source
    announce them: [[-2, 1, -4, 3]] and [[-3, -4, 1, 2]]. *)
Example rotate_examples :
  exists r h,
    Rotary.rotate_every_two RotaryExamples.head4 = PosEmbedding.Returned r
    /\ Rotary.rotate_half RotaryExamples.head4 = PosEmbedding.Returned h
    /\ (fun k => Rotary.at3 r 0 0 k) <$> [0; 1; 2; 3]
       = [- 2; 1; - 4; 3]%R
    /\ (fun k => Rotary.at3 h 0 0 k) <$> [0; 1; 2; 3]
       = [- 3; - 4; 1; 2]%R.
Proof.
  destruct (rotate_every_two_spec RotaryExamples.head4 eq_refl)
    as (r & Hr & _ & Hrat).
  destruct (rotate_half_spec RotaryExamples.head4 2 eq_refl)
    as (h & Hh & _ & Hhat).
  exists r, h. split; [exact Hr|]. split; [exact Hh|].
  cbn [fmap list_fmap]. rewrite !Hrat, !Hhat. split; reflexivity.
Qed.
Section RopeFailureFacts.
Import PosEmbedding Rotary.
Local Open Scope list_scope.

Context {F : Type} `{RopeOps F}.

Lemma bind_Returned_inv {A B : Type} (m : Outcome A) (f : A -> Outcome B)
    (b : B) :
  bind m f = Returned b -> exists a, m = Returned a /\ f a = Returned b.
Proof. destruct m; cbn; [eauto|discriminate..]. Qed.

Lemma binop_Returned_inv (f : F -> F -> F) (x y r : Tensor3 F) :
  binop f x y = Returned r ->
  broadcast_dim (size0 x) (size0 y) = Some (size0 r)
  /\ broadcast_dim (size1 x) (size1 y) = Some (size1 r)
  /\ broadcast_dim (size2 x) (size2 y) = Some (size2 r).
Proof.
  unfold binop.
  destruct (broadcast_dim (size0 x) (size0 y)); [|discriminate].
  destruct (broadcast_dim (size1 x) (size1 y)); [|discriminate].
  destruct (broadcast_dim (size2 x) (size2 y)); [|discriminate].
  intros E. apply Returned_inj in E. subst r. repeat split.
Qed.

Lemma cat_last_Returned_inv (a b r : Tensor3 F) :
  cat_last a b = Returned r -> size0 a = size0 b /\ size1 a = size1 b.
Proof.
  unfold cat_last.
  destruct (Nat.eqb_spec (size0 a) (size0 b)); [|discriminate].
  destruct (Nat.eqb_spec (size1 a) (size1 b)); [|discriminate].
  auto.
Qed.

Lemma broadcast_dim_Some (a b c : nat) :
  broadcast_dim a b = Some c ->
  (a = b /\ c = a) \/ (a = 1 /\ c = b) \/ (b = 1 /\ c = a).
Proof.
  unfold broadcast_dim.
  destruct (Nat.eqb_spec a b); [intros [= <-]; auto|].
  destruct (Nat.eqb_spec a 1); [intros [= <-]; auto|].
  destruct (Nat.eqb_spec b 1); [intros [= <-]; auto|discriminate].
Qed.

(** A rotation returns a tensor of the shape of its input, and only for
    a last dimension that is not 1. *)
Lemma rotation_Returned_inv (interleaved : bool) (x r : Tensor3 F) :
  (if interleaved then rotate_every_two x else rotate_half x) = Returned r ->
  size2 x <> 1 /\ size0 r = size0 x /\ size1 r = size1 x.
Proof.
  destruct interleaved.
  - destruct (Nat.even (size2 x)) eqn:He.
    + destruct (rotate_every_two_spec x He) as (r' & -> & (H0' & H1' & _) & _).
      intros E. apply Returned_inj in E. subst r'.
      split; [intros E1; rewrite E1 in He; discriminate|auto].
    + rewrite rotate_every_two_odd by assumption. discriminate.
  - unfold rotate_half, chunk2.
    destruct (Nat.eqb_spec (size2 x) 0) as [E0|N0].
    + rewrite chunk_at_0, chunk_at_1. cbn [bind]. intros E.
      apply cat_last_Returned_inv in E as E'.
      unfold cat_last, map3 in E. cbn [size0 size1 size2] in E.
      rewrite !Nat.eqb_refl in E. cbn [andb] in E.
      apply Returned_inj in E. subst r. cbn [size0 size1].
      split; [lia|auto].
    + destruct (Nat.eqb_spec (size2 x) 1) as [E1|N1].
      * cbn. discriminate.
      * rewrite chunk_at_0, chunk_at_1. cbn [bind]. intros E.
        unfold cat_last, map3 in E. cbn [size0 size1 size2] in E.
        rewrite !Nat.eqb_refl in E. cbn [andb] in E.
        apply Returned_inj in E. subst r. cbn [size0 size1]. auto.
Qed.

(** What one of the two results of [forward] needs in order to exist. *)
Lemma forward_one_inv (interleaved : bool) (n : nat) (xr xp c s o : Tensor3 F) :
  size1 c = 1 -> size2 c = 2 * n ->
  size0 s = size0 c -> size1 s = 1 -> size2 s = 2 * n ->
  size0 xp = size0 xr ->
  bind (bind (binop fmul xr c) (fun qc =>
    bind (bind (if interleaved then rotate_every_two xr else rotate_half xr)
            (fun r => binop fmul r s))
      (fun rs => binop fadd qc rs)))
    (fun e => cat_last e xp) = Returned o ->
  size2 xr = 2 * n /\ (size0 c = size0 xr \/ size0 c = 1).
Proof.
  intros Hc1 Hc2 Hs0 Hs1 Hs2 Hxp E.
  apply bind_Returned_inv in E as (e & E & Ecat).
  apply bind_Returned_inv in E as (qc & Eqc & E).
  apply bind_Returned_inv in E as (rs & E & Eadd).
  apply bind_Returned_inv in E as (r & Erot & Ers).
  apply rotation_Returned_inv in Erot as (Hne & Hr0 & Hr1).
  apply binop_Returned_inv in Eqc as (Hq0 & _ & Hq2).
  apply binop_Returned_inv in Eadd as (Ha0 & _ & _).
  apply binop_Returned_inv in Ers as (Hrs0 & _ & _).
  apply cat_last_Returned_inv in Ecat as [Hcat0 _].
  apply broadcast_dim_Some in Hq0, Hq2, Ha0, Hrs0.
  split; [lia|]. lia.
Qed.

(** X23. [forward] never papers over a mismatch: on a module built by
    the constructor with a non-negative [rotary_dim], a call that returns
    had every position inside the cache, heads whose rotary part is
    exactly twice the number of frequencies wide, and as many positions
    as tokens or a single position (which is then applied to every
    token); with [DCHECK]s, [rotary_dim] was at most the head width. *)
Theorem forward_returns_only_if (dchecks : bool)
    (rotary_dim max_position_embeddings : Z) (inv_freq : list F)
    (interleaved : bool) (self : @RotaryEmbeddingGeneric F)
    (query key : Tensor3 F) (positions : list Z) (q k : Tensor3 F) :
  RotaryEmbeddingGeneric_new rotary_dim max_position_embeddings inv_freq
    interleaved = Returned self ->
  (0 <= rotary_dim)%Z ->
  RotaryEmbeddingGeneric_forward dchecks self query key positions
  = Returned (q, k) ->
  Forall (fun p => (0 <= p < max_position_embeddings)%Z) positions
  /\ Z.min rotary_dim (Z.of_nat (size2 query))
     = Z.of_nat (2 * length inv_freq)
  /\ Z.min rotary_dim (Z.of_nat (size2 key))
     = Z.of_nat (2 * length inv_freq)
  /\ (length positions = size0 query \/ length positions = 1)
  /\ (length positions = size0 key \/ length positions = 1)
  /\ (dchecks = true -> (rotary_dim <= Z.of_nat (size2 query))%Z).
Proof.
  intros Hnew Hrd. revert Hnew. unfold RotaryEmbeddingGeneric_new.
  destruct (arange 0 max_position_embeddings 1) as [t|] eqn:Et;
    [|discriminate].
  intros E. apply Returned_inj in E. subst self.
  destruct (arange_unit _ _ Et) as [Htl _].
  assert (Hm : (0 <= max_position_embeddings)%Z).
  { unfold arange in Et. cbn [Z.eqb Z.ltb Z.compare andb] in Et.
    destruct (Z.ltb_spec max_position_embeddings 0); [discriminate|lia]. }
  unfold RotaryEmbeddingGeneric_forward.
  cbn [rotary_dim_ interleaved_ cos_sin_cache_].
  destruct (dchecks && (Z.of_nat (size2 query) <? rotary_dim)%Z) eqn:Ed;
    [discriminate|].
  intros E. apply bind_Returned_inv in E as (cs & Ecs & E).
  unfold embedding_unsqueeze in Ecs. cbn [rows cols] in Ecs.
  destruct (forallb _ positions) eqn:Ef; [|discriminate].
  apply Returned_inj in Ecs.
  destruct (chunk2_cos_sin cs (length inv_freq))
    as (c & s & Hc & Hs & Hc0 & Hc1 & Hc2 & Hs0 & Hs1 & Hs2 & _);
    [now subst cs|].
  assert (Hcs0 : size0 cs = length positions /\ size1 cs = 1)
    by (now subst cs).
  destruct Hcs0 as [Hcs0 Hcs1]. clear Ecs.
  apply bind_Returned_inv in E as ([qr kr] & Erot & E).
  unfold apply_rotary_pos_emb in Erot. rewrite Hc, Hs in Erot.
  cbn [bind] in Erot.
  apply bind_Returned_inv in E as (qo & Eq & E).
  apply bind_Returned_inv in E as (ko & Ek & _).
  assert (Hparts :
    bind (binop fmul (slice_last query 0 (Some rotary_dim)) c) (fun qc =>
      bind (bind (if interleaved
                  then rotate_every_two (slice_last query 0 (Some rotary_dim))
                  else rotate_half (slice_last query 0 (Some rotary_dim)))
              (fun r => binop fmul r s))
        (fun rs => binop fadd qc rs)) = Returned qr
    /\ bind (binop fmul (slice_last key 0 (Some rotary_dim)) c) (fun kc =>
      bind (bind (if interleaved
                  then rotate_every_two (slice_last key 0 (Some rotary_dim))
                  else rotate_half (slice_last key 0 (Some rotary_dim)))
              (fun r => binop fmul r s))
        (fun rs => binop fadd kc rs)) = Returned kr).
  { unfold apply_interleaved_rotary_pos_emb, apply_rotated_rotary_pos_emb
      in Erot.
    destruct interleaved;
      apply bind_Returned_inv in Erot as (qe & Eqe & Erot);
      apply bind_Returned_inv in Erot as (ke & Eke & Erot);
      apply Returned_inj in Erot; injection Erot as <- <-; auto. }
  destruct Hparts as [Eqr Ekr].
  assert (Hslice : forall x : Tensor3 F,
            size0 (slice_last x rotary_dim None)
            = size0 (slice_last x 0 (Some rotary_dim))
            /\ size0 (slice_last x 0 (Some rotary_dim)) = size0 x
            /\ Z.of_nat (size2 (slice_last x 0 (Some rotary_dim)))
               = Z.min rotary_dim (Z.of_nat (size2 x))).
  { intros x. unfold slice_last.
    rewrite !slice_bounds_nonneg by (try lia; try discriminate;
                                     intros e [= <-]; lia).
    cbn [size0 size2]. simpl default. split; [reflexivity|].
    split; [reflexivity|]. lia. }
  destruct (forward_one_inv interleaved (length inv_freq)
              (slice_last query 0 (Some rotary_dim))
              (slice_last query rotary_dim None) c s qo)
    as [Hq2 Hq0]; try congruence.
  { apply (Hslice query). }
  { rewrite Eqr. exact Eq. }
  destruct (forward_one_inv interleaved (length inv_freq)
              (slice_last key 0 (Some rotary_dim))
              (slice_last key rotary_dim None) c s ko)
    as [Hk2 Hk0]; try congruence.
  { apply (Hslice key). }
  { rewrite Ekr. exact Ek. }
  destruct (Hslice query) as (_ & Hsq0 & Hsq2).
  destruct (Hslice key) as (_ & Hsk0 & Hsk2).
  split.
  { apply Forall_forall. intros p Hp. apply list_elem_of_In in Hp.
    rewrite forallb_forall in Ef. specialize (Ef p Hp).
    apply andb_true_iff in Ef as [H1 H2].
    apply Z.leb_le in H1. apply Z.ltb_lt in H2. lia. }
  split; [lia|]. split; [lia|].
  split; [rewrite <- Hcs0, <- Hc0, <- Hsq0; tauto|].
  split; [rewrite <- Hcs0, <- Hc0, <- Hsk0; tauto|].
  intros ->. cbn [andb] in Ed. apply Z.ltb_ge in Ed. exact Ed.
Qed.

End RopeFailureFacts.

Lemma forward_returns_only_if_witness :
  exists self q k,
    RotaryExamples.module true = PosEmbedding.Returned self
    /\ Rotary.RotaryEmbeddingGeneric_forward true self RotaryExamples.query
         RotaryExamples.key [2; 4]%Z = PosEmbedding.Returned (q, k)
    /\ Z.min 2 (Z.of_nat (Rotary.size2 RotaryExamples.query)) = 2%Z.
Proof.
  destruct (rotary_module_built true) as [self Hself].
  destruct (forward_closed_form true 2 8 [1%R] true self Hself eq_refl
              RotaryExamples.query RotaryExamples.key [2; 4]%Z)
    as (q & k & E & _).
  - cbn. lia.
  - cbn. lia.
  - reflexivity.
  - reflexivity.
  - repeat (apply List.Forall_cons; [lia|]). apply List.Forall_nil.
  - exists self, q, k. split; [exact Hself|]. split; [exact E|].
    destruct (forward_returns_only_if true 2 8 [1%R] true self
                RotaryExamples.query RotaryExamples.key [2; 4]%Z q k Hself)
      as (_ & Hmin & _); [lia|exact E|exact Hmin].
Defined.
Section RopePipelineFacts.
Import PosEmbedding Rotary.
Local Open Scope list_scope.

Context {F : Type} `{RopeOps F}.

Lemma arange_unit_Some (m : Z) :
  (0 <= m)%Z -> exists t, arange 0 m 1 = Some t.
Proof.
  intros Hm. unfold arange. cbn [Z.eqb Z.ltb Z.compare andb].
  destruct (Z.ltb_spec m 0); [lia|]. eauto.
Qed.

(** X24. The default frequencies fit the module built from them: for an
    even [rotary_dim] between 0 and the head width, a non-negative
    [max_position_embeddings], one position per token and positions
    inside the cache, [compute_default_inv_freq], the constructor and
    [forward] all return, one after the other, and the results have the
    shapes of the query and the key. *)
Theorem default_frequencies_fit_forward (dchecks : bool)
    (rotary_dim max_position_embeddings : Z) (theta : F)
    (interleaved : bool) (query key : Tensor3 F) (positions : list Z) :
  Z.even rotary_dim = true ->
  (0 <= rotary_dim <= Z.of_nat (size2 query))%Z ->
  (rotary_dim <= Z.of_nat (size2 key))%Z ->
  (0 <= max_position_embeddings)%Z ->
  length positions = size0 query -> size0 key = size0 query ->
  Forall (fun p => (0 <= p < max_position_embeddings)%Z) positions ->
  exists inv_freq self q k,
    compute_default_inv_freq rotary_dim theta = Returned inv_freq
    /\ RotaryEmbeddingGeneric_new rotary_dim max_position_embeddings
         inv_freq interleaved = Returned self
    /\ RotaryEmbeddingGeneric_forward dchecks self query key positions
       = Returned (q, k)
    /\ same_shape q query /\ same_shape k key.
Proof.
  intros Heven [Hrd Hq] Hk Hm Hlen Hk0 Hrng.
  rewrite compute_default_inv_freq_even by assumption.
  eexists. 
  destruct (arange_unit_Some _ Hm) as [t Et].
  assert (Hn : rotary_dim
               = Z.of_nat (2 * Z.to_nat (rotary_dim / 2))).
  { apply Z.even_spec in Heven as [m ->].
    rewrite Z.mul_comm, Z.div_mul by lia. lia. }
  match goal with
  | |- exists self q k, Returned ?l = Returned _ /\ _ =>
      assert (Hl : length l = Z.to_nat (rotary_dim / 2))
        by (now rewrite length_fmap, length_seq);
      set (inv_freq := l) in *
  end.
  assert (Hnew : exists self,
            RotaryEmbeddingGeneric_new rotary_dim max_position_embeddings
              inv_freq interleaved = Returned self).
  { unfold RotaryEmbeddingGeneric_new. rewrite Et. eauto. }
  destruct Hnew as [self Hnew].
  destruct (forward_closed_form dchecks rotary_dim max_position_embeddings
              inv_freq interleaved self Hnew) with (query := query)
              (key := key) (positions := positions)
    as (q & k & E & Hqs & Hks & _); try assumption.
  - rewrite Hl. exact Hn.
  - rewrite Hl. lia.
  - rewrite Hl. lia.
  - exists self, q, k. auto.
Qed.

End RopePipelineFacts.

Lemma default_frequencies_fit_forward_witness :
  exists inv_freq self q k,
    PosEmbedding.compute_default_inv_freq 2 10000%R
    = PosEmbedding.Returned inv_freq
    /\ Rotary.RotaryEmbeddingGeneric_new 2 8 inv_freq false
       = PosEmbedding.Returned self
    /\ Rotary.RotaryEmbeddingGeneric_forward true self RotaryExamples.query
         RotaryExamples.key [2; 4]%Z = PosEmbedding.Returned (q, k)
    /\ Rotary.same_shape q RotaryExamples.query.
Proof.
  destruct (default_frequencies_fit_forward true 2 8 10000%R false
              RotaryExamples.query RotaryExamples.key [2; 4]%Z)
    as (inv_freq & self & q & k & E1 & E2 & E3 & Hq & _).
  - reflexivity.
  - cbn. lia.
  - cbn. lia.
  - lia.
  - reflexivity.
  - reflexivity.
  - repeat (apply List.Forall_cons; [lia|]). apply List.Forall_nil.
  - exists inv_freq, self, q, k. auto.
Defined.
Section ServerMainFacts.
Import PosEmbedding ServerMain.
Local Open Scope list_scope.

Lemma str_split_from_length (delimiter : ascii) (text : string) :
  forall piece,
    length (str_split_from delimiter text piece)
    = S (count_char delimiter text).
Proof.
  induction text as [|c text IH]; intros piece; cbn [str_split_from count_char];
    [reflexivity|].
  destruct (Ascii.eqb c delimiter); cbn [length]; rewrite IH; reflexivity.
Qed.

Context {Device DeviceType : Type} `{EqDecision DeviceType}.
Variable parse_device : string -> option Device.
Variable device_type : Device -> DeviceType.
Variable cpu : DeviceType.

Local Abbreviation main_devices :=
  (main_devices parse_device device_type cpu).

(** A list whose elements, without repetitions, are a single one. *)
Lemma remove_dups_one {A} `{EqDecision A} (l : list A) (x : A) :
  length (remove_dups (x :: l)) = 1 -> Forall (fun y => y = x) (x :: l).
Proof.
  intros Hlen.
  destruct (remove_dups (x :: l)) as [|y [|z r]] eqn:E; try discriminate.
  apply Forall_forall. intros w Hw.
  assert (Hx : x ∈ [y]) by (rewrite <- E; apply elem_of_remove_dups; left).
  assert (Hy : w ∈ [y]) by (rewrite <- E; now apply elem_of_remove_dups).
  apply list_elem_of_singleton in Hx, Hy. congruence.
Qed.

(** X25. Setting up the devices: the [CHECK] for an empty device list
    can never fail, because splitting the flag always yields at least
    one piece; and when the setup succeeds there is one device per
    comma-separated piece, all devices have one type, and the dtype is
    [kFloat] exactly when all of them are CPU devices, [kHalf]
    otherwise. *)
Theorem main_devices_spec (FLAGS_device : string) :
  main_devices FLAGS_device <> CheckFailed "No devices specified."
  /\ forall devices dtype,
       main_devices FLAGS_device = Returned (devices, dtype) ->
       length devices = S (count_char "," FLAGS_device)
       /\ (exists t, Forall (fun d => device_type d = t) devices)
       /\ (dtype = kFloat
           <-> Forall (fun d => device_type d = cpu) devices).
Proof.
  unfold ServerMain.main_devices, str_split.
  destruct (mapM parse_device (str_split_from "," FLAGS_device ""))
    as [devices|] eqn:Em; [|split; [discriminate|intros ? ? [=]]].
  assert (Hlen : length devices = S (count_char "," FLAGS_device)).
  { apply length_mapM in Em. rewrite <- Em. apply str_split_from_length. }
  destruct devices as [|first rest]; [discriminate Hlen|].
  destruct (Nat.eqb_spec
              (length (remove_dups (device_type <$> first :: rest))) 1)
    as [Hone|Hne]; cbn [negb]; [|split; [discriminate|intros ? ? [=]]].
  split; [discriminate|].
  intros devices dtype E. apply Returned_inj in E.
  injection E as <- <-.
  split; [exact Hlen|].
  rewrite fmap_cons in Hone. apply remove_dups_one in Hone.
  rewrite <- fmap_cons in Hone. apply Forall_fmap in Hone.
  split; [eexists; exact Hone|].
  unfold is_cpu. destruct (decide (device_type first = cpu)) as [Hc|Hc].
  - rewrite bool_decide_eq_true_2 by assumption.
    split; [intros _|reflexivity].
    eapply Forall_impl; [exact Hone|]. cbn. congruence.
  - rewrite bool_decide_eq_false_2 by assumption.
    split; [discriminate|]. intros Hall. exfalso. apply Hc.
    now apply Forall_cons in Hall as [Hf _].
Qed.

End ServerMainFacts.

Lemma main_devices_spec_witness :
  ServerMainExamples.devices "cuda:0,cuda:1"
  = PosEmbedding.Returned (["cuda:0"; "cuda:1"], ServerMain.kHalf)
  /\ length ["cuda:0"; "cuda:1"] = 2.
Proof.
  split; [reflexivity|].
  destruct (main_devices_spec ServerMainExamples.parse
              ServerMainExamples.type_of true "cuda:0,cuda:1")
    as [_ Hok].
  destruct (Hok ["cuda:0"; "cuda:1"] ServerMain.kHalf eq_refl) as [Hlen _].
  exact Hlen.
Defined.
(* ===================================================================== *)
(** * The properties on the worked instances *)
(* ===================================================================== *)

(** The second step of the pressure scenario: the youngest Request is
    preempted and prefilled again, the oldest decodes with a new block. *)
Example pressure_step2 :
  (fun e => (Core.request_id (Core.owner (Core.entry_seq e)),
             Core.entry_span e, Core.block_table (Core.entry_seq e)))
    <$> Examples.plan2
  = [(2, Core.Prefill, [2]); (0, Core.Decode, [0; 1; 3])]
  /\ Core.plan_token_ids Examples.plan2 = [7; 7; 7; 7; 9]%Z
  /\ Core.plan_num_prompt_tokens Examples.plan2 = 4
  /\ Core.plan_last_token_indices Examples.plan2 = [3; 4]%Z
  /\ Core.num_free Examples.pool3 = 0.
Proof. vm_compute. repeat split. Qed.

Lemma best_of_delivers_top_n_witness :
  exists delivered discarded,
    Core.final_output Examples.best_of_request = Some delivered
    /\ length delivered = 1
    /\ Examples.siblings ≡ₚ delivered ++ discarded
    /\ StronglySorted Core.ranks_before delivered
    /\ (forall d x, d ∈ delivered -> x ∈ discarded ->
          (Core.normalized_logprob x <= Core.normalized_logprob d)%Q)
    /\ (forall d, head delivered = Some d ->
          forall s, s ∈ Examples.siblings ->
            (Core.normalized_logprob s <= Core.normalized_logprob d)%Q).
Proof.
  apply (best_of_delivers_top_n Examples.best_of_request).
  - simpl. lia.
  - reflexivity.
  - reflexivity.
Defined.

(** The sibling with the best score per token is delivered, although its
    raw cumulative log-probability is the lowest of the three. *)
Example best_of_example :
  Core.final_output Examples.best_of_request
  = Some [Examples.sibling 1 [1; 2; 3; 4; 5]%Z (-4)%Q Core.FinishLength].
Proof. vm_compute. reflexivity. Qed.

Lemma plan_prefill_before_decode_witness :
  Core.prefill_first Examples.plan2 /\ Core.rows_split Examples.plan2.
Proof.
  destruct (plan_prefill_before_decode 4 64 Examples.running2 []
              Examples.pool2 Examples.pool3 Examples.result2 Examples.plan2)
    as (Hfirst & _ & _ & Hequiv).
  - vm_compute. reflexivity.
  - reflexivity.
  - split; [exact Hfirst|]. apply Hequiv; [|exact Hfirst].
    repeat constructor; discriminate.
Defined.

Lemma logits_rows_are_last_tokens_witness :
  exists logits kv_caches',
    Examples.toy_forward (Core.plan_token_ids Examples.plan2)
      (Core.plan_positions Examples.plan2)
      (Examples.input_params_of Examples.plan2)
    = Some (logits, kv_caches')
    /\ length logits = length Examples.plan2.
Proof.
  destruct (logits_rows_are_last_tokens 0%Z Z.add (fun r _ => r)
              (fun kv _ _ _ => kv) (fun q _ _ _ _ _ => q)
              (fun _ q _ _ _ _ => q) Examples.toy_model
              (Core.plan_token_ids Examples.plan2)
              (Core.plan_positions Examples.plan2) [tt]
              (Examples.input_params_of Examples.plan2))
    as [_ Hplan].
  - reflexivity.
  - destruct (Hplan Examples.plan2) as (logits & kvs & E & Hlen & _).
    + repeat constructor; discriminate.
    + reflexivity.
    + reflexivity.
    + simpl. lia.
    + exists logits, kvs. split; assumption.
Defined.

(** On the pressure scenario the model returns two rows of logits, for the
    last prompt token of the prefilled Sequence and for the token the
    decoding Sequence sampled last. *)
Example toy_forward_example :
  Examples.toy_forward (Core.plan_token_ids Examples.plan2)
    (Core.plan_positions Examples.plan2)
    (Examples.input_params_of Examples.plan2)
  = Some ([56; 72]%Z, [tt]).
Proof. vm_compute. reflexivity. Qed.

Lemma capacity_while_blocks_held_witness :
  Forall (fun e => Core.capacity_ok 4 (Core.entry_seq e)) Examples.plan2.
Proof.
  destruct (capacity_while_blocks_held 4 64 Examples.running2 []
              Examples.pool2 Examples.pool3 Examples.result2) as [Hplan _].
  - lia.
  - vm_compute. reflexivity.
  - apply Forall_forall. intros e He.
    apply (Hplan Examples.plan2 e); [reflexivity|exact He].
Defined.

Lemma allocate_out_of_blocks_witness :
  (exists ids a',
     Core.allocate 2 Examples.pool = (inr ids, a')
     /\ length ids = 2 /\ Core.num_free a' = 2)
  /\ Core.allocate 5 Examples.pool = (inl Core.OutOfBlocks, Examples.pool).
Proof.
  split.
  - destruct (allocate_out_of_blocks 2 Examples.pool) as [Hok _].
    destruct Hok as (ids & a' & E & Hlen & Hfree & _).
    + vm_compute. lia.
    + exists ids, a'. split; [exact E|]. split; [exact Hlen|exact Hfree].
  - destruct (allocate_out_of_blocks 5 Examples.pool) as (_ & Hfail & _).
    apply Hfail. vm_compute. lia.
Defined.

(** The allocator hands out the head of the free list and takes released
    blocks back on top of it. *)
Example allocator_lifo :
  let '(_, a1) := Core.allocate 3 Examples.pool in
  let a2 := Core.release [1] a1 in
  Core.free_list a1 = [3] /\ Core.free_list a2 = [1; 3]
  /\ Core.ref_count a2 = [1; 0; 1; 0]
  /\ Core.allocate 3 a2 = (inl Core.OutOfBlocks, a2).
Proof. vm_compute. repeat split. Qed.
